(** * PetPadMonitor: colour analysis, classification and history merge

    A shallow embedding of the deterministic core of [src/PetPadMonitor.tsx]:
    the RGB->HSV conversion, the glucose and pH classifiers, the context
    adjuster, the region sampler and the per-day history log with its
    calendar and statistics views.

    Numbers.  A JavaScript [number] is modelled by a rational [Q].  Every
    finite double is a rational and the comparisons [<], [<=], [>=], [===]
    on finite doubles agree with the rational order, so the decision rules
    are embedded exactly.  The context adjuster and the luma of the sampler
    are computed as the source computes them, in binary64 arithmetic: every
    literal and every operation is rounded to the nearest double, ties to
    even ([JS.double]).  The colour conversion and the averages of the
    sampler are embedded with the exact (unrounded) arithmetic.  NaN and the
    infinities are not values of the model: [JS.double] has no largest
    exponent, so it is the rounding of binary64 for results below
    [2^1024]. *)

From stdpp Require Import gmap strings list sorting pretty.
From Stdlib Require Import ZArith QArith Qround Qminmax Qpower Qabs Lia Lqa Bool.

(** ** JavaScript number primitives used by the source *)

Module JS.
Local Open Scope Q_scope.

Definition ltb (x y : Q) : bool := negb (Qle_bool y x).
Definition leb (x y : Q) : bool := Qle_bool x y.
Definition gtb (x y : Q) : bool := ltb y x.
Definition geb (x y : Q) : bool := leb y x.
Definition eqb (x y : Q) : bool := Qeq_bool x y.

(** [Math.max] and [Math.min] on two and three arguments. *)
Definition Math_max (x y : Q) : Q := Qmax x y.
Definition Math_min (x y : Q) : Q := Qmin x y.
Definition Math_max3 (x y z : Q) : Q := Math_max (Math_max x y) z.
Definition Math_min3 (x y z : Q) : Q := Math_min (Math_min x y) z.

(** [Math.round]: the nearest integer, ties towards plus infinity. *)
Definition Math_round (x : Q) : Q := inject_Z (Qfloor (x + (1 # 2))).

(** The remainder operator [%]: the sign follows the dividend. *)
Definition Qtruncate (x : Q) : Z := Z.quot (Qnum x) (Zpos (Qden x)).
Definition rem (x y : Q) : Q := x - y * inject_Z (Qtruncate (x / y)).

(** *** Binary64 rounding

    [double x] is the double nearest to [x], ties to the even significand:
    a significand of 53 bits scaled by a power of two that is at least
    [2^-1074], the spacing of the subnormal numbers. *)

Definition pow2 (e : Z) : Q := 2 ^ e.

(** The integer part of the binary logarithm of a positive number. *)
Definition ilog2 (a : Q) : Z :=
  if Qle_bool 1 a then Z.log2 (Qfloor a)
  else (- Z.log2_up (Qceiling (/ a)))%Z.

(** The nearest integer, ties to even. *)
Definition nearest_even (t : Q) : Z :=
  let f := Qfloor t in
  match Qcompare (t - inject_Z f) (1 # 2) with
  | Lt => f
  | Gt => (f + 1)%Z
  | Eq => if Z.even f then f else (f + 1)%Z
  end.

(** The exponent of the last bit of the significand of [a]. *)
Definition exponent (a : Q) : Z := Z.max (ilog2 a - 52) (-1074).

Definition round_pos (a : Q) : Q :=
  inject_Z (nearest_even (a / pow2 (exponent a))) * pow2 (exponent a).

Definition double (x : Q) : Q :=
  match Qcompare (Qred x) 0 with
  | Eq => 0
  | Gt => round_pos (Qred x)
  | Lt => - round_pos (- Qred x)
  end.

(** The operators [*], [+] and [/] on doubles: the exact result, rounded. *)
Definition fmul (x y : Q) : Q := double (x * y).
Definition fadd (x y : Q) : Q := double (x + y).
Definition fdiv (x y : Q) : Q := double (x / y).

(** Half the distance between 1 and the next double, and half the
    smallest positive double. *)
Definition ulp_half : Q := pow2 (-53).
Definition eta : Q := pow2 (-1075).

End JS.

(** ** Colour conversion and classification *)

Module Color.
Local Open Scope Q_scope.
Import JS.

Record HSV : Type := mkHSV { hsv_h : Q; hsv_s : Q; hsv_v : Q }.

(** [rgbToHsvDeg], lines 116-134. *)
Definition rgbToHsvDeg (R G B : Q) : HSV :=
  let r := R / 255 in
  let g := G / 255 in
  let b := B / 255 in
  let max := Math_max3 r g b in
  let min := Math_min3 r g b in
  let d := max - min in
  let h :=
    if negb (eqb d 0) then
      let h0 :=
        if eqb max r then rem ((g - b) / d) 6
        else if eqb max g then (b - r) / d + 2
        else (r - g) / d + 4 in
      let h1 := h0 * 60 in
      if ltb h1 0 then h1 + 360 else h1
    else 0 in
  let s := if eqb max 0 then 0 else d / max in
  let v := max in
  mkHSV h (s * 100) (v * 100).

(** [classifyByHSV], lines 137-142. *)
Definition classifyByHSV (h v : Q) : Z :=
  if geb h 160 then 0%Z
  else if geb h 60 && leb h 140 then (if geb v 75 then 1%Z else 2%Z)
  else if ltb h 60 then 3%Z
  else 2%Z.

(** [LEVEL_LABELS], line 47, and [diagnosisText], lines 154-165. *)
Definition LEVEL_LABELS : list string := ["정상"; "주의"; "의심"; "위험"].

Definition diagnosisText (level : Z) : string :=
  match level with
  | 0%Z => "🟦 깨끗해요!"
  | 1%Z => "🟩 포도당이 평소보다 조금 더 검출 되었어요"
  | 2%Z => "🟨 주기적인 검진이 필요해요!"
  | _ => "🟥 포도당이 너무 많아요, 위험해요!"
  end.

Record PHResult : Type := mkPH { ph : option Z; label : string }.

(** [classifyPHByHSV], lines 143-153; [ph = None] is the source's [null]. *)
Definition classifyPHByHSV (h s v : Q) : PHResult :=
  if ltb v 25 then mkPH None "조도가 너무 낮아 측정 불가"
  else if ltb s 8 then mkPH None "채도가 너무 낮아 측정 불가"
  else if geb h 20 && ltb h 45 then mkPH (Some 5%Z) "pH 5 (오렌지)"
  else if geb h 45 && ltb h 58 then mkPH (Some 6%Z) "pH 6 (노랑)"
  else if geb h 58 && ltb h 80 then mkPH (Some 7%Z) "pH 7 (황록)"
  else if geb h 80 && ltb h 150 then mkPH (Some 8%Z) "pH 8 (녹색)"
  else if geb h 150 && leb h 190 then mkPH (Some 9%Z) "pH 9 (청록)"
  else if ltb h 20 then mkPH (Some 5%Z) "pH 5 (추정)"
  else mkPH (Some 9%Z) "pH 9 (추정)".

(** [WEIGHTS], lines 55-61: the literals [1.2] and [1.1] are the doubles
    nearest to them, [1 / 500] and [1 / 60] are divisions of doubles. *)
Module WEIGHTS.
Definition nightTime : Q := double (12 # 10).
Definition lateNight : Q := double (11 # 10).
Definition afterMeal : Q := double (12 # 10).
Definition waterPer500ml : Q := fdiv 1 500.
Definition elapsedPerMin : Q := fdiv 1 60.
End WEIGHTS.

(** [clamp], lines 80-82. *)
Definition clamp (v min max : Q) : Q := Math_max min (Math_min max v).

Record Context : Type :=
  mkContext { hour : Q; afterMealMin : Q; waterMl : Q; elapsedMin : Q }.

(** [applyContextFactors], lines 99-115; the sums and the products
    associate to the left, each one rounded. *)
Definition applyContextFactors (b : Q) (c : Context) : Q :=
  let isNight := geb (hour c) 0 && leb (hour c) 6 in
  let isLate := geb (hour c) 22 in
  let timeFactor :=
    if isNight then WEIGHTS.nightTime
    else if isLate then WEIGHTS.lateNight else 1 in
  let mealFactor := if ltb (afterMealMin c) 60 then WEIGHTS.afterMeal else 1 in
  let dilutionFactor :=
    fadd (fadd 1 (fmul (waterMl c) WEIGHTS.waterPer500ml))
         (fmul (elapsedMin c) WEIGHTS.elapsedPerMin) in
  clamp (Math_round
           (fmul (fmul (fmul b timeFactor) mealFactor) dilutionFactor))
        0 255.

End Color.

(** ** Region sampler (section 4.1)

    The pixel buffer is the [Uint8ClampedArray] of [getImageData]: a list of
    bytes, four per pixel.  A read past the end is [undefined] and turns
    the arithmetic into NaN; both are [None] here. *)

Module Sampler.
Import JS Color.
Local Open Scope Z_scope.

(** [ANALYZE_OPTIONS], lines 63-68. *)
Record AnalyzeOptions : Type :=
  mkOptions { roiRatio : Q; minLuma : Q; maxLuma : Q; useBlueRatio : bool }.

Definition ANALYZE_OPTIONS : AnalyzeOptions :=
  mkOptions (1 # 2) 15%Q 245%Q true.

(** The canvas size, line 755. *)
Definition W : Z := 300.
Definition H : Z := 300.

(** [data[i]]. *)
Definition at_ (data : list Z) (i : Z) : option Z :=
  if i <? 0 then None else data !! Z.to_nat i.

(** [0.2126 * r + 0.7152 * g + 0.0722 * b] on bytes, in doubles: the
    three literals are rounded, and so is each product and each sum. *)
Definition lumaOf (r g b : Z) : Q :=
  fadd (fadd (fmul (double (2126 # 10000)%Q) (inject_Z r))
             (fmul (double (7152 # 10000)%Q) (inject_Z g)))
       (fmul (double (722 # 10000)%Q) (inject_Z b)).

Definition luma (r g b : option Z) : option Q :=
  match r, g, b with
  | Some r, Some g, Some b => Some (lumaOf r g b)
  | _, _, _ => None
  end.

(** The test [luma < lo || luma > hi]; it is false on NaN. *)
Definition outside (l : option Q) (lo hi : Q) : bool :=
  match l with
  | Some l => ltb l lo || gtb l hi
  | None => false
  end.

(** The running sums [rSum], [gSum], [bSum] and the count [n]. *)
Record Acc : Type :=
  mkAcc { rSum : option Z; gSum : option Z; bSum : option Z; n : Z }.

Definition acc0 : Acc := mkAcc (Some 0) (Some 0) (Some 0) 0.

(** [sum += x]. *)
Definition add (sum x : option Z) : option Z :=
  match sum, x with
  | Some a, Some b => Some (a + b)
  | _, _ => None
  end.

(** The body of both loops: skip the pixel when its luma is outside the
    bounds, otherwise add it to the sums (lines 777-782 and 791-796). *)
Definition accumulate (lo hi : Q) (a : Acc) (r g b : option Z) : Acc :=
  if outside (luma r g b) lo hi then a
  else mkAcc (add (rSum a) r) (add (gSum a) g) (add (bSum a) b) (n a + 1).

(** The scan of the centred region of interest, lines 763-784. *)
Definition roiScan (data : list Z) (options : AnalyzeOptions) : Acc :=
  let roiW := Qfloor (inject_Z W * roiRatio options) in
  let roiH := Qfloor (inject_Z H * roiRatio options) in
  let offX := (W - roiW) / 2 in
  let offY := (H - roiH) / 2 in
  foldl (fun a y =>
           foldl (fun a x =>
                    let i := (y * W + x) * 4 in
                    accumulate (minLuma options) (maxLuma options) a
                      (at_ data i) (at_ data (i + 1)) (at_ data (i + 2)))
                 a (seqZ offX roiW))
        acc0 (seqZ offY roiH).

(** The scan of the whole buffer, lines 787-797: the loop
    [for (i = 0; i < data.length; i += 4)] takes the entries four at a
    time and reads the first three. *)
Fixpoint fullScan (data : list Z) (a : Acc) : Acc :=
  match data with
  | [] => a
  | r :: rest =>
      match rest with
      | g :: b :: _ :: rest' =>
          fullScan rest' (accumulate 10 245 a (Some r) (Some g) (Some b))
      | [g; b] => accumulate 10 245 a (Some r) (Some g) (Some b)
      | [g] => accumulate 10 245 a (Some r) (Some g) None
      | [] => accumulate 10 245 a (Some r) None None
      end
  end.

(** Lines 763-798: the region scan, replaced by the full scan when it
    found fewer than 50 pixels. *)
Definition scan (data : list Z) (options : AnalyzeOptions) : Acc :=
  let roi := roiScan data options in
  if n roi <? 50 then fullScan data acc0 else roi.

(** [n ? Math.round(sum / n) : 0], lines 799-801. *)
Definition average (sum : option Z) (n : Z) : option Q :=
  if n =? 0 then Some 0%Q
  else match sum with
       | Some s => Some (Math_round (inject_Z s / inject_Z n))
       | None => None
       end.

(** The sample [(R, G, B)]. *)
Definition sampleRGB (data : list Z) (options : AnalyzeOptions)
  : option Q * option Q * option Q :=
  let a := scan data options in
  (average (rSum a) (n a), average (gSum a) (n a), average (bSum a) (n a)).

(** The result [{ h, s, v, b: B }] of [analyzeImageForHSV] on the pixel
    buffer, lines 762-803; [None] when the sample is NaN. *)
Definition analyzeImageForHSV (data : list Z) (options : AnalyzeOptions)
  : option (HSV * Q) :=
  match sampleRGB data options with
  | (Some R, Some G, Some B) => Some (rgbToHsvDeg R G B, B)
  | _ => None
  end.

(** The pixels of a buffer and the ones the full scan keeps. *)
Fixpoint pixels (data : list Z) : list (Z * Z * Z) :=
  match data with
  | r :: g :: b :: _ :: rest => (r, g, b) :: pixels rest
  | _ => []
  end.

Definition inLuma (lo hi : Q) (p : Z * Z * Z) : bool :=
  let '(r, g, b) := p in
  Qle_bool lo (lumaOf r g b) && Qle_bool (lumaOf r g b) hi.

Definition fullFrameValid (data : list Z) : list (Z * Z * Z) :=
  List.filter (inLuma 10 245) (pixels data).

Definition sumZ (l : list Z) : Z := foldr Z.add 0 l.

(** Sums that are numbers, of [n] bytes each. *)
Definition byte (x : Z) : Prop := 0 <= x <= 255.

Definition sumsOfBytes (a : Acc) : Prop :=
  exists sr sg sb,
    rSum a = Some sr /\ gSum a = Some sg /\ bSum a = Some sb /\
    0 <= n a /\ 0 <= sr <= 255 * n a /\ 0 <= sg <= 255 * n a /\
    0 <= sb <= 255 * n a.

Definition redOf (p : Z * Z * Z) : Z := p.1.1.
Definition greenOf (p : Z * Z * Z) : Z := p.1.2.
Definition blueOf (p : Z * Z * Z) : Z := p.2.

Definition bytePixel (p : Z * Z * Z) : Prop :=
  byte (redOf p) /\ byte (greenOf p) /\ byte (blueOf p).

End Sampler.

(** ** The luma as the specification writes it (section 4.1)

    [0.2126 R + 0.7152 G + 0.0722 B] on the rationals, without rounding. *)

Module SamplerSpec.
Local Open Scope Q_scope.

Definition luma (R G B : Z) : Q :=
  (2126 # 10000) * inject_Z R + (7152 # 10000) * inject_Z G
  + (722 # 10000) * inject_Z B.

End SamplerSpec.

(** ** The context adjuster as the specification words it (section 4.3) *)

Module ContextSpec.
Local Open Scope Q_scope.
Import JS Color.

Definition timeFactor (hourOfDay : Q) : Q :=
  if Qle_bool 0 hourOfDay && Qle_bool hourOfDay 6 then 12 # 10
  else if Qle_bool 22 hourOfDay then 11 # 10
  else 1.

Definition mealFactor (afterMealMinutes : Q) : Q :=
  if Qle_bool 60 afterMealMinutes then 1 else 12 # 10.

Definition dilutionFactor (waterMl elapsedMinutes : Q) : Q :=
  1 + waterMl / 500 + elapsedMinutes / 60.

Definition adjusted (b hourOfDay afterMealMinutes waterMl elapsedMinutes : Q) : Q :=
  Math_round
    (clamp (b * timeFactor hourOfDay * mealFactor afterMealMinutes
              * dilutionFactor waterMl elapsedMinutes) 0 255).

(** The same formula read as a computation on doubles, every literal and
    every operation rounded, with the divisions the specification
    writes. *)
Definition adjustedInDoubles
    (b hourOfDay afterMealMinutes waterMl elapsedMinutes : Q) : Q :=
  Math_round
    (clamp (fmul (fmul (fmul b (double (timeFactor hourOfDay)))
                       (double (mealFactor afterMealMinutes)))
                 (fadd (fadd 1 (fdiv waterMl 500)) (fdiv elapsedMinutes 60)))
           0 255).

End ContextSpec.

(** ** History log (section 4.6) and its views (section 4.7)

    A history entry is a JavaScript object whose properties hold primitive
    values; it is a finite map from property names to values.  A property
    that is absent reads as [undefined]. *)

Module History.

Inductive value : Type :=
  | VUndefined
  | VNull
  | VNum (n : Z)
  | VStr (s : string).

#[global] Instance value_eq_dec : EqDecision value.
Proof. solve_decision. Defined.

Abbreviation obj := (gmap string value).

(** Property read [o.k]. *)
Definition get (o : obj) (k : string) : value := default VUndefined (o !! k).

(** Strict equality [a === b] on primitive values. *)
Definition strict_eq (a b : value) : bool := bool_decide (a = b).

(** Object spread [{ ...a, ...b }]: the properties of [b] win. *)
Definition spread (a b : obj) : obj := b ∪ a.

(** [Array.prototype.findIndex]: the first index that passes, or -1. *)
Fixpoint findIndex {A} (p : A -> bool) (l : list A) : Z :=
  match l with
  | [] => (-1)%Z
  | x :: l' =>
      if p x then 0%Z
      else let i := findIndex p l' in
           if (i <? 0)%Z then (-1)%Z else (i + 1)%Z
  end.

(** [Array.prototype.sort] with a comparator.  The comparator returns a
    number or NaN ([None]), which the sort reads as 0; [a] stays before
    [b] unless the comparator is positive.  The sort is stable, so for a
    consistent comparator its result is the one of this insertion sort. *)
Definition keeps_before {A} (cmp : A -> A -> option Z) (a b : A) : bool :=
  match cmp a b with
  | Some n => (n <=? 0)%Z
  | None => true
  end.

Fixpoint sort_insert {A} (cmp : A -> A -> option Z) (x : A) (l : list A)
  : list A :=
  match l with
  | [] => [x]
  | y :: l' =>
      if keeps_before cmp x y then x :: y :: l'
      else y :: sort_insert cmp x l'
  end.

Definition Array_sort {A} (cmp : A -> A -> option Z) (l : list A) : list A :=
  foldr (sort_insert cmp) [] l.

(** The same sort with a comparator that may throw ([None] aborts the
    sort with the exception). *)
Fixpoint sort_insert_throwing {A} (cmp : A -> A -> option Z) (x : A)
    (l : list A) : option (list A) :=
  match l with
  | [] => Some [x]
  | y :: l' =>
      match cmp x y with
      | None => None
      | Some n =>
          if (n <=? 0)%Z then Some (x :: y :: l')
          else match sort_insert_throwing cmp x l' with
               | None => None
               | Some r => Some (y :: r)
               end
      end
  end.

Fixpoint Array_sort_throwing {A} (cmp : A -> A -> option Z) (l : list A)
  : option (list A) :=
  match l with
  | [] => Some []
  | x :: l' =>
      match Array_sort_throwing cmp l' with
      | None => None
      | Some r => sort_insert_throwing cmp x r
      end
  end.

(** A [Map] keeps its keys in insertion order; [set] on a key that is
    present replaces the value in place. *)
Fixpoint Map_get {V} (m : list (value * V)) (k : value) : option V :=
  match m with
  | [] => None
  | (k', v) :: m' => if strict_eq k' k then Some v else Map_get m' k
  end.

Fixpoint Map_set {V} (m : list (value * V)) (k : value) (v : V)
  : list (value * V) :=
  match m with
  | [] => [(k, v)]
  | (k', v') :: m' =>
      if strict_eq k' k then (k, v) :: m' else (k', v') :: Map_set m' k v
  end.

Definition Map_values {V} (m : list (value * V)) : list V := m.*2.

(** A point of the statistics series. *)
Record point : Type :=
  mkPoint { pt_date : value; pt_displayDate : string;
            pt_level : value; pt_ph : value }.

(** [String(v)] for the primitive values. *)
Definition ToString (v : value) : string :=
  match v with
  | VUndefined => "undefined"
  | VNull => "null"
  | VNum n => pretty n
  | VStr s => s
  end.

(** Ordering by a numeric key that may be missing ([None], a NaN). *)
Definition key_cmp {A} (key : A -> option Z) (a b : A) : option Z :=
  match key a, key b with
  | Some ka, Some kb => Some (ka - kb)%Z
  | _, _ => None
  end.

Definition key_le {A} (key : A -> option Z) (a b : A) : Prop :=
  exists ka kb, key a = Some ka /\ key b = Some kb /\ (ka <= kb)%Z.

Definition key_lt {A} (key : A -> option Z) (a b : A) : Prop :=
  exists ka kb, key a = Some ka /\ key b = Some kb /\ (ka < kb)%Z.




(** The level counts of [StatsPage], lines 249-256: an object from
    property names to counts; [acc[it.level]] reads the property named
    [String(it.level)]. *)
Definition count_or_zero (c : option Z) : Z :=
  match c with
  | Some n => n
  | None => 0%Z
  end.

Definition summary (history : list obj) : gmap string Z :=
  foldl (fun acc it =>
           <[ ToString (get it "level") :=
                (count_or_zero (acc !! ToString (get it "level")) + 1)%Z ]> acc)
        ∅ history.

(** The property name under which an entry is counted. *)
Definition levelKey (e : obj) : string := ToString (get e "level").

(** The count shown for level [k], [summary[k] || 0] (lines 286-289). *)
Definition levelCount (history : list obj) (k : Z) : Z :=
  count_or_zero (summary history !! ToString (VNum k)).

(** The date key of an entry, [e.date]. *)
Definition dateOf (e : obj) : value := get e "date".

(** What an upsert of [payload] does to a record [e] of a log that has one
    record per date. *)
Definition mergeSameDate (payload e : obj) : obj :=
  if decide (dateOf e = dateOf payload) then spread e payload else e.

(** The entries of date [d] merged in list order onto [acc]: the
    properties of later entries win. *)
Definition mergeDate (d : value) (acc : obj) (l : list obj) : obj :=
  foldl spread acc (filter (fun e => dateOf e = d) l).

Section Platform.

(** What the platform supplies: [new Date(v).getTime()] ([None] is NaN, an
    invalid date), [String.prototype.localeCompare] and the formatting of
    [toKoMD] (lines 93-98). *)
Variable getTime : value -> option Z.
Variable localeCompare : string -> string -> Z.
Variable toKoMD : value -> string.

(** The instant of an entry, [new Date(e.timestamp).getTime()]. *)
Definition timeOf (e : obj) : option Z := getTime (get e "timestamp").

(** The comparator
    [new Date(a.timestamp).getTime() - new Date(b.timestamp).getTime()]. *)
Definition byTimestamp (a b : obj) : option Z :=
  match timeOf a, timeOf b with
  | Some ta, Some tb => Some (ta - tb)%Z
  | _, _ => None
  end.

Definition validTime (e : obj) : Prop := is_Some (timeOf e).
Definition time_le : relation obj := key_le timeOf.
Definition time_lt : relation obj := key_lt timeOf.

(** [upsertHistoryEntry], lines 71-79. *)
Definition upsertHistoryEntry (list_ : list obj) (payload : obj) : list obj :=
  let idx :=
    findIndex (fun e => strict_eq (dateOf e) (dateOf payload)) list_ in
  let list' :=
    if (idx >=? 0)%Z
    then <[Z.to_nat idx := spread (list_ !!! Z.to_nat idx) payload]> list_
    else list_ ++ [payload] in
  Array_sort byTimestamp list'.

(** The [byDate] map of [CalendarPage] (lines 175-184), which [StatsPage]
    builds in the same way (lines 258-264); [byDate_step] is the body of
    the [forEach]. *)
Definition byDate_step (m : list (value * obj)) (e : obj)
  : list (value * obj) :=
  Map_set m (dateOf e) (spread (default ∅ (Map_get m (dateOf e))) e).

Definition byDate (history : list obj) : list (value * obj) :=
  foldl byDate_step [] (Array_sort byTimestamp history).

(** The calendar cell of day [d]: [byDate.get(d)] (line 214). *)
Definition calendarEntry (history : list obj) (d : string) : option obj :=
  Map_get (byDate history) (VStr d).

(** The comparator [a.date.localeCompare(b.date)]: reading [localeCompare]
    off a date that is not a string throws. *)
Definition byDateString (a b : obj) : option Z :=
  match get a "date" with
  | VStr da => Some (localeCompare da (ToString (get b "date")))
  | _ => None
  end.

Definition toPoint (e : obj) : point :=
  {| pt_date := get e "date";
     pt_displayDate := toKoMD (get e "date");
     pt_level :=
       match get e "level" with
       | VUndefined | VNull => VNull
       | VNum n => VNum (n + 1)
       | VStr s => VStr (s +:+ "1")
       end;
     pt_ph :=
       match get e "ph" with
       | VUndefined | VNull => VNull
       | v => v
       end |}.

(** [lineData] of [StatsPage], lines 257-273; [None] when the sort by date
    throws. *)
Definition lineData (history : list obj) : option (list point) :=
  match Array_sort_throwing byDateString (Map_values (byDate history)) with
  | None => None
  | Some sorted => Some (map toPoint sorted)
  end.

(** [hasPH] of [StatsPage], line 274: [lineData.some((d) => d.ph != null)];
    the loose comparison holds null and undefined for equal. *)
Definition hasPH (lineData_ : list point) : bool :=
  existsb (fun d => match pt_ph d with
                    | VUndefined | VNull => false
                    | _ => true
                    end) lineData_.

(** The log after a sequence of upserts from the empty log. *)
Definition upserts (payloads : list obj) : list obj :=
  foldl upsertHistoryEntry [] payloads.




(** A record that has the date and the instant of one of the payloads. *)
Definition from_payload (payloads : list obj) (e : obj) : Prop :=
  exists p, p ∈ payloads /\ dateOf e = dateOf p /\ timeOf e = timeOf p.


Definition hasDateString (e : obj) : Prop := exists x, dateOf e = VStr x.

End Platform.

End History.

(** ** A model of the platform functions

    Enough of [Date], [localeCompare] and [toLocaleDateString] to run the
    history functions on the records the application writes: timestamps
    in the format of [toISOString] and dates of the form YYYY-MM-DD. *)

Module Browser.
Import Stdlib.Strings.Ascii.
Import History.
Local Open Scope Z_scope.

Definition digit (c : Ascii.ascii) : option Z :=
  let n := Z.of_N (Ascii.N_of_ascii c) - 48 in
  if (0 <=? n) && (n <=? 9) then Some n else None.

Fixpoint digits (n : nat) (s : string) (acc : Z) : option (Z * string) :=
  match n, s with
  | O, _ => Some (acc, s)
  | S n', String c s' => d ← digit c; digits n' s' (10 * acc + d)
  | S _, EmptyString => None
  end.

Definition expect (c : Ascii.ascii) (s : string) : option string :=
  match s with
  | String c' s' => if Ascii.eqb c c' then Some s' else None
  | EmptyString => None
  end.

Definition isLeap (y : Z) : bool :=
  ((y mod 4 =? 0) && negb (y mod 100 =? 0)) || (y mod 400 =? 0).

Definition daysInMonth (y m : Z) : Z :=
  if m =? 2 then (if isLeap y then 29 else 28)
  else if (m =? 4) || (m =? 6) || (m =? 9) || (m =? 11) then 30
  else 31.

(** Days from 1970-01-01 to the civil date [y]-[m]-[d]. *)
Definition daysFromCivil (y m d : Z) : Z :=
  let y' := if m <=? 2 then y - 1 else y in
  let era := y' / 400 in
  let yoe := y' - era * 400 in
  let doy := (153 * (if 2 <? m then m - 3 else m + 9) + 2) / 5 + d - 1 in
  let doe := yoe * 365 + yoe / 4 - yoe / 100 + doy in
  era * 146097 + doe - 719468.

(** [Date.parse] on YYYY-MM-DDTHH:mm:ss.sssZ. *)
Definition parseISO (s : string) : option Z :=
  '(y, s) ← digits 4 s 0; s ← expect "-"%char s;
  '(m, s) ← digits 2 s 0; s ← expect "-"%char s;
  '(d, s) ← digits 2 s 0; s ← expect "T"%char s;
  '(hh, s) ← digits 2 s 0; s ← expect ":"%char s;
  '(mm, s) ← digits 2 s 0; s ← expect ":"%char s;
  '(ss, s) ← digits 2 s 0; s ← expect "."%char s;
  '(ms, s) ← digits 3 s 0; s ← expect "Z"%char s;
  if String.eqb s ""
     && (1 <=? m) && (m <=? 12) && (1 <=? d) && (d <=? daysInMonth y m)
     && (hh <=? 23) && (mm <=? 59) && (ss <=? 59)
  then Some ((((daysFromCivil y m d * 24 + hh) * 60 + mm) * 60 + ss) * 1000
             + ms)
  else None.

(** [new Date(v).getTime()]. *)
Definition getTime (v : value) : option Z :=
  match v with
  | VUndefined => None
  | VNull => Some 0
  | VNum n => if Z.abs n <=? 8640000000000000 then Some n else None
  | VStr s => parseISO s
  end.

(** [localeCompare] by code units; this is the order of every locale on
    strings of digits and hyphens of equal length. *)
Definition localeCompare (a b : string) : Z :=
  match String.compare a b with
  | Lt => -1
  | Eq => 0
  | Gt => 1
  end.

(** [toKoMD]: month and day of a YYYY-MM-DD string, as ko-KR prints them. *)
Definition toKoMD (v : value) : string :=
  match v with
  | VStr s =>
      match ('(_, s) ← digits 4 s 0; s ← expect "-"%char s;
             '(m, s) ← digits 2 s 0; s ← expect "-"%char s;
             '(d, _) ← digits 2 s 0; Some (m, d)) with
      | Some (m, d) => pretty m +:+ ". " +:+ pretty d +:+ "."
      | None => "Invalid Date"
      end
  | _ => "Invalid Date"
  end.

End Browser.


(** ** Sample records *)

(** Two measurements of the same instant filed under different days. *)
Definition sameInstant1 : History.obj :=
  {[ "date" := History.VStr "2025-01-01";
     "timestamp" := History.VStr "2025-01-01T15:30:00.000Z";
     "level" := History.VNum 0 ]}.
Definition sameInstant2 : History.obj :=
  {[ "date" := History.VStr "2025-01-02";
     "timestamp" := History.VStr "2025-01-01T15:30:00.000Z";
     "level" := History.VNum 1 ]}.

(** A canvas filled with one opaque colour. *)
Definition uniformImage (r g b : Z) : list Z :=
  concat (repeat [r; g; b; 255%Z] (Z.to_nat (Sampler.W * Sampler.H))).

(** A history that is neither sorted nor free of duplicate dates. *)
Definition tamperedHistory : list History.obj :=
  [ {[ "date" := History.VStr "2025-01-02";
       "timestamp" := History.VStr "2025-01-02T10:00:00.000Z";
       "level" := History.VNum 1 ]};
    {[ "date" := History.VStr "2025-01-01";
       "timestamp" := History.VStr "2025-01-01T09:00:00.000Z";
       "level" := History.VNum 3; "ph" := History.VNum 6 ]};
    {[ "date" := History.VStr "2025-01-02";
       "timestamp" := History.VStr "2025-01-02T08:00:00.000Z";
       "level" := History.VNum 0; "ph" := History.VNum 7 ]} ].

(** * Properties *)

Import JS Color.
Local Open Scope Q_scope.

(** ** The boolean tests against the rational order *)

Lemma ltb_lt x y : ltb x y = true <-> x < y.
Proof.
  unfold ltb. rewrite negb_true_iff. split.
  - intros H. apply Qnot_le_lt. intros Hle.
    apply Qle_bool_iff in Hle. congruence.
  - intros H. destruct (Qle_bool y x) eqn:E; [|reflexivity].
    apply Qle_bool_iff in E. exfalso. exact (Qlt_not_le _ _ H E).
Qed.

Lemma leb_le x y : leb x y = true <-> x <= y.
Proof. apply Qle_bool_iff. Qed.

Lemma geb_ge x y : geb x y = true <-> y <= x.
Proof. apply Qle_bool_iff. Qed.

Lemma gtb_gt x y : gtb x y = true <-> y < x.
Proof. apply ltb_lt. Qed.

Lemma ltb_ge x y : ltb x y = false <-> y <= x.
Proof.
  unfold ltb. rewrite negb_false_iff. apply Qle_bool_iff.
Qed.

Lemma leb_gt x y : leb x y = false <-> y < x.
Proof.
  rewrite <- ltb_lt. unfold ltb, leb.
  destruct (Qle_bool x y); simpl; intuition congruence.
Qed.

Lemma geb_lt x y : geb x y = false <-> x < y.
Proof. apply leb_gt. Qed.

Lemma Math_round_mono x y : x <= y -> Math_round x <= Math_round y.
Proof.
  intros H. unfold Math_round. rewrite <- Zle_Qle.
  apply Qfloor_resp_le. lra.
Qed.

Lemma Math_round_Z (z : Z) : Math_round (inject_Z z) = inject_Z z.
Proof.
  unfold Math_round. f_equal.
  assert (Hz : (z <= Qfloor (inject_Z z + (1 # 2)))%Z).
  { rewrite <- (Qfloor_Z z) at 1. apply Qfloor_resp_le. lra. }
  assert (Hlt : inject_Z (Qfloor (inject_Z z + (1 # 2))) < inject_Z (z + 1)).
  { eapply Qle_lt_trans; [apply Qfloor_le|]. rewrite inject_Z_plus.
    change (inject_Z 1) with 1. lra. }
  rewrite <- Zlt_Qlt in Hlt. lia.
Qed.

Lemma clamp_range v lo hi : lo <= hi -> lo <= clamp v lo hi <= hi.
Proof.
  intros H. unfold clamp, Math_max, Math_min. split.
  - apply Q.le_max_l.
  - apply Q.max_lub; [exact H | apply Q.le_min_l].
Qed.

Lemma clamp_mono v w lo hi : v <= w -> clamp v lo hi <= clamp w lo hi.
Proof.
  intros H. unfold clamp, Math_max, Math_min.
  apply Q.max_le_compat_l, Q.min_le_compat_l, H.
Qed.

Lemma Math_round_ext x y : x == y -> Math_round x = Math_round y.
Proof.
  intros H. unfold Math_round. f_equal. apply Qfloor_comp.
  rewrite H. reflexivity.
Qed.

Lemma clamp_below v lo hi : lo <= hi -> v <= lo -> clamp v lo hi == lo.
Proof.
  intros H Hv. unfold clamp, Math_max, Math_min.
  apply Q.max_l. eapply Qle_trans; [apply Q.le_min_r | exact Hv].
Qed.

Lemma clamp_above v lo hi : lo <= hi -> hi <= v -> clamp v lo hi == hi.
Proof.
  intros H Hv. unfold clamp, Math_max, Math_min.
  rewrite (Q.min_l hi v) by exact Hv. apply Q.max_r, H.
Qed.

Lemma clamp_inside v lo hi : lo <= v -> v <= hi -> clamp v lo hi == v.
Proof.
  intros H1 H2. unfold clamp, Math_max, Math_min.
  rewrite (Q.min_r hi v) by exact H2. apply Q.max_r, H1.
Qed.

Lemma Math_round_ge (z : Z) x : inject_Z z <= x -> inject_Z z <= Math_round x.
Proof.
  intros H. rewrite <- (Math_round_Z z). apply Math_round_mono, H.
Qed.

Lemma Math_round_le (z : Z) x : x <= inject_Z z -> Math_round x <= inject_Z z.
Proof.
  intros H. rewrite <- (Math_round_Z z). apply Math_round_mono, H.
Qed.

Lemma round_clamp_commute x :
  Math_round (clamp x 0 255) == clamp (Math_round x) 0 255.
Proof.
  assert (H0255 : 0 <= 255) by lra.
  destruct (Qlt_le_dec x 0) as [Hneg|Hpos].
  - rewrite (Math_round_ext _ 0) by (apply clamp_below; lra).
    rewrite clamp_below; [reflexivity | exact H0255 |].
    apply (Math_round_le 0). apply Qlt_le_weak, Hneg.
  - destruct (Qlt_le_dec 255 x) as [Hbig|Hsmall].
    + rewrite (Math_round_ext _ 255) by (apply clamp_above; lra).
      rewrite clamp_above; [reflexivity | exact H0255 |].
      apply (Math_round_ge 255). apply Qlt_le_weak, Hbig.
    + rewrite (Math_round_ext _ x) by (apply clamp_inside; assumption).
      symmetry. apply clamp_inside.
      * apply (Math_round_ge 0), Hpos.
      * apply (Math_round_le 255), Hsmall.
Qed.

(** Turn the boolean tests of the source into rational (in)equalities. *)
Ltac js_bool_hyps :=
  repeat match goal with
  | H : (_ && _)%bool = true |- _ => apply andb_true_iff in H; destruct H
  | H : (_ && _)%bool = false |- _ => apply andb_false_iff in H; destruct H
  | H : geb _ _ = true |- _ => apply geb_ge in H
  | H : geb _ _ = false |- _ => apply geb_lt in H
  | H : leb _ _ = true |- _ => apply leb_le in H
  | H : leb _ _ = false |- _ => apply leb_gt in H
  | H : ltb _ _ = true |- _ => apply ltb_lt in H
  | H : ltb _ _ = false |- _ => apply ltb_ge in H
  end.

(** Walk down a chain of [if]s: at each test, close the branch that the
    hypotheses exclude and go on in the other one. *)
Ltac js_walk :=
  repeat match goal with
  | |- context [if ?c then _ else _] =>
      let E := fresh "E" in
      destruct c eqn:E; js_bool_hyps;
      try (exfalso; lra); try reflexivity; try lia
  end.

(** C1. The glucose classifier follows the ordered rules: [h >= 160] gives
    level 0; otherwise [60 <= h <= 140] gives level 1 when [v >= 75] and
    level 2 when not; otherwise [h < 60] gives level 3; what remains,
    [140 < h < 160], gives level 2.  It returns one of the four levels on
    every input, and behaves as stated at the boundaries 160, 140.01,
    159.99, 60 and 59.99. *)
Theorem classifyByHSV_rules (h v : Q) :
  (160 <= h -> classifyByHSV h v = 0%Z) /\
  (60 <= h -> h <= 140 -> 75 <= v -> classifyByHSV h v = 1%Z) /\
  (60 <= h -> h <= 140 -> v < 75 -> classifyByHSV h v = 2%Z) /\
  (h < 60 -> classifyByHSV h v = 3%Z) /\
  (140 < h -> h < 160 -> classifyByHSV h v = 2%Z) /\
  (0 <= classifyByHSV h v <= 3)%Z /\
  classifyByHSV 160 v = 0%Z /\
  classifyByHSV (14001 # 100) v = 2%Z /\
  classifyByHSV (15999 # 100) v = 2%Z /\
  (75 <= v -> classifyByHSV 60 v = 1%Z) /\
  (v < 75 -> classifyByHSV 60 v = 2%Z) /\
  classifyByHSV (5999 # 100) v = 3%Z.
Proof.
  repeat split; try intros; unfold classifyByHSV; js_walk.
Qed.

(** C2. The pH classifier always returns a result record.  Its guards run
    in order: [v < 25] gives no pH and the "too dark" label; otherwise
    [s < 8] gives no pH and the "too desaturated" label; otherwise the pH
    is read off the hue bands [20,45) -> 5, [45,58) -> 6, [58,80) -> 7,
    [80,150) -> 8, [150,190] -> 9, with [h < 20] -> 5 and [h > 190] -> 9
    (both labelled as estimates).  So the pH is absent exactly when
    [v < 25] or [s < 8]; the boundary cases of the specification follow. *)
Theorem classifyPHByHSV_rules (h s v : Q) :
  (v < 25 ->
     classifyPHByHSV h s v = mkPH None "조도가 너무 낮아 측정 불가") /\
  (25 <= v -> s < 8 ->
     classifyPHByHSV h s v = mkPH None "채도가 너무 낮아 측정 불가") /\
  (25 <= v -> 8 <= s ->
     (20 <= h -> h < 45 ->
        classifyPHByHSV h s v = mkPH (Some 5%Z) "pH 5 (오렌지)") /\
     (45 <= h -> h < 58 ->
        classifyPHByHSV h s v = mkPH (Some 6%Z) "pH 6 (노랑)") /\
     (58 <= h -> h < 80 ->
        classifyPHByHSV h s v = mkPH (Some 7%Z) "pH 7 (황록)") /\
     (80 <= h -> h < 150 ->
        classifyPHByHSV h s v = mkPH (Some 8%Z) "pH 8 (녹색)") /\
     (150 <= h -> h <= 190 ->
        classifyPHByHSV h s v = mkPH (Some 9%Z) "pH 9 (청록)") /\
     (h < 20 ->
        classifyPHByHSV h s v = mkPH (Some 5%Z) "pH 5 (추정)") /\
     (190 < h ->
        classifyPHByHSV h s v = mkPH (Some 9%Z) "pH 9 (추정)")) /\
  (ph (classifyPHByHSV h s v) = None <-> v < 25 \/ s < 8) /\
  ph (classifyPHByHSV h s (249 # 10)) = None /\
  ph (classifyPHByHSV h (79 # 10) 25) = None /\
  (25 <= v -> 8 <= s -> ph (classifyPHByHSV (449 # 10) s v) = Some 5%Z) /\
  (25 <= v -> 8 <= s -> ph (classifyPHByHSV 45 s v) = Some 6%Z).
Proof.
  assert (Hdark : forall h s v, v < 25 ->
            classifyPHByHSV h s v = mkPH None "조도가 너무 낮아 측정 불가").
  { intros; unfold classifyPHByHSV; js_walk. }
  assert (Hdesat : forall h s v, 25 <= v -> s < 8 ->
            classifyPHByHSV h s v = mkPH None "채도가 너무 낮아 측정 불가").
  { intros; unfold classifyPHByHSV; js_walk. }
  assert (Hband : forall h s v, 25 <= v -> 8 <= s ->
            ph (classifyPHByHSV h s v) <> None).
  { intros; unfold classifyPHByHSV; js_walk; cbn [ph]; discriminate. }
  split; [|split; [|split; [|split; [|split; [|split; [|split]]]]]].
  - apply Hdark.
  - apply Hdesat.
  - intros Hv Hs.
    repeat split; intros; unfold classifyPHByHSV; js_walk.
  - split.
    + intros Hnone.
      destruct (Qlt_le_dec v 25) as [Hv|Hv]; [left; exact Hv|].
      destruct (Qlt_le_dec s 8) as [Hs|Hs]; [right; exact Hs|].
      exfalso. exact (Hband h s v Hv Hs Hnone).
    + intros [Hv|Hs].
      * rewrite Hdark by exact Hv. reflexivity.
      * destruct (Qlt_le_dec v 25) as [Hv|Hv].
        -- rewrite Hdark by exact Hv. reflexivity.
        -- rewrite Hdesat by assumption. reflexivity.
  - rewrite Hdark by reflexivity. reflexivity.
  - rewrite Hdesat; [reflexivity | discriminate | reflexivity].
  - intros; unfold classifyPHByHSV; js_walk.
  - intros; unfold classifyPHByHSV; js_walk.
Qed.

(** ** Binary64 rounding *)

Lemma pow2_pos e : 0 < pow2 e.
Proof. apply Qpower_0_lt. reflexivity. Qed.

Lemma pow2_add a b : pow2 (a + b) == pow2 a * pow2 b.
Proof. apply Qpower_plus. discriminate. Qed.

Lemma pow2_le a b : (a <= b)%Z -> pow2 a <= pow2 b.
Proof. intros H. apply Qpower_le_compat_l; [exact H | discriminate]. Qed.

Lemma pow2_lt a b : (a < b)%Z -> pow2 a < pow2 b.
Proof. intros H. apply Qpower_lt_compat_l; [exact H | reflexivity]. Qed.

Lemma pow2_lt_inv a b : pow2 a < pow2 b -> (a < b)%Z.
Proof. intros H. apply (Qpower_lt_compat_l_inv 2); [exact H | reflexivity]. Qed.

Lemma pow2_Z n : (0 <= n)%Z -> pow2 n == inject_Z (2 ^ n).
Proof. intros H. unfold pow2. rewrite Zpower_Qpower by exact H. reflexivity. Qed.

Lemma pow2_opp n : pow2 (- n) == / pow2 n.
Proof. apply Qpower_opp. Qed.

Lemma Qinv_as_div a : / a == 1 / a.
Proof. unfold Qdiv. ring. Qed.

Lemma Qinv_gt_1 a : 0 < a -> a < 1 -> 1 < / a.
Proof.
  intros H0 H1. rewrite Qinv_as_div.
  apply Qlt_shift_div_l; [exact H0 | lra].
Qed.

Lemma ilog2_spec a : 0 < a -> pow2 (ilog2 a) <= a /\ a < pow2 (ilog2 a + 1).
Proof.
  intros Ha. unfold ilog2. destruct (Qle_bool 1 a) eqn:E.
  - apply Qle_bool_iff in E.
    pose proof (Qfloor_le a) as Hlo. pose proof (Qlt_floor a) as Hhi.
    assert (Hf : (1 <= Qfloor a)%Z).
    { change 1%Z with (Qfloor 1). apply Qfloor_resp_le, E. }
    destruct (Z.log2_spec (Qfloor a)) as [H1 H2]; [lia|].
    pose proof (Z.log2_nonneg (Qfloor a)) as Hk.
    rewrite !pow2_Z by lia. split.
    + apply Qle_trans with (inject_Z (Qfloor a)); [|exact Hlo].
      rewrite <- Zle_Qle. exact H1.
    + apply Qlt_le_trans with (inject_Z (Qfloor a + 1)); [exact Hhi|].
      rewrite <- Zle_Qle.
      replace (Z.log2 (Qfloor a) + 1)%Z with (Z.succ (Z.log2 (Qfloor a))) by lia.
      lia.
  - assert (E' : a < 1).
    { apply Qnot_le_lt. intros H. apply Qle_bool_iff in H. congruence. }
    pose proof (Qinv_gt_1 a Ha E') as Hy.
    pose proof (Qle_ceiling (/ a)) as Hhi.
    pose proof (Qceiling_lt (/ a)) as Hlo.
    assert (Hc : (1 < Qceiling (/ a))%Z).
    { rewrite Zlt_Qlt. apply Qlt_le_trans with (/ a); assumption. }
    destruct (Z.log2_up_spec (Qceiling (/ a)) Hc) as [H1 H2].
    pose proof (Z.log2_up_pos (Qceiling (/ a)) Hc) as Hk.
    set (k := Z.log2_up (Qceiling (/ a))) in *.
    assert (Hinv : a * / a == 1)
      by (apply Qmult_inv_r, Qnot_eq_sym, Qlt_not_eq, Ha).
    split.
    + rewrite pow2_opp.
      rewrite Qinv_as_div.
      apply Qle_shift_div_r; [apply pow2_pos|].
      assert (Hyk : / a <= pow2 k).
      { rewrite pow2_Z by lia.
        apply Qle_trans with (inject_Z (Qceiling (/ a))); [exact Hhi|].
        rewrite <- Zle_Qle. exact H2. }
      rewrite <- Hinv. apply Qmult_le_l; [exact Ha | exact Hyk].
    + replace (- k + 1)%Z with (- (k - 1))%Z by lia. rewrite pow2_opp.
      rewrite Qinv_as_div.
      apply Qlt_shift_div_l; [apply pow2_pos|].
      assert (Hyk : pow2 (k - 1) < / a).
      { rewrite pow2_Z by lia.
        apply Qle_lt_trans with (inject_Z (Qceiling (/ a) - 1)); [|exact Hlo].
        rewrite <- Zle_Qle. replace (k - 1)%Z with (Z.pred k) by lia. lia. }
      rewrite <- Hinv. apply Qmult_lt_l; [exact Ha | exact Hyk].
Qed.

Lemma ilog2_mono a b : 0 < a -> a <= b -> (ilog2 a <= ilog2 b)%Z.
Proof.
  intros Ha Hab.
  destruct (ilog2_spec a Ha) as [H1 _].
  destruct (ilog2_spec b) as [_ H2]; [lra|].
  assert (H : pow2 (ilog2 a) < pow2 (ilog2 b + 1)) by lra.
  apply pow2_lt_inv in H. lia.
Qed.

Lemma nearest_even_bounds t :
  inject_Z (nearest_even t) - (1 # 2) <= t /\
  t <= inject_Z (nearest_even t) + (1 # 2).
Proof.
  unfold nearest_even.
  pose proof (Qfloor_le t) as Hlo. pose proof (Qlt_floor t) as Hhi.
  rewrite inject_Z_plus in Hhi. change (inject_Z 1) with 1 in Hhi.
  destruct (Qcompare_spec (t - inject_Z (Qfloor t)) (1 # 2)) as [H|H|H].
  - destruct (Z.even (Qfloor t)).
    + lra.
    + rewrite inject_Z_plus. change (inject_Z 1) with 1. lra.
  - lra.
  - rewrite inject_Z_plus. change (inject_Z 1) with 1. lra.
Qed.

Lemma nearest_even_Z z : nearest_even (inject_Z z) = z.
Proof.
  unfold nearest_even. rewrite Qfloor_Z.
  destruct (Qcompare_spec (inject_Z z - inject_Z z) (1 # 2)) as [H|H|H];
    [lra | reflexivity | lra].
Qed.

Lemma nearest_even_comp t t' : t == t' -> nearest_even t = nearest_even t'.
Proof.
  intros H. unfold nearest_even. rewrite (Qfloor_comp _ _ H).
  assert (E : t - inject_Z (Qfloor t') == t' - inject_Z (Qfloor t'))
    by (rewrite H; reflexivity).
  rewrite (Qcompare_comp _ _ E _ _ (Qeq_refl (1 # 2))). reflexivity.
Qed.

Lemma nearest_even_mono t t' : t <= t' -> (nearest_even t <= nearest_even t')%Z.
Proof.
  intros Htt.
  pose proof (Qfloor_resp_le _ _ Htt) as Hf.
  assert (Hle : forall s, (Qfloor s <= nearest_even s <= Qfloor s + 1)%Z).
  { intros s. unfold nearest_even.
    destruct (Qcompare _ _); [destruct (Z.even _)| |]; lia. }
  destruct (Z.eq_dec (Qfloor t) (Qfloor t')) as [E|E].
  - unfold nearest_even. rewrite <- E.
    destruct (Qcompare_spec (t - inject_Z (Qfloor t)) (1 # 2)) as [H|H|H];
      destruct (Qcompare_spec (t' - inject_Z (Qfloor t)) (1 # 2)) as [H'|H'|H'];
      try destruct (Z.even (Qfloor t)); try lia; lra.
  - pose proof (Hle t). pose proof (Hle t'). lia.
Qed.

Lemma exponent_mono a b : 0 < a -> a <= b -> (exponent a <= exponent b)%Z.
Proof.
  intros Ha Hab. pose proof (ilog2_mono a b Ha Hab). unfold exponent. lia.
Qed.

Lemma scaled_lt a : 0 < a -> a / pow2 (exponent a) < inject_Z (2 ^ 53).
Proof.
  intros Ha. destruct (ilog2_spec a Ha) as [_ Hhi].
  apply Qlt_shift_div_r; [apply pow2_pos|].
  rewrite <- pow2_Z by lia. rewrite <- pow2_add.
  apply Qlt_le_trans with (pow2 (ilog2 a + 1)); [exact Hhi|].
  apply pow2_le. unfold exponent. lia.
Qed.

Lemma scaled_ge a :
  0 < a -> (-1074 < exponent a)%Z ->
  inject_Z (2 ^ 52) <= a / pow2 (exponent a).
Proof.
  intros Ha He. destruct (ilog2_spec a Ha) as [Hlo _].
  apply Qle_shift_div_l; [apply pow2_pos|].
  rewrite <- pow2_Z by lia. rewrite <- pow2_add.
  apply Qle_trans with (pow2 (ilog2 a)); [|exact Hlo].
  apply pow2_le. unfold exponent in *. lia.
Qed.

Lemma round_pos_nonneg a : 0 < a -> 0 <= round_pos a.
Proof.
  intros Ha. unfold round_pos. apply Qmult_le_0_compat.
  - change 0 with (inject_Z 0). rewrite <- Zle_Qle.
    rewrite <- (nearest_even_Z 0). apply nearest_even_mono.
    change (inject_Z 0) with 0. apply Qle_shift_div_l; [apply pow2_pos|]. lra.
  - apply Qlt_le_weak, pow2_pos.
Qed.

Lemma round_pos_mono a b : 0 < a -> a <= b -> round_pos a <= round_pos b.
Proof.
  intros Ha Hab. assert (Hb : 0 < b) by lra.
  pose proof (exponent_mono a b Ha Hab) as He.
  unfold round_pos.
  destruct (Z.eq_dec (exponent a) (exponent b)) as [E|E].
  - rewrite E. apply Qmult_le_compat_r; [|apply Qlt_le_weak, pow2_pos].
    rewrite <- Zle_Qle. apply nearest_even_mono.
    apply Qmult_le_compat_r; [exact Hab|].
    apply Qlt_le_weak, Qinv_lt_0_compat, pow2_pos.
  - apply Qle_trans with (inject_Z (2 ^ 53) * pow2 (exponent a)).
    + apply Qmult_le_compat_r; [|apply Qlt_le_weak, pow2_pos].
      rewrite <- Zle_Qle. rewrite <- (nearest_even_Z (2 ^ 53)).
      apply nearest_even_mono, Qlt_le_weak, scaled_lt, Ha.
    + apply Qle_trans with (inject_Z (2 ^ 52) * pow2 (exponent b)).
      * rewrite <- !pow2_Z by lia. rewrite <- !pow2_add.
        apply pow2_le. lia.
      * apply Qmult_le_compat_r; [|apply Qlt_le_weak, pow2_pos].
        rewrite <- Zle_Qle. rewrite <- (nearest_even_Z (2 ^ 52)).
        apply nearest_even_mono, scaled_ge; [exact Hb|].
        unfold exponent in *. lia.
Qed.

Lemma half_spacing a : 0 < a -> pow2 (exponent a) * (1 # 2) <= ulp_half * a + eta.
Proof.
  intros Ha. destruct (ilog2_spec a Ha) as [Hlo _].
  pose proof (pow2_pos (-53)) as Hu. pose proof (pow2_pos (-1075)) as Heta.
  unfold ulp_half, eta, exponent.
  destruct (Z.max_spec (ilog2 a - 52) (-1074)) as [[_ ->]|[_ ->]].
  - assert (E : pow2 (-1074) * (1 # 2) == pow2 (-1075))
      by (vm_compute; reflexivity).
    rewrite E.
    assert (0 <= pow2 (-53) * a) by (apply Qmult_le_0_compat; lra). lra.
  - replace (ilog2 a - 52)%Z with (ilog2 a + -52)%Z by lia.
    rewrite pow2_add.
    assert (E : pow2 (-52) * (1 # 2) == pow2 (-53)) by (vm_compute; reflexivity).
    rewrite <- Qmult_assoc, E.
    assert (pow2 (ilog2 a) * pow2 (-53) <= a * pow2 (-53))
      by (apply Qmult_le_compat_r; lra).
    lra.
Qed.

Lemma round_pos_err a :
  0 < a ->
  a - (ulp_half * a + eta) <= round_pos a /\
  round_pos a <= a + (ulp_half * a + eta).
Proof.
  intros Ha. pose proof (half_spacing a Ha) as Hs.
  pose proof (pow2_pos (exponent a)) as HP.
  destruct (nearest_even_bounds (a / pow2 (exponent a))) as [Hlo Hhi].
  unfold round_pos.
  set (P := pow2 (exponent a)) in *.
  set (m := inject_Z (nearest_even (a / P))) in *.
  assert (Ea : a / P * P == a) by (field; lra).
  apply (Qmult_le_compat_r _ _ P) in Hlo; [|lra].
  apply (Qmult_le_compat_r _ _ P) in Hhi; [|lra].
  rewrite Ea in Hlo, Hhi.
  assert (E1 : (m - (1 # 2)) * P == m * P - P * (1 # 2)) by ring.
  assert (E2 : (m + (1 # 2)) * P == m * P + P * (1 # 2)) by ring.
  rewrite E1 in Hlo. rewrite E2 in Hhi. lra.
Qed.


Lemma ilog2_comp a b : a == b -> ilog2 a = ilog2 b.
Proof.
  intros H. unfold ilog2. rewrite (Qfloor_comp _ _ H).
  assert (Hi : / a == / b) by (rewrite H; reflexivity).
  rewrite (Qceiling_comp _ _ Hi).
  destruct (Qle_bool 1 a) eqn:Ea, (Qle_bool 1 b) eqn:Eb; try reflexivity;
    exfalso.
  - apply Qle_bool_iff in Ea. rewrite H in Ea. apply Qle_bool_iff in Ea.
    congruence.
  - apply Qle_bool_iff in Eb. rewrite <- H in Eb. apply Qle_bool_iff in Eb.
    congruence.
Qed.

Lemma round_pos_comp a b : a == b -> round_pos a = round_pos b.
Proof.
  intros H. unfold round_pos, exponent. rewrite (ilog2_comp _ _ H).
  set (P := pow2 _).
  assert (Et : a / P == b / P) by (rewrite H; reflexivity).
  rewrite (nearest_even_comp _ _ Et). reflexivity.
Qed.

Lemma double_comp x y : x == y -> double x = double y.
Proof. intros H. unfold double. rewrite (Qred_complete x y H). reflexivity. Qed.

Lemma double_pos x : 0 < x -> double x = round_pos x.
Proof.
  intros H. unfold double.
  destruct (Qcompare_spec (Qred x) 0) as [E|E|E];
    rewrite Qred_correct in E; [lra | lra |].
  apply round_pos_comp, Qred_correct.
Qed.

Lemma double_neg x : x < 0 -> double x = - round_pos (- x).
Proof.
  intros H. unfold double.
  destruct (Qcompare_spec (Qred x) 0) as [E|E|E];
    rewrite Qred_correct in E; [lra | | lra].
  f_equal. apply round_pos_comp. rewrite Qred_correct. reflexivity.
Qed.

Lemma double_zero x : x == 0 -> double x = 0.
Proof.
  intros H. unfold double.
  destruct (Qcompare_spec (Qred x) 0) as [E|E|E];
    rewrite Qred_correct in E; [reflexivity | lra | lra].
Qed.

Lemma double_nonneg x : 0 <= x -> 0 <= double x.
Proof.
  intros H. destruct (Qlt_le_dec 0 x) as [Hx|Hx].
  - rewrite double_pos by exact Hx. apply round_pos_nonneg, Hx.
  - rewrite double_zero by lra. lra.
Qed.

Lemma double_nonpos x : x <= 0 -> double x <= 0.
Proof.
  intros H. destruct (Qlt_le_dec x 0) as [Hx|Hx].
  - rewrite double_neg by exact Hx.
    assert (0 <= round_pos (- x)) by (apply round_pos_nonneg; lra).
    lra.
  - rewrite double_zero by lra. lra.
Qed.

(** Rounding to nearest is monotone. *)
Lemma double_mono x y : x <= y -> double x <= double y.
Proof.
  intros Hxy. destruct (Qlt_le_dec 0 x) as [Hx|Hx].
  - rewrite (double_pos x), (double_pos y) by lra.
    apply round_pos_mono; assumption.
  - destruct (Qlt_le_dec y 0) as [Hy|Hy].
    + rewrite (double_neg x), (double_neg y) by lra.
      apply Qopp_le_compat. apply round_pos_mono; lra.
    + apply Qle_trans with 0; [apply double_nonpos | apply double_nonneg];
        assumption.
Qed.


(** The rounding error of a non-negative number. *)
Lemma double_err x :
  0 <= x ->
  x - (ulp_half * x + eta) <= double x /\ double x <= x + (ulp_half * x + eta).
Proof.
  intros H. destruct (Qlt_le_dec 0 x) as [Hx|Hx].
  - rewrite double_pos by exact Hx. apply round_pos_err, Hx.
  - rewrite double_zero by lra.
    assert (E : x == 0) by lra. rewrite E.
    pose proof (pow2_pos (-1075)). unfold eta.
    assert (E0 : ulp_half * 0 == 0) by ring. rewrite E0. lra.
Qed.

(** Some roundings: the double of 0.1; a tie between two doubles goes to
    the even significand; half the smallest positive double goes to 0 and
    anything above it to the smallest positive double. *)
Example double_tenth :
  double (1 # 10) == 3602879701896397 # 36028797018963968.
Proof. vm_compute. reflexivity. Qed.

Example double_tie_to_even :
  double (inject_Z (2 ^ 53 + 1)) == inject_Z (2 ^ 53) /\
  double (inject_Z (2 ^ 53 + 3)) == inject_Z (2 ^ 53 + 4).
Proof. split; vm_compute; reflexivity. Qed.

Example double_underflow :
  double (pow2 (-1075)) == 0 /\ double (3 * pow2 (-1076)) == pow2 (-1074).
Proof. split; vm_compute; reflexivity. Qed.

Lemma ulp_half_value : ulp_half == 1 # 9007199254740992.
Proof. vm_compute. reflexivity. Qed.

Lemma eta_small : 0 < eta /\ eta <= 1 # 1267650600228229401496703205376.
Proof.
  split; [apply pow2_pos|]. unfold eta.
  apply Qle_trans with (pow2 (-100)); [apply pow2_le; lia|].
  vm_compute. discriminate.
Qed.

(** The relative error of rounding a number that is not small. *)
Lemma double_between (L X R : Q) :
  1 # 2 <= L -> L <= X -> X <= R ->
  (1 - (1 # 4503599627370496)) * L <= double X /\
  double X <= (1 + (1 # 4503599627370496)) * R.
Proof.
  intros HL HLX HXR.
  destruct (double_err X) as [Hlo Hhi]; [lra|].
  rewrite ulp_half_value in Hlo, Hhi.
  destruct eta_small as [He0 He1]. split; lra.
Qed.

Lemma fmul_comp x x' y y' : x == x' -> y == y' -> fmul x y = fmul x' y'.
Proof. intros Hx Hy. apply double_comp. rewrite Hx, Hy. reflexivity. Qed.

Lemma fadd_comp x x' y y' : x == x' -> y == y' -> fadd x y = fadd x' y'.
Proof. intros Hx Hy. apply double_comp. rewrite Hx, Hy. reflexivity. Qed.

Lemma Qmult_le_compat_both a b c d :
  0 <= a -> a <= b -> 0 <= c -> c <= d -> a * c <= b * d.
Proof.
  intros Ha Hab Hc Hcd. apply Qle_trans with (b * c).
  - apply Qmult_le_compat_r; assumption.
  - rewrite !(Qmult_comm b). apply Qmult_le_compat_r; lra.
Qed.

Lemma fmul_mono x x' y y' :
  0 <= x -> x <= x' -> 0 <= y -> y <= y' -> fmul x y <= fmul x' y'.
Proof. intros. apply double_mono, Qmult_le_compat_both; assumption. Qed.

Lemma fadd_mono x x' y y' : x <= x' -> y <= y' -> fadd x y <= fadd x' y'.
Proof. intros. apply double_mono. lra. Qed.

Lemma fmul_nonneg x y : 0 <= x -> 0 <= y -> 0 <= fmul x y.
Proof. intros. apply double_nonneg, Qmult_le_0_compat; assumption. Qed.

(** The product of two approximations, rounded. *)
Lemma fmul_between (LX X RX LY Y RY : Q) :
  LX <= X -> X <= RX -> LY <= Y -> Y <= RY -> 0 <= LX -> 0 <= LY ->
  1 # 2 <= LX * LY ->
  (1 - (1 # 4503599627370496)) * (LX * LY) <= fmul X Y /\
  fmul X Y <= (1 + (1 # 4503599627370496)) * (RX * RY).
Proof.
  intros H2 H3 H5 H6 H1 H4 H7. apply double_between; [exact H7| |].
  - apply Qmult_le_compat_both; assumption.
  - apply Qmult_le_compat_both; lra.
Qed.

Lemma Qfloor_unique (y : Q) (z : Z) :
  inject_Z z <= y -> y < inject_Z (z + 1) -> Qfloor y = z.
Proof.
  intros Hlo Hhi.
  pose proof (Qfloor_le y) as H1. pose proof (Qlt_floor y) as H2.
  assert (inject_Z z < inject_Z (Qfloor y + 1)) as H3 by lra.
  assert (inject_Z (Qfloor y) < inject_Z (z + 1)) as H4 by lra.
  rewrite <- Zlt_Qlt in H3, H4. lia.
Qed.

Lemma Math_round_shift (x : Q) (k : Z) :
  Math_round (x + inject_Z k) == Math_round x + inject_Z k.
Proof.
  unfold Math_round. rewrite <- inject_Z_plus.
  rewrite (Qfloor_unique (x + inject_Z k + (1 # 2)) (Qfloor (x + (1 # 2)) + k));
    [reflexivity | |].
  - pose proof (Qfloor_le (x + (1 # 2))). rewrite inject_Z_plus. lra.
  - pose proof (Qlt_floor (x + (1 # 2))) as H.
    rewrite !inject_Z_plus in *. lra.
Qed.

Lemma clamp_le_self v lo hi : lo <= v -> clamp v lo hi <= v.
Proof.
  intros H. unfold clamp, Math_max, Math_min.
  apply Q.max_lub; [exact H | apply Q.le_min_r].
Qed.

Lemma clamp_ge_self v lo hi : v <= hi -> v <= clamp v lo hi.
Proof.
  intros H. unfold clamp, Math_max, Math_min.
  eapply Qle_trans; [|apply Q.le_max_r]. apply Q.min_glb; lra.
Qed.

Lemma clamp_shift (v lo hi : Q) :
  lo <= hi ->
  clamp v lo hi - 1 <= clamp (v - 1) lo hi /\
  clamp (v + 1) lo hi <= clamp v lo hi + 1.
Proof.
  intros Hle.
  destruct (clamp_range v lo hi Hle) as [A1 A2].
  destruct (clamp_range (v - 1) lo hi Hle) as [B1 B2].
  destruct (clamp_range (v + 1) lo hi Hle) as [C1 C2].
  split.
  - destruct (Qlt_le_dec v lo) as [H|H].
    + rewrite (clamp_below v) by lra. lra.
    + destruct (Qlt_le_dec hi (v - 1)) as [H'|H'].
      * rewrite (clamp_above (v - 1)) by lra. lra.
      * pose proof (clamp_le_self v lo hi H).
        pose proof (clamp_ge_self (v - 1) lo hi H'). lra.
  - destruct (Qlt_le_dec hi v) as [H|H].
    + rewrite (clamp_above v) by lra. lra.
    + destruct (Qlt_le_dec (v + 1) lo) as [H'|H'].
      * rewrite (clamp_below (v + 1)) by lra. lra.
      * pose proof (clamp_ge_self v lo hi H).
        pose proof (clamp_le_self (v + 1) lo hi H'). lra.
Qed.

Lemma Qmult_ge_1 a b : 1 <= a -> 1 <= b -> 1 <= a * b.
Proof.
  intros Ha Hb. apply Qle_trans with (1 * 1); [discriminate|].
  apply Qmult_le_compat_both; lra.
Qed.

Lemma double_err_lit x :
  0 <= x ->
  x - ((1 # 9007199254740992) * x + eta) <= double x /\
  double x <= x + ((1 # 9007199254740992) * x + eta).
Proof.
  intros H. destruct (double_err x H) as [Hlo Hhi].
  rewrite ulp_half_value in Hlo, Hhi. split; assumption.
Qed.

(** ** The context adjuster *)

Lemma double_1 : double 1 == 1.
Proof. vm_compute. reflexivity. Qed.

(** The time and meal factors of the source are those of the
    specification, rounded. *)
Lemma applyContextFactors_unfold b c :
  applyContextFactors b c =
  clamp (Math_round
           (fmul (fmul (fmul b (double (ContextSpec.timeFactor (hour c))))
                       (double (ContextSpec.mealFactor (afterMealMin c))))
                 (fadd (fadd 1 (fmul (waterMl c) WEIGHTS.waterPer500ml))
                       (fmul (elapsedMin c) WEIGHTS.elapsedPerMin)))) 0 255.
Proof.
  unfold applyContextFactors, ContextSpec.timeFactor, ContextSpec.mealFactor,
    geb, leb, ltb.
  set (D := fadd _ _).
  assert (E1 : forall x, fmul x 1 = fmul x (double 1))
    by (intros x; apply fmul_comp; [reflexivity | symmetry; apply double_1]).
  destruct (Qle_bool 0 (hour c) && Qle_bool (hour c) 6)%bool;
    destruct (Qle_bool 22 (hour c));
    destruct (Qle_bool 60 (afterMealMin c)); cbn [negb];
    rewrite ?E1; reflexivity.
Qed.

Lemma timeFactor_cases x :
  ContextSpec.timeFactor x = 12 # 10 \/ ContextSpec.timeFactor x = 11 # 10 \/
  ContextSpec.timeFactor x = 1.
Proof.
  unfold ContextSpec.timeFactor.
  destruct (_ && _)%bool; [auto|]. destruct (Qle_bool 22 x); auto.
Qed.

Lemma mealFactor_cases x :
  ContextSpec.mealFactor x = 12 # 10 \/ ContextSpec.mealFactor x = 1.
Proof. unfold ContextSpec.mealFactor. destruct (Qle_bool 60 x); auto. Qed.

Lemma timeFactor_ge_1 x : 1 <= ContextSpec.timeFactor x.
Proof. destruct (timeFactor_cases x) as [->|[->| ->]]; discriminate. Qed.

Lemma mealFactor_ge_1 x : 1 <= ContextSpec.mealFactor x.
Proof. destruct (mealFactor_cases x) as [->| ->]; discriminate. Qed.

Lemma timeFactor_double_ge_1 x : 1 <= double (ContextSpec.timeFactor x).
Proof.
  destruct (timeFactor_cases x) as [->|[->| ->]]; vm_compute; discriminate.
Qed.

Lemma mealFactor_double_ge_1 x : 1 <= double (ContextSpec.mealFactor x).
Proof.
  destruct (mealFactor_cases x) as [->| ->]; vm_compute; discriminate.
Qed.

Lemma weights_nonneg :
  0 <= WEIGHTS.waterPer500ml /\ 0 <= WEIGHTS.elapsedPerMin.
Proof. split; vm_compute; discriminate. Qed.

Lemma weights_value :
  WEIGHTS.waterPer500ml == 1152921504606847 # 576460752303423488 /\
  WEIGHTS.elapsedPerMin == 4803839602528529 # 288230376151711744.
Proof. split; vm_compute; reflexivity. Qed.

(** The dilution factor of the source is the one of the specification up
    to five roundings. *)
Lemma dilution_near (w e : Q) :
  0 <= w -> 0 <= e ->
  let d := ContextSpec.dilutionFactor w e in
  let D := fadd (fadd 1 (fmul w WEIGHTS.waterPer500ml))
                (fmul e WEIGHTS.elapsedPerMin) in
  (1 - (5 # 9007199254740992)) * d <= D /\
  D <= (1 + (5 # 9007199254740992)) * d /\ 1 <= d.
Proof.
  intros Hw He. cbv zeta. unfold ContextSpec.dilutionFactor, fadd, fmul, Qdiv.
  change (/ 500) with (1 # 500). change (/ 60) with (1 # 60).
  destruct weights_value as [E500 E60]. destruct eta_small as [He0 He1].
  assert (Ea1 : w * WEIGHTS.waterPer500ml
                == w * (1152921504606847 # 576460752303423488))
    by (rewrite E500; reflexivity).
  assert (Ea2 : e * WEIGHTS.elapsedPerMin
                == e * (4803839602528529 # 288230376151711744))
    by (rewrite E60; reflexivity).
  set (a1 := w * WEIGHTS.waterPer500ml) in *.
  set (a2 := e * WEIGHTS.elapsedPerMin) in *.
  destruct (double_err_lit a1) as [L1 R1]; [lra|].
  destruct (double_err_lit a2) as [L2 R2]; [lra|].
  set (t1 := double a1) in *. set (t2 := double a2) in *.
  destruct (double_err_lit (1 + t1)) as [L3 R3]; [lra|].
  set (s1 := double (1 + t1)) in *.
  destruct (double_err_lit (s1 + t2)) as [L4 R4]; [lra|].
  set (s2 := double (s1 + t2)) in *.
  split; [lra|]. split; lra.
Qed.

(** The product of the source is the product of the specification up to
    a relative error of [2^-49]. *)
Lemma product_near (b : Z) (h m w e : Q) :
  (1 <= b)%Z -> 0 <= w -> 0 <= e ->
  let x := inject_Z b * ContextSpec.timeFactor h * ContextSpec.mealFactor m
           * ContextSpec.dilutionFactor w e in
  let P := fmul (fmul (fmul (inject_Z b) (double (ContextSpec.timeFactor h)))
                      (double (ContextSpec.mealFactor m)))
                (fadd (fadd 1 (fmul w WEIGHTS.waterPer500ml))
                      (fmul e WEIGHTS.elapsedPerMin)) in
  (1 - (1 # 562949953421312)) * x <= P /\
  P <= (1 + (1 # 562949953421312)) * x /\ 1 <= x.
Proof.
  intros Hb Hw He. cbv zeta.
  destruct (dilution_near w e Hw He) as (DL & DR & Hd). cbv zeta in DL, DR.
  pose proof (timeFactor_ge_1 h) as Ht. pose proof (mealFactor_ge_1 m) as Hm.
  assert (HB : 1 <= inject_Z b)
    by (change 1 with (inject_Z 1); rewrite <- Zle_Qle; exact Hb).
  set (d := ContextSpec.dilutionFactor w e) in *. set (D := fadd _ _) in *.
  set (t := ContextSpec.timeFactor h) in *.
  set (mm := ContextSpec.mealFactor m) in *.
  set (B := inject_Z b) in *.
  clearbody d D t mm B.
  destruct (double_between t t t) as [TL TR]; [lra..|].
  destruct (double_between mm mm mm) as [ML MR]; [lra..|].
  pose proof (Qmult_ge_1 B t HB Ht) as H1.
  pose proof (Qmult_ge_1 (B * t) mm H1 Hm) as H2.
  pose proof (Qmult_ge_1 (B * t * mm) d H2 Hd) as H3.
  destruct (fmul_between _ _ _ _ _ _ (Qle_refl B) (Qle_refl B) TL TR)
    as [P1L P1R]; [lra | lra | lra |].
  set (p1 := fmul B (double t)) in *. clearbody p1.
  destruct (fmul_between _ _ _ _ _ _ P1L P1R ML MR)
    as [P2L P2R]; [lra | lra | lra |].
  set (p2 := fmul p1 (double mm)) in *. clearbody p2.
  destruct (fmul_between _ _ _ _ _ _ P2L P2R DL DR)
    as [P3L P3R]; [lra | lra | lra |].
  split; [lra|]. split; lra.
Qed.



Lemma fmul_zero_l y : fmul 0 y = 0.
Proof. apply double_zero. ring. Qed.

Lemma Qabs_far (y delta : Q) :
  delta <= Qabs y -> y <= - delta \/ delta <= y.
Proof.
  intros H. destruct (Qlt_le_dec y 0) as [Hy|Hy].
  - left. rewrite Qabs_neg in H by lra. lra.
  - right. rewrite Qabs_pos in H by lra. lra.
Qed.

(** C5. The context adjuster returns [clamp (round P) 0 255] where [P] is
    the product of [b], the time factor, the meal factor and the dilution
    factor of the specification computed in doubles, every literal and
    every operation rounded.  So its result is not always the
    [round (clamp (b * timeFactor * mealFactor * dilutionFactor) 0 255)] of
    the specification.  For a whole [b] in [0,255] and non-negative water
    and elapsed time the two differ by at most 1, and they are equal when
    the exact product is at least [2^-40] away from every half-integer
    [k + 1/2], the numbers at which the rounding turns. *)
Theorem applyContextFactors_near_spec
    (b : Z) (hourOfDay afterMealMinutes waterMl elapsedMinutes : Q) :
  (0 <= b <= 255)%Z -> 0 <= waterMl -> 0 <= elapsedMinutes ->
  let x := inject_Z b * ContextSpec.timeFactor hourOfDay
           * ContextSpec.mealFactor afterMealMinutes
           * ContextSpec.dilutionFactor waterMl elapsedMinutes in
  let r := applyContextFactors (inject_Z b)
             (mkContext hourOfDay afterMealMinutes waterMl elapsedMinutes) in
  let s := ContextSpec.adjusted (inject_Z b) hourOfDay afterMealMinutes
             waterMl elapsedMinutes in
  r = clamp (Math_round
               (fmul (fmul (fmul (inject_Z b)
                                 (double (ContextSpec.timeFactor hourOfDay)))
                           (double (ContextSpec.mealFactor afterMealMinutes)))
                     (fadd (fadd 1 (fmul waterMl (fdiv 1 500)))
                           (fmul elapsedMinutes (fdiv 1 60))))) 0 255 /\
  s - 1 <= r /\ r <= s + 1 /\
  ((forall k : Z,
      1 # 1099511627776 <= Qabs (x - (inject_Z k + (1 # 2)))) ->
   r == s).
Proof.
  intros Hb Hw He. cbv zeta.
  split; [exact (applyContextFactors_unfold _ _)|].
  assert (Hs : ContextSpec.adjusted (inject_Z b) hourOfDay afterMealMinutes
                 waterMl elapsedMinutes
               == clamp (Math_round
                    (inject_Z b * ContextSpec.timeFactor hourOfDay
                     * ContextSpec.mealFactor afterMealMinutes
                     * ContextSpec.dilutionFactor waterMl elapsedMinutes))
                    0 255)
    by (unfold ContextSpec.adjusted; apply round_clamp_commute).
  rewrite Hs. clear Hs. rewrite applyContextFactors_unfold.
  cbn [hour afterMealMin Color.waterMl elapsedMin].
  assert (Heq : forall a c : Q, a == c -> a - 1 <= c /\ c <= a + 1)
    by (intros a c E; rewrite E; split; lra).
  destruct (Z.eq_dec b 0) as [->|Hb0].
  - change (inject_Z 0) with 0. rewrite !fmul_zero_l.
    assert (E : 0 * ContextSpec.timeFactor hourOfDay
                * ContextSpec.mealFactor afterMealMinutes
                * ContextSpec.dilutionFactor waterMl elapsedMinutes == 0)
      by ring.
    rewrite (Math_round_ext _ _ E).
    split; [|split]; [discriminate | discriminate | reflexivity].
  - destruct (product_near b hourOfDay afterMealMinutes waterMl elapsedMinutes)
      as (PL & PR & Hx); [lia | exact Hw | exact He |].
    cbv zeta in PL, PR, Hx.
    set (x := inject_Z b * ContextSpec.timeFactor hourOfDay
              * ContextSpec.mealFactor afterMealMinutes
              * ContextSpec.dilutionFactor waterMl elapsedMinutes) in *.
    set (P := fmul _ _) in *. clearbody x P.
    assert (H0255 : 0 <= 255) by discriminate.
    destruct (Qlt_le_dec 256 x) as [Hbig|Hsmall].
    + assert (E1 : clamp (Math_round P) 0 255 == 255).
      { apply clamp_above; [exact H0255|].
        apply (Math_round_ge 255). change (inject_Z 255) with 255. lra. }
      assert (E2 : clamp (Math_round x) 0 255 == 255).
      { apply clamp_above; [exact H0255|].
        apply (Math_round_ge 255). change (inject_Z 255) with 255. lra. }
      rewrite E1, E2. split; [|split]; [discriminate | discriminate | reflexivity].
    + split; [|split].
      * apply Qle_trans with (clamp (Math_round x - 1) 0 255);
          [apply clamp_shift, H0255|].
        apply clamp_mono.
        assert (E : Math_round x - 1 == Math_round (x + inject_Z (-1)))
          by (rewrite Math_round_shift; change (inject_Z (-1)) with (-1); ring).
        rewrite E. apply Math_round_mono. change (inject_Z (-1)) with (-1). lra.
      * apply Qle_trans with (clamp (Math_round x + 1) 0 255);
          [|apply clamp_shift, H0255].
        apply clamp_mono.
        assert (E : Math_round x + 1 == Math_round (x + inject_Z 1))
          by (rewrite Math_round_shift; reflexivity).
        rewrite E. apply Math_round_mono. change (inject_Z 1) with 1. lra.
      * intros Hfar.
        pose proof (Qfloor_le (x + (1 # 2))) as F1.
        pose proof (Qlt_floor (x + (1 # 2))) as F2.
        rewrite inject_Z_plus in F2. change (inject_Z 1) with 1 in F2.
        pose proof (Qabs_far _ _ (Hfar (Qfloor (x + (1 # 2))))) as Hup.
        pose proof (Qabs_far _ _ (Hfar (Qfloor (x + (1 # 2)) - 1)%Z)) as Hdown.
        assert (Ek : inject_Z (Qfloor (x + (1 # 2)) - 1)
                     == inject_Z (Qfloor (x + (1 # 2))) - 1)
          by (unfold Z.sub; rewrite inject_Z_plus; reflexivity).
        rewrite Ek in Hdown.
        assert (E : Math_round P = Math_round x).
        { unfold Math_round. f_equal. apply Qfloor_unique.
          - destruct Hdown as [Hd|Hd]; lra.
          - rewrite inject_Z_plus. change (inject_Z 1) with 1.
            destruct Hup as [Hu|Hu]; lra. }
        rewrite E. reflexivity.
Qed.

(** The rounding of the source turns a tie of the specification
    downwards: ten times the dilution factor [1 + 111/60] is 28.5, which
    the specification rounds to 29, read on the rationals or on doubles,
    and the source computes 28.499999999999996 and returns 28.  Likewise
    [75 * 1.2 * (1 + 9/60)] is 103.5 and the source returns 103. *)
Lemma applyContextFactors_rounds_below_spec :
  applyContextFactors 10 (mkContext 12 60 0 111) == 28 /\
  ContextSpec.adjusted 10 12 60 0 111 == 29 /\
  ContextSpec.adjustedInDoubles 10 12 60 0 111 == 29 /\
  applyContextFactors 75 (mkContext 3 60 0 9) == 103 /\
  ContextSpec.adjusted 75 3 60 0 9 == 104.
Proof. repeat split; vm_compute; reflexivity. Qed.

Lemma applyContextFactors_near_spec_witness :
  applyContextFactors (inject_Z 100) (mkContext 23 30 250 15)
  == ContextSpec.adjusted (inject_Z 100) 23 30 250 15.
Proof.
  destruct (applyContextFactors_near_spec 100 23 30 250 15)
    as (_ & _ & _ & Heq); [lia | discriminate | discriminate |].
  apply Heq. intros k.
  assert (Ex : inject_Z 100 * ContextSpec.timeFactor 23
               * ContextSpec.mealFactor 30
               * ContextSpec.dilutionFactor 250 15 == 231)
    by (vm_compute; reflexivity).
  rewrite Ex.
  destruct (Z_le_gt_dec k 230) as [Hk|Hk].
  - assert (inject_Z k <= 230)
      by (change 230 with (inject_Z 230); rewrite <- Zle_Qle; exact Hk).
    rewrite Qabs_pos by lra. lra.
  - assert (231 <= inject_Z k)
      by (change 231 with (inject_Z 231); rewrite <- Zle_Qle; lia).
    rewrite Qabs_neg by lra. lra.
Defined.

Lemma dilution_mono (w1 w2 e1 e2 : Q) :
  0 <= w1 -> w1 <= w2 -> 0 <= e1 -> e1 <= e2 ->
  0 <= fadd (fadd 1 (fmul w1 WEIGHTS.waterPer500ml))
            (fmul e1 WEIGHTS.elapsedPerMin) /\
  fadd (fadd 1 (fmul w1 WEIGHTS.waterPer500ml))
       (fmul e1 WEIGHTS.elapsedPerMin)
  <= fadd (fadd 1 (fmul w2 WEIGHTS.waterPer500ml))
          (fmul e2 WEIGHTS.elapsedPerMin).
Proof.
  intros Hw0 Hw He0 He. destruct weights_nonneg as [W500 W60].
  pose proof (fmul_nonneg w1 _ Hw0 W500) as Ht1.
  pose proof (fmul_nonneg e1 _ He0 W60) as Ht2.
  split.
  - apply double_nonneg.
    assert (0 <= fadd 1 (fmul w1 WEIGHTS.waterPer500ml))
      by (apply double_nonneg; lra).
    lra.
  - apply fadd_mono.
    + apply fadd_mono; [lra|]. apply fmul_mono; lra.
    + apply fmul_mono; lra.
Qed.

(** C6. With [b] in [0,255] and non-negative water and elapsed time, the
    adjusted value does not decrease when [waterMl] or [elapsedMinutes]
    grows (the other inputs fixed), and it lies in [0,255]. *)
Theorem applyContextFactors_monotone
    (b hourOfDay afterMealMinutes w1 w2 e1 e2 : Q) :
  0 <= b -> b <= 255 -> 0 <= w1 -> w1 <= w2 -> 0 <= e1 -> e1 <= e2 ->
  applyContextFactors b (mkContext hourOfDay afterMealMinutes w1 e1)
    <= applyContextFactors b (mkContext hourOfDay afterMealMinutes w2 e1) /\
  applyContextFactors b (mkContext hourOfDay afterMealMinutes w1 e1)
    <= applyContextFactors b (mkContext hourOfDay afterMealMinutes w1 e2) /\
  0 <= applyContextFactors b (mkContext hourOfDay afterMealMinutes w1 e1) /\
  applyContextFactors b (mkContext hourOfDay afterMealMinutes w1 e1) <= 255.
Proof.
  intros Hb0 Hb1 Hw0 Hw He0 He.
  rewrite !applyContextFactors_unfold.
  cbn [hour afterMealMin waterMl elapsedMin].
  pose proof (timeFactor_double_ge_1 hourOfDay) as Ht.
  pose proof (mealFactor_double_ge_1 afterMealMinutes) as Hm.
  set (t := double (ContextSpec.timeFactor hourOfDay)) in *.
  set (m := double (ContextSpec.mealFactor afterMealMinutes)) in *.
  assert (Hbtm : 0 <= fmul (fmul b t) m).
  { apply fmul_nonneg; [apply fmul_nonneg|]; lra. }
  split; [|split].
  - destruct (dilution_mono w1 w2 e1 e1) as [Hd0 Hd]; try lra.
    apply clamp_mono, Math_round_mono, fmul_mono;
      [exact Hbtm | lra | exact Hd0 | exact Hd].
  - destruct (dilution_mono w1 w1 e1 e2) as [Hd0 Hd]; try lra.
    apply clamp_mono, Math_round_mono, fmul_mono;
      [exact Hbtm | lra | exact Hd0 | exact Hd].
  - apply clamp_range. lra.
Qed.

Lemma applyContextFactors_monotone_witness :
  applyContextFactors 100 (mkContext 12 90 0 0)
    <= applyContextFactors 100 (mkContext 12 90 250 0) /\
  applyContextFactors 100 (mkContext 12 90 0 0)
    <= applyContextFactors 100 (mkContext 12 90 0 30) /\
  0 <= applyContextFactors 100 (mkContext 12 90 0 0) /\
  applyContextFactors 100 (mkContext 12 90 0 0) <= 255.
Proof.
  apply (applyContextFactors_monotone 100 12 90 0 250 0 30);
    unfold Qle; simpl; lia.
Defined.

(** C9. For an achromatic input [R = G = B] the conversion gives hue 0 and
    saturation 0 whatever the value is (the value is [R / 255 * 100]); the
    all-zero sample gives value 0 as well. *)
Theorem rgbToHsvDeg_achromatic (R : Q) :
  hsv_h (rgbToHsvDeg R R R) = 0 /\
  hsv_s (rgbToHsvDeg R R R) == 0 /\
  hsv_v (rgbToHsvDeg R R R) == R / 255 * 100 /\
  hsv_v (rgbToHsvDeg 0 0 0) == 0.
Proof.
  assert (Hmax : Math_max3 (R / 255) (R / 255) (R / 255) == R / 255).
  { unfold Math_max3, Math_max. rewrite !Q.max_id. reflexivity. }
  assert (Hmin : Math_min3 (R / 255) (R / 255) (R / 255) == R / 255).
  { unfold Math_min3, Math_min. rewrite !Q.min_id. reflexivity. }
  assert (Hd : eqb (Math_max3 (R / 255) (R / 255) (R / 255)
                    - Math_min3 (R / 255) (R / 255) (R / 255)) 0 = true).
  { apply Qeq_bool_iff. rewrite Hmax, Hmin. ring. }
  unfold rgbToHsvDeg. cbn [hsv_h hsv_s hsv_v].
  split; [|split; [|split]].
  - rewrite Hd. reflexivity.
  - destruct (eqb (Math_max3 (R / 255) (R / 255) (R / 255)) 0) eqn:E0.
    + ring.
    + apply Qeq_bool_iff in Hd.
      assert (Hmax0 : ~ Math_max3 (R / 255) (R / 255) (R / 255) == 0)
        by (apply Qeq_bool_neq, E0).
      rewrite Hd. field. exact Hmax0.
  - rewrite Hmax. reflexivity.
  - reflexivity.
Qed.

(** C8. The uniform sample (50, 200, 50) converts to hue 120, saturation 75
    and value 200/255 of 100 (between 78 and 79, rounding to 78); the
    glucose classifier returns level 1 on it, because the hue lies in
    [60,140] and the value is at least 75; the pH guards pass and the hue
    lies in the band [80,150), so the pH is 8. *)
Theorem end_to_end_50_200_50 :
  let c := rgbToHsvDeg 50 200 50 in
  hsv_h c == 120 /\ hsv_s c == 75 /\ hsv_v c == 200 / 255 * 100 /\
  78 < hsv_v c /\ hsv_v c < 79 /\ Math_round (hsv_v c) == 78 /\
  (60 <= hsv_h c /\ hsv_h c <= 140 /\ 75 <= hsv_v c) /\
  classifyByHSV (hsv_h c) (hsv_v c) = 1%Z /\
  (25 <= hsv_v c /\ 8 <= hsv_s c) /\
  (80 <= hsv_h c /\ hsv_h c < 150) /\
  classifyPHByHSV (hsv_h c) (hsv_s c) (hsv_v c) = mkPH (Some 8%Z) "pH 8 (녹색)".
Proof.
  cbv zeta.
  repeat split; try (vm_compute; reflexivity);
    try (vm_compute; discriminate).
Qed.

(** ** The history log *)

Section HistoryFacts.
Import History.
Local Open Scope Z_scope.

Variable getTime : value -> option Z.

Lemma findIndex_found {A} (p : A -> bool) (l : list A) :
  0 <= findIndex p l ->
  exists x, l !! Z.to_nat (findIndex p l) = Some x /\ p x = true /\
    forall j y, (j < Z.to_nat (findIndex p l))%nat -> l !! j = Some y ->
                p y = false.
Proof.
  induction l as [|a l IH]; cbn [findIndex]; [lia|].
  destruct (p a) eqn:Ea.
  - intros _. exists a. repeat split; [exact Ea|]. intros j y Hj. simpl in Hj. lia.
  - destruct (Z.ltb_spec (findIndex p l) 0) as [Hneg|Hpos]; [lia|].
    intros _. destruct (IH Hpos) as (x & Hx & Hpx & Hbefore).
    exists x. replace (Z.to_nat (findIndex p l + 1)) with (S (Z.to_nat (findIndex p l))) by lia.
    repeat split; [exact Hx | exact Hpx |].
    intros [|j] y Hj Hy; simpl in Hy.
    + congruence.
    + apply (Hbefore j); [lia | exact Hy].
Qed.

Lemma findIndex_none {A} (p : A -> bool) (l : list A) :
  findIndex p l < 0 -> Forall (fun x => p x = false) l.
Proof.
  induction l as [|a l IH]; cbn [findIndex]; [constructor|].
  destruct (p a) eqn:Ea; [lia|].
  destruct (Z.ltb_spec (findIndex p l) 0) as [Hneg|Hpos]; [|lia].
  intros _. constructor; [exact Ea | apply IH, Hneg].
Qed.

Lemma findIndex_range {A} (p : A -> bool) (l : list A) :
  -1 <= findIndex p l < Z.of_nat (length l).
Proof.
  induction l as [|a l IH]; cbn [findIndex length]; [lia|].
  destruct (p a); [lia|].
  destruct (Z.ltb_spec (findIndex p l) 0); lia.
Qed.

Lemma sort_insert_perm {A} (cmp : A -> A -> option Z) x (l : list A) :
  sort_insert cmp x l ≡ₚ x :: l.
Proof.
  induction l as [|y l IH]; cbn [sort_insert]; [reflexivity|].
  destruct (keeps_before cmp x y); [reflexivity|].
  rewrite IH. apply Permutation_swap.
Qed.

Lemma Array_sort_perm {A} (cmp : A -> A -> option Z) (l : list A) :
  Array_sort cmp l ≡ₚ l.
Proof.
  induction l as [|x l IH]; [reflexivity|].
  unfold Array_sort in *. cbn [foldr]. rewrite sort_insert_perm, IH.
  reflexivity.
Qed.

Lemma Array_sort_length {A} (cmp : A -> A -> option Z) (l : list A) :
  length (Array_sort cmp l) = length l.
Proof. apply Permutation_length, Array_sort_perm. Qed.

(** Sorting by a key: when every element has a key, the result is in
    ascending key order. *)
Section SortByKey.
Context {A : Type} (key : A -> option Z).

Lemma key_le_trans a b c :
  key_le key a b -> key_le key b c -> key_le key a c.
Proof.
  intros (ka & kb & Ha & Hb & Hab) (kb' & kc & Hb' & Hc & Hbc).
  exists ka, kc. repeat split; [exact Ha | exact Hc |].
  rewrite Hb in Hb'. injection Hb' as <-. lia.
Qed.

Lemma sort_insert_key_sorted x l :
  is_Some (key x) -> Forall (fun e => is_Some (key e)) l ->
  StronglySorted (key_le key) l ->
  StronglySorted (key_le key) (sort_insert (key_cmp key) x l).
Proof.
  intros [kx Hx] Hall Hs.
  induction Hs as [|y l Hs IH Hy]; cbn [sort_insert].
  - repeat constructor.
  - apply Forall_cons in Hall as [[ky Hky] Hall].
    unfold keeps_before, key_cmp. rewrite Hx, Hky.
    destruct (Z.leb_spec (kx - ky) 0) as [Hle|Hgt].
    + assert (Hxy : key_le key x y) by (exists kx, ky; repeat split; [assumption..|lia]).
      constructor; [constructor; assumption|].
      constructor; [exact Hxy|].
      eapply Forall_impl; [exact Hy|].
      intros z Hz. exact (key_le_trans _ _ _ Hxy Hz).
    + constructor; [apply IH, Hall|].
      rewrite sort_insert_perm. constructor; [|exact Hy].
      exists ky, kx. repeat split; [assumption..|lia].
Qed.

Lemma Array_sort_key_sorted l :
  Forall (fun e => is_Some (key e)) l ->
  StronglySorted (key_le key) (Array_sort (key_cmp key) l).
Proof.
  induction l as [|x l IH]; intros Hall; [constructor|].
  apply Forall_cons in Hall as [Hx Hall].
  unfold Array_sort in *. cbn [foldr].
  apply sort_insert_key_sorted; [exact Hx | | apply IH, Hall].
  change (foldr (sort_insert (key_cmp key)) [] l)
    with (Array_sort (key_cmp key) l).
  rewrite Array_sort_perm. exact Hall.
Qed.
End SortByKey.

Lemma findIndex_first {A} (p : A -> bool) (l : list A) i x :
  l !! i = Some x -> p x = true ->
  (forall j y, (j < i)%nat -> l !! j = Some y -> p y = false) ->
  findIndex p l = Z.of_nat i.
Proof.
  revert i. induction l as [|a l IH]; intros i Hi Hp Hbefore; [discriminate|].
  cbn [findIndex]. destruct i as [|i]; simpl in Hi.
  - injection Hi as ->. rewrite Hp. reflexivity.
  - rewrite (Hbefore 0%nat a) by (simpl; first [lia | reflexivity]).
    rewrite (IH i Hi Hp).
    + destruct (Z.ltb_spec (Z.of_nat i) 0); lia.
    + intros j y Hj Hy. apply (Hbefore (S j) y); [lia | exact Hy].
Qed.

Lemma strict_eq_true a b : strict_eq a b = true <-> a = b.
Proof. unfold strict_eq. apply bool_decide_eq_true. Qed.

Lemma strict_eq_false a b : strict_eq a b = false <-> a <> b.
Proof. unfold strict_eq. apply bool_decide_eq_false. Qed.

Lemma lookup_spread (old payload : obj) k :
  spread old payload !! k =
  match payload !! k with Some v => Some v | None => old !! k end.
Proof.
  unfold spread. rewrite lookup_union.
  destruct (payload !! k), (old !! k); reflexivity.
Qed.

Lemma get_spread (old payload : obj) k :
  get (spread old payload) k =
  match payload !! k with Some v => v | None => get old k end.
Proof.
  unfold get. rewrite lookup_spread. destruct (payload !! k); reflexivity.
Qed.

(** Merging a payload into a record of its own date keeps the date. *)
Lemma dateOf_spread (old payload : obj) :
  dateOf old = dateOf payload -> dateOf (spread old payload) = dateOf payload.
Proof.
  unfold dateOf. intros H. rewrite get_spread. unfold get in *.
  destruct (payload !! "date"); [reflexivity | exact H].
Qed.

Lemma byTimestamp_key_cmp : byTimestamp getTime = key_cmp (timeOf getTime).
Proof. reflexivity. Qed.

(** The two branches of [upsertHistoryEntry]. *)
Lemma upsert_found list_ payload i old :
  list_ !! i = Some old -> dateOf old = dateOf payload ->
  (forall j e, (j < i)%nat -> list_ !! j = Some e -> dateOf e <> dateOf payload) ->
  upsertHistoryEntry getTime list_ payload =
  Array_sort (byTimestamp getTime) (<[i := spread old payload]> list_).
Proof.
  intros Hi Hd Hbefore. unfold upsertHistoryEntry.
  rewrite (findIndex_first _ _ i old Hi).
  - destruct (Z.geb_spec (Z.of_nat i) 0) as [_|Hneg]; [|lia].
    rewrite Nat2Z.id. rewrite (list_lookup_total_correct _ _ _ Hi).
    reflexivity.
  - apply strict_eq_true, Hd.
  - intros j y Hj Hy. apply strict_eq_false, (Hbefore j y Hj Hy).
Qed.

Lemma upsert_absent list_ payload :
  Forall (fun e => dateOf e <> dateOf payload) list_ ->
  upsertHistoryEntry getTime list_ payload =
  Array_sort (byTimestamp getTime) (list_ ++ [payload]).
Proof.
  intros Hall. unfold upsertHistoryEntry.
  set (p := fun e => strict_eq (dateOf e) (dateOf payload)).
  destruct (Z.geb_spec (findIndex p list_) 0) as [Hpos|Hneg]; [|reflexivity].
  exfalso. destruct (findIndex_found p list_) as (x & Hx & Hpx & _); [lia|].
  apply strict_eq_true in Hpx.
  rewrite Forall_forall in Hall.
  apply (Hall x); [|exact Hpx].
  eapply list_elem_of_lookup_2, Hx.
Qed.

(** Every upsert is one of the two. *)
Lemma upsert_cases list_ payload :
  (exists i old,
     list_ !! i = Some old /\ dateOf old = dateOf payload /\
     (forall j e, (j < i)%nat -> list_ !! j = Some e ->
                  dateOf e <> dateOf payload) /\
     upsertHistoryEntry getTime list_ payload =
     Array_sort (byTimestamp getTime) (<[i := spread old payload]> list_))
  \/
  (Forall (fun e => dateOf e <> dateOf payload) list_ /\
   upsertHistoryEntry getTime list_ payload =
   Array_sort (byTimestamp getTime) (list_ ++ [payload])).
Proof.
  set (p := fun e => strict_eq (dateOf e) (dateOf payload)).
  destruct (Z.ltb_spec (findIndex p list_) 0) as [Hneg|Hpos].
  - right. assert (Hall : Forall (fun e => dateOf e <> dateOf payload) list_).
    { eapply Forall_impl; [apply (findIndex_none p), Hneg|].
      intros e He. apply strict_eq_false, He. }
    split; [exact Hall | apply upsert_absent, Hall].
  - left. destruct (findIndex_found p list_ Hpos) as (x & Hx & Hpx & Hbefore).
    exists (Z.to_nat (findIndex p list_)), x.
    assert (Hd : dateOf x = dateOf payload) by (apply strict_eq_true, Hpx).
    assert (Hb : forall j e, (j < Z.to_nat (findIndex p list_))%nat ->
                   list_ !! j = Some e -> dateOf e <> dateOf payload).
    { intros j e Hj He. apply strict_eq_false, (Hbefore j e Hj He). }
    repeat split; [exact Hx | exact Hd | exact Hb |].
    apply upsert_found; assumption.
Qed.

(** C3. [upsertHistoryEntry] is a shallow merge keyed by date.  When a
    record with the payload's date exists, the first such record is
    replaced by the record in which every key of the payload carries the
    payload's value (a [null] included) and every other key keeps its old
    value, and the log keeps its length; when none exists the payload is
    added as a new record.  The log is sorted afterwards in both cases.
    Upserting [{date: "2025-01-01", ph: 7}] and then
    [{date: "2025-01-01", level: 2}] into the empty log gives the single
    record with both [ph: 7] and [level: 2]. *)
Theorem upsertHistoryEntry_merge (list_ : list obj) (payload : obj) :
  (forall i old,
     list_ !! i = Some old -> dateOf old = dateOf payload ->
     (forall j e, (j < i)%nat -> list_ !! j = Some e ->
                  dateOf e <> dateOf payload) ->
     upsertHistoryEntry getTime list_ payload =
       Array_sort (byTimestamp getTime) (<[i := spread old payload]> list_) /\
     upsertHistoryEntry getTime list_ payload
       ≡ₚ <[i := spread old payload]> list_ /\
     (forall k v, payload !! k = Some v ->
                  spread old payload !! k = Some v) /\
     (forall k, payload !! k = None -> spread old payload !! k = old !! k) /\
     length (upsertHistoryEntry getTime list_ payload) = length list_) /\
  (Forall (fun e => dateOf e <> dateOf payload) list_ ->
     upsertHistoryEntry getTime list_ payload =
       Array_sort (byTimestamp getTime) (list_ ++ [payload]) /\
     upsertHistoryEntry getTime list_ payload ≡ₚ list_ ++ [payload] /\
     length (upsertHistoryEntry getTime list_ payload) = S (length list_)) /\
  ((exists i old,
      list_ !! i = Some old /\ dateOf old = dateOf payload /\
      forall j e, (j < i)%nat -> list_ !! j = Some e ->
                  dateOf e <> dateOf payload) \/
   Forall (fun e => dateOf e <> dateOf payload) list_) /\
  (let A : obj := {[ "date" := VStr "2025-01-01"; "ph" := VNum 7 ]} in
   let B : obj := {[ "date" := VStr "2025-01-01"; "level" := VNum 2 ]} in
   let N : obj := {[ "date" := VStr "2025-01-01"; "ph" := VNull ]} in
   upsertHistoryEntry getTime [] A = [A] /\
   upsertHistoryEntry getTime (upsertHistoryEntry getTime [] A) B =
     [ {[ "date" := VStr "2025-01-01"; "ph" := VNum 7;
          "level" := VNum 2 ]} ] /\
   length (upsertHistoryEntry getTime (upsertHistoryEntry getTime [] A) B) =
     length (upsertHistoryEntry getTime [] A) /\
   upsertHistoryEntry getTime [A] N = [N]).
Proof.
  split; [|split; [|split]].
  - intros i old Hi Hd Hbefore.
    rewrite (upsert_found _ _ _ _ Hi Hd Hbefore).
    split; [reflexivity|]. split; [apply Array_sort_perm|].
    split; [|split].
    + intros k v Hk. rewrite lookup_spread, Hk. reflexivity.
    + intros k Hk. rewrite lookup_spread, Hk. reflexivity.
    + rewrite Array_sort_length. apply length_insert.
  - intros Hall. rewrite (upsert_absent _ _ Hall).
    split; [reflexivity|]. split; [apply Array_sort_perm|].
    rewrite Array_sort_length, length_app. simpl. lia.
  - destruct (upsert_cases list_ payload)
      as [(i & old & Hi & Hd & Hb & _)|[Hall _]].
    + left. exists i, old. auto.
    + right. exact Hall.
  - cbv zeta. repeat split; vm_compute; reflexivity.
Qed.

(** *** Invariants of the log *)

Local Abbreviation valid := (validTime getTime).
Local Abbreviation time_le := (History.time_le getTime).
Local Abbreviation time_lt := (History.time_lt getTime).

Lemma timeOf_spread (old payload : obj) :
  timeOf getTime (spread old payload) = timeOf getTime payload \/
  (payload !! "timestamp" = None /\
   timeOf getTime (spread old payload) = timeOf getTime old).
Proof.
  unfold timeOf. rewrite get_spread. unfold get.
  destruct (payload !! "timestamp"); [left | right]; auto.
Qed.

Lemma upsert_length list_ payload :
  (length (upsertHistoryEntry getTime list_ payload) = length list_ /\
   dateOf payload ∈ dateOf <$> list_) \/
  (length (upsertHistoryEntry getTime list_ payload) = S (length list_) /\
   dateOf payload ∉ dateOf <$> list_).
Proof.
  destruct (upsert_cases list_ payload)
    as [(i & old & Hi & Hd & _ & ->)|[Hall ->]];
    rewrite Array_sort_length.
  - left. split; [apply length_insert|].
    rewrite <- Hd. apply list_elem_of_fmap_2.
    eapply list_elem_of_lookup_2, Hi.
  - right. split; [rewrite length_app; simpl; lia|].
    intros Hin. apply list_elem_of_fmap in Hin as (e & He & Hin).
    rewrite Forall_forall in Hall. apply (Hall e Hin). symmetry. exact He.
Qed.

Lemma upsert_dates_NoDup list_ payload :
  NoDup (dateOf <$> list_) ->
  NoDup (dateOf <$> upsertHistoryEntry getTime list_ payload).
Proof.
  intros Hnd.
  destruct (upsert_cases list_ payload)
    as [(i & old & Hi & Hd & _ & ->)|[Hall ->]];
    rewrite Array_sort_perm.
  - rewrite list_fmap_insert, dateOf_spread by exact Hd.
    rewrite list_insert_id; [exact Hnd|].
    rewrite list_lookup_fmap, Hi. simpl. congruence.
  - rewrite fmap_app. simpl. apply NoDup_app. split; [exact Hnd|].
    split; [|apply NoDup_singleton].
    intros d Hd Hd'. apply list_elem_of_singleton in Hd' as ->.
    apply list_elem_of_fmap in Hd as (e & He & Hin).
    rewrite Forall_forall in Hall. apply (Hall e Hin). symmetry. exact He.
Qed.

Lemma upsert_valid list_ payload :
  Forall valid list_ -> valid payload ->
  Forall valid (upsertHistoryEntry getTime list_ payload).
Proof.
  intros Hl Hp.
  destruct (upsert_cases list_ payload)
    as [(i & old & Hi & Hd & _ & ->)|[Hall ->]];
    rewrite Array_sort_perm.
  - apply Forall_insert; [exact Hl|]. unfold validTime in *.
    destruct (timeOf_spread old payload) as [->|[_ ->]]; [exact Hp|].
    rewrite Forall_forall in Hl. apply Hl.
    eapply list_elem_of_lookup_2, Hi.
  - apply Forall_app. split; [exact Hl|]. constructor; [exact Hp|constructor].
Qed.

Lemma upsert_sorted list_ payload :
  Forall valid list_ -> valid payload ->
  StronglySorted time_le (upsertHistoryEntry getTime list_ payload).
Proof.
  intros Hl Hp.
  destruct (upsert_cases list_ payload)
    as [(i & old & Hi & Hd & _ & ->)|[Hall ->]];
    rewrite byTimestamp_key_cmp; apply Array_sort_key_sorted.
  - apply Forall_insert; [exact Hl|]. unfold validTime in *.
    destruct (timeOf_spread old payload) as [->|[_ ->]]; [exact Hp|].
    rewrite Forall_forall in Hl. apply Hl.
    eapply list_elem_of_lookup_2, Hi.
  - apply Forall_app. split; [exact Hl|]. constructor; [exact Hp|constructor].
Qed.

Local Abbreviation from_payload := (History.from_payload getTime).

Lemma upserts_snoc payloads payload :
  upserts getTime (payloads ++ [payload]) =
  upsertHistoryEntry getTime (upserts getTime payloads) payload.
Proof. unfold upserts. rewrite foldl_app. reflexivity. Qed.

Lemma from_payload_mono payloads payload e :
  from_payload payloads e -> from_payload (payloads ++ [payload]) e.
Proof.
  intros (p & Hp & Hd & Ht). exists p. split; [|auto].
  apply elem_of_app. left. exact Hp.
Qed.

Lemma upserts_from_payload payloads :
  Forall (from_payload payloads) (upserts getTime payloads).
Proof.
  induction payloads as [|payload payloads IH] using rev_ind; [constructor|].
  rewrite upserts_snoc.
  assert (Hnew : payload ∈ payloads ++ [payload]).
  { apply elem_of_app. right. apply list_elem_of_singleton. reflexivity. }
  assert (IH' : Forall (from_payload (payloads ++ [payload]))
                  (upserts getTime payloads)).
  { eapply Forall_impl; [exact IH|]. intros e. apply from_payload_mono. }
  destruct (upsert_cases (upserts getTime payloads) payload)
    as [(i & old & Hi & Hd & _ & ->)|[Hall ->]];
    rewrite Array_sort_perm.
  - apply Forall_insert; [exact IH'|].
    destruct (timeOf_spread old payload) as [Ht|[_ Ht]].
    + exists payload. split; [exact Hnew|].
      split; [apply dateOf_spread, Hd | exact Ht].
    + rewrite Forall_forall in IH'.
      destruct (IH' old) as (p & Hp & Hdp & Htp).
      { eapply list_elem_of_lookup_2, Hi. }
      exists p. split; [exact Hp|]. split; [|congruence].
      rewrite dateOf_spread by exact Hd. congruence.
  - apply Forall_app. split; [exact IH'|].
    constructor; [|constructor]. exists payload. auto.
Qed.

Lemma sorted_strict (l : list obj) :
  StronglySorted time_le l -> NoDup (dateOf <$> l) ->
  (forall a b, a ∈ l -> b ∈ l -> dateOf a <> dateOf b ->
               timeOf getTime a <> timeOf getTime b) ->
  StronglySorted time_lt l.
Proof.
  intros Hs. induction Hs as [|x l Hs IH Hx]; intros Hnd Hinj; [constructor|].
  rewrite fmap_cons in Hnd. apply NoDup_cons in Hnd as [Hxl Hnd].
  constructor.
  - apply IH; [exact Hnd|].
    intros a b Ha Hb. apply Hinj; apply elem_of_cons; right; assumption.
  - rewrite Forall_forall in Hx |- *. intros y Hy.
    destruct (Hx y Hy) as (tx & ty & Htx & Hty & Hle).
    exists tx, ty. repeat split; [exact Htx | exact Hty |].
    assert (Hne : timeOf getTime x <> timeOf getTime y).
    { apply Hinj; [apply elem_of_cons; left; reflexivity
                  | apply elem_of_cons; right; exact Hy |].
      intros Heq. apply Hxl. rewrite Heq.
      apply list_elem_of_fmap_2, Hy. }
    rewrite Htx, Hty in Hne.
    assert (tx <> ty) by congruence. lia.
Qed.

Lemma upserts_valid payloads :
  Forall valid payloads -> Forall valid (upserts getTime payloads).
Proof.
  induction payloads as [|payload payloads IH] using rev_ind; [constructor|].
  intros Hall. apply Forall_app in Hall as [Hps Hp].
  rewrite upserts_snoc. apply upsert_valid; [apply IH, Hps|].
  apply Forall_cons in Hp as [Hp _]. exact Hp.
Qed.

Lemma upserts_dates_NoDup payloads :
  NoDup (dateOf <$> upserts getTime payloads).
Proof.
  induction payloads as [|payload payloads IH] using rev_ind.
  - apply NoDup_nil_2.
  - rewrite upserts_snoc. apply upsert_dates_NoDup, IH.
Qed.

Lemma upserts_sorted payloads :
  Forall valid payloads -> StronglySorted time_le (upserts getTime payloads).
Proof.
  destruct payloads as [|payload payloads _] using rev_ind; [constructor|].
  intros Hall. apply Forall_app in Hall as [Hps Hp].
  apply Forall_cons in Hp as [Hp _].
  rewrite upserts_snoc. apply upsert_sorted; [|exact Hp].
  apply upserts_valid, Hps.
Qed.

(** C4, as the source has it.  After any sequence of upserts from the empty
    log there is at most one record per date, and every further upsert
    either adds one record (the date is new) or keeps the length (the date
    is present).  When the payloads carry valid timestamps the log is in
    ascending order of timestamp after every upsert, two records of equal
    timestamp being possible; it is strictly ascending when payloads of
    different dates carry different timestamps. *)
Theorem upserts_invariant (payloads : list obj) :
  let log := upserts getTime payloads in
  NoDup (dateOf <$> log) /\
  (forall payload,
     (length (upsertHistoryEntry getTime log payload) = length log /\
      dateOf payload ∈ dateOf <$> log) \/
     (length (upsertHistoryEntry getTime log payload) = S (length log) /\
      dateOf payload ∉ dateOf <$> log)) /\
  (Forall valid payloads ->
     StronglySorted time_le log /\
     (forall payload, valid payload ->
        StronglySorted time_le (upsertHistoryEntry getTime log payload)) /\
     ((forall p q, p ∈ payloads -> q ∈ payloads -> dateOf p <> dateOf q ->
                   timeOf getTime p <> timeOf getTime q) ->
      StronglySorted time_lt log)).
Proof.
  cbv zeta. split; [apply upserts_dates_NoDup|].
  split; [intros payload; apply upsert_length|].
  intros Hvalid. split; [apply upserts_sorted, Hvalid|].
  split.
  - intros payload Hp. apply upsert_sorted; [|exact Hp].
    apply upserts_valid, Hvalid.
  - intros Hinj. apply sorted_strict.
    + apply upserts_sorted, Hvalid.
    + apply upserts_dates_NoDup.
    + intros a b Ha Hb Hab.
      pose proof (upserts_from_payload payloads) as Hfrom.
      rewrite Forall_forall in Hfrom.
      destruct (Hfrom a Ha) as (p & Hp & Hdp & Htp).
      destruct (Hfrom b Hb) as (q & Hq & Hdq & Htq).
      rewrite Htp, Htq. apply Hinj; [exact Hp | exact Hq |]. congruence.
Qed.

End HistoryFacts.

(** The log need not be strictly ascending: two records of different dates
    and the same timestamp are both kept, side by side. *)
Lemma upserts_not_strictly_ascending :
  History.upserts Browser.getTime [sameInstant1; sameInstant2]
    = [sameInstant1; sameInstant2] /\
  History.timeOf Browser.getTime sameInstant1 = Some 1735745400000%Z /\
  History.timeOf Browser.getTime sameInstant2 = Some 1735745400000%Z /\
  ~ Sorted (History.time_lt Browser.getTime)
      (History.upserts Browser.getTime [sameInstant1; sameInstant2]).
Proof.
  assert (E : History.upserts Browser.getTime [sameInstant1; sameInstant2]
              = [sameInstant1; sameInstant2]) by (vm_compute; reflexivity).
  assert (T1 : History.timeOf Browser.getTime sameInstant1
               = Some 1735745400000%Z) by (vm_compute; reflexivity).
  assert (T2 : History.timeOf Browser.getTime sameInstant2
               = Some 1735745400000%Z) by (vm_compute; reflexivity).
  split; [exact E|]. split; [exact T1|]. split; [exact T2|].
  rewrite E. intros Hs.
  apply Sorted_inv in Hs as [_ Hhd]. apply HdRel_inv in Hhd.
  destruct Hhd as (ta & tb & Ha & Hb & Hlt).
  rewrite T1 in Ha. rewrite T2 in Hb.
  injection Ha as <-. injection Hb as <-. lia.
Qed.

Lemma upserts_invariant_witness :
  let payloads := [sameInstant1;
                   <[ "timestamp" := History.VStr "2025-01-02T08:00:00.000Z" ]>
                     sameInstant2] in
  Forall (History.validTime Browser.getTime) payloads /\
  StronglySorted (History.time_lt Browser.getTime)
    (History.upserts Browser.getTime payloads).
Proof.
  cbv zeta.
  assert (Hvalid :
    Forall (History.validTime Browser.getTime)
      [sameInstant1;
       <[ "timestamp" := History.VStr "2025-01-02T08:00:00.000Z" ]>
         sameInstant2]).
  { repeat constructor; vm_compute; eauto. }
  split; [exact Hvalid|].
  apply (upserts_invariant Browser.getTime); [exact Hvalid|].
  intros p q Hp Hq Hne.
  repeat (apply elem_of_cons in Hp as [->|Hp]);
    try (apply elem_of_nil in Hp; destruct Hp);
  repeat (apply elem_of_cons in Hq as [->|Hq]);
    try (apply elem_of_nil in Hq; destruct Hq);
  first [ exfalso; apply Hne; reflexivity | vm_compute; discriminate ].
Defined.

(** ** The calendar and statistics views *)

Section ViewFacts.
Import History.
Local Open Scope Z_scope.

Variable getTime : value -> option Z.
Variable localeCompare : string -> string -> Z.
Variable toKoMD : value -> string.

Lemma Map_get_set_eq {V} (m : list (value * V)) k v :
  Map_get (Map_set m k v) k = Some v.
Proof.
  induction m as [|[k' v'] m IH]; cbn [Map_set Map_get].
  - rewrite (proj2 (strict_eq_true k k)) by reflexivity. reflexivity.
  - destruct (strict_eq k' k) eqn:E; cbn [Map_get].
    + rewrite (proj2 (strict_eq_true k k)) by reflexivity. reflexivity.
    + rewrite E. exact IH.
Qed.

Lemma Map_get_set_ne {V} (m : list (value * V)) k k' v :
  k <> k' -> Map_get (Map_set m k v) k' = Map_get m k'.
Proof.
  intros Hne. induction m as [|[k0 v0] m IH]; cbn [Map_set Map_get].
  - rewrite (proj2 (strict_eq_false k k')) by exact Hne. reflexivity.
  - destruct (strict_eq k0 k) eqn:E; cbn [Map_get].
    + apply strict_eq_true in E as ->.
      rewrite (proj2 (strict_eq_false k k')) by exact Hne. reflexivity.
    + rewrite IH. reflexivity.
Qed.

Lemma Map_get_is_Some {V} (m : list (value * V)) k :
  is_Some (Map_get m k) <-> k ∈ m.*1.
Proof.
  induction m as [|[k' v'] m IH]; cbn [Map_get].
  - split; [intros [? ?]; discriminate | intros H; inversion H].
  - rewrite fmap_cons, elem_of_cons. cbn [fst].
    destruct (strict_eq k' k) eqn:E.
    + apply strict_eq_true in E as ->. split; eauto.
    + apply strict_eq_false in E. rewrite IH. split; [auto|].
      intros [->|H]; [contradiction|exact H].
Qed.

Lemma Map_set_keys {V} (m : list (value * V)) k v :
  (Map_set m k v).*1 = if decide (k ∈ m.*1) then m.*1 else m.*1 ++ [k].
Proof.
  induction m as [|[k' v'] m IH]; cbn [Map_set].
  - rewrite decide_False by (intros H; inversion H). reflexivity.
  - destruct (strict_eq k' k) eqn:E.
    + apply strict_eq_true in E as ->. rewrite !fmap_cons. cbn [fst].
      rewrite decide_True by (apply elem_of_cons; left; reflexivity).
      reflexivity.
    + apply strict_eq_false in E. rewrite !fmap_cons, IH. cbn [fst].
      destruct (decide (k ∈ m.*1)) as [Hin|Hnin].
      * rewrite decide_True by (apply elem_of_cons; right; exact Hin).
        reflexivity.
      * rewrite decide_False; [reflexivity|].
        intros [->|H]%elem_of_cons; [apply E; reflexivity | exact (Hnin H)].
Qed.

Lemma Map_set_NoDup {V} (m : list (value * V)) k v :
  NoDup m.*1 -> NoDup (Map_set m k v).*1.
Proof.
  intros Hnd. rewrite Map_set_keys. destruct (decide (k ∈ m.*1)) as [|Hnin].
  - exact Hnd.
  - apply NoDup_app. split; [exact Hnd|]. split; [|apply NoDup_singleton].
    intros x Hx Hx'. apply list_elem_of_singleton in Hx' as ->. exact (Hnin Hx).
Qed.

Lemma Map_get_elem {V} (m : list (value * V)) k v :
  NoDup m.*1 -> (Map_get m k = Some v <-> (k, v) ∈ m).
Proof.
  induction m as [|[k' v'] m IH]; cbn [Map_get]; intros Hnd.
  - split; [discriminate | intros H; inversion H].
  - rewrite fmap_cons in Hnd. cbn [fst] in Hnd.
    apply NoDup_cons in Hnd as [Hk' Hnd].
    rewrite elem_of_cons. destruct (strict_eq k' k) eqn:E.
    + apply strict_eq_true in E as ->. split.
      * intros [= ->]. left. reflexivity.
      * intros [[= ->]|Hin]; [reflexivity|].
        exfalso. apply Hk'. apply (list_elem_of_fmap_2 fst) in Hin. exact Hin.
    + apply strict_eq_false in E. rewrite (IH Hnd). split; [auto|].
      intros [[= -> ->]|Hin]; [exfalso; apply E; reflexivity | exact Hin].
Qed.

Lemma filter_date_nil (l : list obj) d :
  d ∉ dateOf <$> l -> filter (fun e => dateOf e = d) l = [].
Proof.
  induction l as [|e l IH]; intros Hnin; [reflexivity|].
  rewrite fmap_cons in Hnin. apply not_elem_of_cons in Hnin as [Hne Hnin].
  rewrite filter_cons_False by congruence. apply IH, Hnin.
Qed.

Lemma byDate_fold_get (l : list obj) (m : list (value * obj)) d :
  Map_get (foldl byDate_step m l) d =
  if decide (d ∈ dateOf <$> l)
  then Some (mergeDate d (default ∅ (Map_get m d)) l)
  else Map_get m d.
Proof.
  revert m. induction l as [|e l IH]; intros m.
  - rewrite decide_False by (intros H; inversion H). reflexivity.
  - cbn [foldl]. rewrite IH. unfold mergeDate.
    rewrite fmap_cons. destruct (decide (dateOf e = d)) as [He|He].
    + rewrite filter_cons_True by exact He.
      rewrite (decide_True (P := d ∈ dateOf e :: _))
        by (apply elem_of_cons; left; congruence).
      assert (Hstep : Map_get (byDate_step m e) d
                      = Some (spread (default ∅ (Map_get m d)) e)).
      { unfold byDate_step. rewrite He. apply Map_get_set_eq. }
      rewrite Hstep. cbn [default foldl].
      destruct (decide (d ∈ dateOf <$> l)) as [Hin|Hnin]; [reflexivity|].
      assert (Hnil : filter (fun e0 => dateOf e0 = d) l = []).
      { apply filter_date_nil, Hnin. }
      rewrite Hnil. reflexivity.
    + rewrite filter_cons_False by exact He.
      assert (Hstep : Map_get (byDate_step m e) d = Map_get m d).
      { unfold byDate_step. apply Map_get_set_ne, He. }
      rewrite Hstep.
      destruct (decide (d ∈ dateOf <$> l)) as [Hin|Hnin].
      * rewrite decide_True by (apply elem_of_cons; right; exact Hin).
        reflexivity.
      * rewrite decide_False; [reflexivity|].
        intros [->|H]%elem_of_cons; [apply He; reflexivity | exact (Hnin H)].
Qed.

Lemma byDate_fold_NoDup (l : list obj) (m : list (value * obj)) :
  NoDup m.*1 -> NoDup (foldl byDate_step m l).*1.
Proof.
  revert m. induction l as [|e l IH]; intros m Hnd; [exact Hnd|].
  cbn [foldl]. apply IH, Map_set_NoDup, Hnd.
Qed.

Lemma spread_empty (e : obj) : spread ∅ e = e.
Proof. unfold spread. apply (right_id_L ∅ (∪)). Qed.

Lemma dateOf_foldl_spread d (es : list obj) (acc : obj) :
  Forall (fun e => dateOf e = d) es -> dateOf acc = d ->
  dateOf (foldl spread acc es) = d.
Proof.
  revert acc. induction es as [|e es IH]; intros acc Hall Hacc; [exact Hacc|].
  apply Forall_cons in Hall as [He Hall]. cbn [foldl].
  apply IH; [exact Hall|]. rewrite dateOf_spread; congruence.
Qed.

Lemma dateOf_mergeDate d (l : list obj) :
  d ∈ dateOf <$> l -> dateOf (mergeDate d ∅ l) = d.
Proof.
  intros Hin. unfold mergeDate.
  assert (Hall : Forall (fun e => dateOf e = d)
                   (filter (fun e => dateOf e = d) l)).
  { apply Forall_forall. intros e He. apply list_elem_of_filter in He as [He _].
    exact He. }
  destruct (filter (fun e => dateOf e = d) l) as [|e es] eqn:Ef.
  - exfalso. apply list_elem_of_fmap in Hin as (e & He & Hin).
    eapply (filter_nil_not_elem_of _ _ e Ef); [symmetry; exact He | exact Hin].
  - apply Forall_cons in Hall as [He Hall]. cbn [foldl].
    rewrite spread_empty. apply dateOf_foldl_spread; assumption.
Qed.


Lemma byDate_get (history : list obj) d :
  Map_get (byDate getTime history) d =
  if decide (d ∈ dateOf <$> history)
  then Some (mergeDate d ∅ (Array_sort (byTimestamp getTime) history))
  else None.
Proof.
  unfold byDate. rewrite byDate_fold_get. cbn [Map_get default].
  assert (Hiff : d ∈ dateOf <$> Array_sort (byTimestamp getTime) history
                 <-> d ∈ dateOf <$> history)
    by (rewrite Array_sort_perm; reflexivity).
  destruct (decide (d ∈ dateOf <$> history)) as [Hin|Hnin].
  - rewrite decide_True by (apply Hiff, Hin). reflexivity.
  - rewrite decide_False by (intros H; apply Hnin, Hiff, H). reflexivity.
Qed.

Lemma byDate_NoDup (history : list obj) : NoDup (byDate getTime history).*1.
Proof. unfold byDate. apply byDate_fold_NoDup, NoDup_nil_2. Qed.

Lemma byDate_keys (history : list obj) :
  (byDate getTime history).*1 ≡ₚ remove_dups (dateOf <$> history).
Proof.
  apply NoDup_Permutation; [apply byDate_NoDup | apply NoDup_remove_dups |].
  intros d. rewrite elem_of_remove_dups, <- Map_get_is_Some, byDate_get.
  destruct (decide (d ∈ dateOf <$> history)) as [Hin|Hnin].
  - split; eauto.
  - split; [intros [? ?]; discriminate | intros H; contradiction].
Qed.

Lemma byDate_entries (history : list obj) :
  Forall (fun kv => kv.1 ∈ dateOf <$> history /\
            kv.2 = mergeDate kv.1 ∅
                     (Array_sort (byTimestamp getTime) history) /\
            dateOf kv.2 = kv.1)
         (byDate getTime history).
Proof.
  apply Forall_forall. intros [k v] Hin. cbn [fst snd].
  apply (Map_get_elem _ _ _ (byDate_NoDup history)) in Hin.
  rewrite byDate_get in Hin.
  destruct (decide (k ∈ dateOf <$> history)) as [Hk|]; [|discriminate].
  injection Hin as <-. split; [exact Hk|]. split; [reflexivity|].
  apply dateOf_mergeDate. rewrite Array_sort_perm. exact Hk.
Qed.

Lemma byDate_values_dates (history : list obj) :
  dateOf <$> Map_values (byDate getTime history)
  = (byDate getTime history).*1.
Proof.
  unfold Map_values. pose proof (byDate_entries history) as H.
  induction H as [|[k v] m (_ & _ & Hd) _ IH]; [reflexivity|].
  rewrite !fmap_cons. cbn [fst snd] in *. rewrite Hd, IH. reflexivity.
Qed.

(** *** Sorting with a comparator that may throw *)


Lemma sort_insert_throwing_ok {A} (cmp : A -> A -> option Z) x (l : list A) :
  Forall (fun y => is_Some (cmp x y)) l ->
  sort_insert_throwing cmp x l = Some (sort_insert cmp x l).
Proof.
  induction 1 as [|y l [n Hn] _ IH]; cbn [sort_insert_throwing sort_insert];
    [reflexivity|].
  unfold keeps_before. rewrite Hn.
  destruct (n <=? 0); [reflexivity|]. rewrite IH. reflexivity.
Qed.

Lemma Array_sort_throwing_ok {A} (cmp : A -> A -> option Z) (P : A -> Prop)
    (l : list A) :
  (forall a b, P a -> P b -> is_Some (cmp a b)) -> Forall P l ->
  Array_sort_throwing cmp l = Some (Array_sort cmp l).
Proof.
  intros Hcmp. induction 1 as [|x l Hx Hl IH]; [reflexivity|].
  cbn [Array_sort_throwing]. rewrite IH.
  unfold Array_sort. cbn [foldr]. apply sort_insert_throwing_ok.
  change (foldr (sort_insert cmp) [] l) with (Array_sort cmp l).
  rewrite Array_sort_perm. eapply Forall_impl; [exact Hl|].
  intros y Hy. apply Hcmp; assumption.
Qed.


Hypothesis localeCompare_total :
  forall a b, localeCompare a b <= 0 \/ localeCompare b a <= 0.
Hypothesis localeCompare_trans :
  forall a b c, localeCompare a b <= 0 -> localeCompare b c <= 0 ->
                localeCompare a c <= 0.




End ViewFacts.

(** ** The platform model meets the assumptions on [localeCompare] *)






(** The views on the sample history: the later entry of 2025-01-02 gives
    the level, the earlier one keeps its pH. *)
Example tamperedHistory_views :
  History.lineData Browser.getTime Browser.localeCompare Browser.toKoMD
    tamperedHistory
  = Some [ History.mkPoint (History.VStr "2025-01-01") "1. 1."
             (History.VNum 4) (History.VNum 6);
           History.mkPoint (History.VStr "2025-01-02") "1. 2."
             (History.VNum 2) (History.VNum 7) ] /\
  History.calendarEntry Browser.getTime tamperedHistory "2025-01-02"
  = Some {[ "date" := History.VStr "2025-01-02";
            "timestamp" := History.VStr "2025-01-02T10:00:00.000Z";
            "level" := History.VNum 1; "ph" := History.VNum 7 ]} /\
  History.calendarEntry Browser.getTime tamperedHistory "2025-01-03" = None.
Proof. repeat split; vm_compute; reflexivity. Qed.

(** ** The region sampler *)

Section SamplerFacts.
Import Sampler.
Local Open Scope Z_scope.

Lemma outside_inLuma lo hi r g b :
  outside (luma (Some r) (Some g) (Some b)) lo hi
  = negb (inLuma lo hi (r, g, b)).
Proof.
  cbn [luma outside inLuma]. unfold gtb, ltb.
  rewrite negb_andb. reflexivity.
Qed.

Lemma accumulate_pixel (a : Acc) ra ga ba r g b :
  rSum a = Some ra -> gSum a = Some ga -> bSum a = Some ba ->
  accumulate 10 245 a (Some r) (Some g) (Some b) =
  if inLuma 10 245 (r, g, b)
  then mkAcc (Some (ra + r)) (Some (ga + g)) (Some (ba + b)) (n a + 1)
  else a.
Proof.
  intros Hr Hg Hb. unfold accumulate. rewrite outside_inLuma.
  destruct (inLuma 10 245 (r, g, b)); cbn [negb]; [|reflexivity].
  rewrite Hr, Hg, Hb. reflexivity.
Qed.

(** One turn of the loop of the full scan. *)
Lemma fullScan_step (r g b x : Z) (rest : list Z) (a : Acc) :
  fullScan (r :: g :: b :: x :: rest) a
  = fullScan rest (accumulate 10 245 a (Some r) (Some g) (Some b)).
Proof. lazy beta iota delta [fullScan]; fold fullScan. exact eq_refl. Qed.

(** On a buffer of whole pixels the full scan sums the pixels whose luma is
    in [10,245] and counts them. *)
Lemma fullScan_pixels (k : nat) : forall (data : list Z) (a : Acc) ra ga ba,
  length data = (4 * k)%nat ->
  rSum a = Some ra -> gSum a = Some ga -> bSum a = Some ba ->
  fullScan data a =
  mkAcc (Some (ra + sumZ (redOf <$> fullFrameValid data)))
        (Some (ga + sumZ (greenOf <$> fullFrameValid data)))
        (Some (ba + sumZ (blueOf <$> fullFrameValid data)))
        (n a + Z.of_nat (length (fullFrameValid data))).
Proof.
  induction k as [|k IH]; intros data a ra ga ba Hlen Hr Hg Hb.
  - destruct data; [|discriminate]. destruct a as [ar ag ab an].
    cbn in *. rewrite Hr, Hg, Hb. rewrite !Z.add_0_r. reflexivity.
  - destruct data as [|r [|g [|b [|x rest]]]]; try (simpl in Hlen; lia).
    assert (Hrest : length rest = (4 * k)%nat) by (simpl in Hlen; lia).
    rewrite fullScan_step, (accumulate_pixel a ra ga ba) by assumption.
    unfold fullFrameValid. cbn [pixels List.filter].
    destruct (inLuma 10 245 (r, g, b)).
    + rewrite (IH rest _ (ra + r) (ga + g) (ba + b)) by (assumption || reflexivity).
      unfold fullFrameValid. cbn [n length fmap list_fmap sumZ foldr redOf greenOf blueOf fst snd].
      fold (sumZ (redOf <$> List.filter (inLuma 10 245) (pixels rest))).
      fold (sumZ (greenOf <$> List.filter (inLuma 10 245) (pixels rest))).
      fold (sumZ (blueOf <$> List.filter (inLuma 10 245) (pixels rest))).
      f_equal; try (f_equal; lia). lia.
    + rewrite (IH rest a ra ga ba) by assumption. reflexivity.
Qed.

Lemma inLuma_spec lo hi r g b :
  inLuma lo hi (r, g, b) = true <->
  (lo <= lumaOf r g b)%Q /\ (lumaOf r g b <= hi)%Q.
Proof.
  cbn [inLuma]. rewrite andb_true_iff, !Qle_bool_iff. reflexivity.
Qed.

(** The luma of the source on the grey (10,10,10) is
    9.999999999999998: the full scan skips this pixel, which the bound 10
    read on the reals would keep. *)
Example lumaOf_grey_10 : (lumaOf 10 10 10 < 10)%Q.
Proof. vm_compute. reflexivity. Qed.

(** A pixel of bytes whose luma is at least 10 is not one of the four
    darkest ones. *)
Lemma inLuma_bright r g b :
  byte r -> byte g -> byte b ->
  inLuma 10 245 (r, g, b) = true -> 2 <= r + g + b.
Proof.
  unfold byte. intros Hr Hg Hb Hin.
  destruct (Z_lt_le_dec (r + g + b) 2) as [Hdark|]; [exfalso | assumption].
  assert (Hcases : (r = 0 /\ g = 0 /\ b = 0) \/ (r = 1 /\ g = 0 /\ b = 0) \/
                   (r = 0 /\ g = 1 /\ b = 0) \/ (r = 0 /\ g = 0 /\ b = 1))
    by lia.
  destruct Hcases as [(-> & -> & ->)|[(-> & -> & ->)|[(-> & -> & ->)|(-> & -> & ->)]]];
    vm_compute in Hin; discriminate.
Qed.

Lemma pixels_bytes (k : nat) : forall data : list Z,
  (length data <= 4 * k)%nat -> Forall byte data ->
  Forall bytePixel (pixels data).
Proof.
  induction k as [|k IH]; intros data Hlen Hall;
    destruct data as [|r [|g [|b [|x rest]]]]; cbn [pixels];
    try constructor; try (simpl in Hlen; lia).
  - apply Forall_cons in Hall as [Hr Hall].
    apply Forall_cons in Hall as [Hg Hall].
    apply Forall_cons in Hall as [Hb _]. split; [|split]; assumption.
  - apply IH; [simpl in Hlen; lia|].
    do 4 (apply Forall_cons in Hall as [_ Hall]). exact Hall.
Qed.

Lemma valid_weight (ps : list (Z * Z * Z)) :
  Forall bytePixel ps ->
  2 * Z.of_nat (length (List.filter (inLuma 10 245) ps))
  <= sumZ (redOf <$> List.filter (inLuma 10 245) ps)
     + sumZ (greenOf <$> List.filter (inLuma 10 245) ps)
     + sumZ (blueOf <$> List.filter (inLuma 10 245) ps).
Proof.
  induction 1 as [|[[r g] b] ps (Hr & Hg & Hb) _ IH]; [cbn; lia|].
  cbn [List.filter]. destruct (inLuma 10 245 (r, g, b)) eqn:E; [|exact IH].
  apply inLuma_bright in E; [|assumption..].
  cbn [length fmap list_fmap sumZ foldr redOf greenOf blueOf fst snd].
  fold (sumZ (redOf <$> List.filter (inLuma 10 245) ps)).
  fold (sumZ (greenOf <$> List.filter (inLuma 10 245) ps)).
  fold (sumZ (blueOf <$> List.filter (inLuma 10 245) ps)).
  lia.
Qed.

(** The rounded average in integer arithmetic. *)
Lemma Math_round_div (s m : Z) :
  0 < m ->
  Math_round (inject_Z s / inject_Z m) = inject_Z ((2 * s + m) / (2 * m)).
Proof.
  intros Hm. unfold Math_round. f_equal. rewrite Zdiv_Qdiv.
  apply Qfloor_comp. rewrite !inject_Z_plus, !inject_Z_mult.
  change (inject_Z 2) with 2%Q. field.
  intros H0. assert (m = 0) by (apply inject_Z_injective; exact H0). lia.
Qed.

Lemma average_positive (s m : Z) :
  0 < m -> average (Some s) m = Some (inject_Z ((2 * s + m) / (2 * m))).
Proof.
  intros Hm. unfold average.
  destruct (Z.eqb_spec m 0) as [->|_]; [lia|].
  rewrite Math_round_div by exact Hm. reflexivity.
Qed.

Lemma sumZ_nonneg (l : list Z) : Forall (fun x => 0 <= x) l -> 0 <= sumZ l.
Proof. induction 1; cbn; [lia|]. fold (sumZ l). lia. Qed.

Lemma luma_weights_value :
  (double (2126 # 10000) == 1914930561557935 # 9007199254740992)%Q /\
  (double (7152 # 10000) == 6441948906990757 # 9007199254740992)%Q /\
  (double (722 # 10000) == 5202558289538397 # 72057594037927936)%Q.
Proof. split; [|split]; vm_compute; reflexivity. Qed.

Lemma byte_Q (k : Z) : byte k -> (0 <= inject_Z k)%Q /\ (inject_Z k <= 255)%Q.
Proof.
  unfold byte. intros Hk. split.
  - change 0%Q with (inject_Z 0). rewrite <- Zle_Qle. lia.
  - change 255%Q with (inject_Z 255). rewrite <- Zle_Qle. lia.
Qed.

Lemma weighted_sum_near (c1 c2 c3 R G B : Q) :
  (c1 == 1914930561557935 # 9007199254740992)%Q ->
  (c2 == 6441948906990757 # 9007199254740992)%Q ->
  (c3 == 5202558289538397 # 72057594037927936)%Q ->
  (0 <= R)%Q -> (R <= 255)%Q -> (0 <= G)%Q -> (G <= 255)%Q ->
  (0 <= B)%Q -> (B <= 255)%Q ->
  ((2126 # 10000) * R + (7152 # 10000) * G + (722 # 10000) * B
   - (1 # 1000000) <= fadd (fadd (fmul c1 R) (fmul c2 G)) (fmul c3 B))%Q /\
  (fadd (fadd (fmul c1 R) (fmul c2 G)) (fmul c3 B)
   <= (2126 # 10000) * R + (7152 # 10000) * G + (722 # 10000) * B
      + (1 # 1000000))%Q.
Proof.
  intros E1 E2 E3 R0 R1 G0 G1 B0 B1.
  destruct eta_small as [He0 He1].
  unfold fadd, fmul.
  assert (Ea1 : (c1 * R == (1914930561557935 # 9007199254740992) * R)%Q)
    by (rewrite E1; reflexivity).
  assert (Ea2 : (c2 * G == (6441948906990757 # 9007199254740992) * G)%Q)
    by (rewrite E2; reflexivity).
  assert (Ea3 : (c3 * B == (5202558289538397 # 72057594037927936) * B)%Q)
    by (rewrite E3; reflexivity).
  set (a1 := (c1 * R)%Q) in *. set (a2 := (c2 * G)%Q) in *.
  set (a3 := (c3 * B)%Q) in *. clearbody a1 a2 a3.
  destruct (double_err_lit a1) as [L1 R1']; [lra|].
  destruct (double_err_lit a2) as [L2 R2']; [lra|].
  destruct (double_err_lit a3) as [L3 R3']; [lra|].
  pose proof (double_nonneg a1) as N1. pose proof (double_nonneg a2) as N2.
  pose proof (double_nonneg a3) as N3.
  pose proof (double_nonneg (double a1 + double a2)) as N4.
  set (t1 := double a1) in *. set (t2 := double a2) in *.
  set (t3 := double a3) in *. clearbody t1 t2 t3.
  destruct (double_err_lit (t1 + t2)) as [L4 R4]; [lra|].
  set (s1 := double (t1 + t2)) in *. clearbody s1.
  destruct (double_err_lit (s1 + t3)) as [L5 R5]; [lra|].
  set (s2 := double (s1 + t3)) in *. clearbody s2.
  split; lra.
Qed.

(** On bytes the luma of the source is the luma of the specification up
    to the roundings, less than [10^-6]. *)
Lemma lumaOf_near r g b :
  byte r -> byte g -> byte b ->
  (SamplerSpec.luma r g b - (1 # 1000000) <= lumaOf r g b)%Q /\
  (lumaOf r g b <= SamplerSpec.luma r g b + (1 # 1000000))%Q.
Proof.
  intros Hr Hg Hb.
  destruct (byte_Q r Hr) as [R0 R1]. destruct (byte_Q g Hg) as [G0 G1].
  destruct (byte_Q b Hb) as [B0 B1].
  destruct luma_weights_value as (E1 & E2 & E3).
  exact (weighted_sum_near _ _ _ _ _ _ E1 E2 E3 R0 R1 G0 G1 B0 B1).
Qed.

Lemma luma_scaled r g b :
  (SamplerSpec.luma r g b
   == inject_Z (1063 * r + 3576 * g + 361 * b) / 5000)%Q.
Proof.
  unfold SamplerSpec.luma. rewrite !inject_Z_plus, !inject_Z_mult.
  change (inject_Z 1063) with 1063%Q. change (inject_Z 3576) with 3576%Q.
  change (inject_Z 361) with 361%Q. field.
Qed.

Lemma luma_times_5000 r g b :
  (SamplerSpec.luma r g b * 5000
   == inject_Z (1063 * r + 3576 * g + 361 * b))%Q.
Proof. rewrite luma_scaled. field. Qed.

(** The byte triples on a given level of the exact luma, by enumeration
    of red and green. *)
Lemma byte_solutions (K : Z) (ok : Z -> Z -> Z -> bool) :
  forallb (fun g =>
    forallb (fun r =>
      let rest := K - 1063 * r - 3576 * g in
      if (0 <=? rest) && (rest mod 361 =? 0) && (rest / 361 <=? 255)
      then ok r g (rest / 361) else true) (seqZ 0 256)) (seqZ 0 256) = true ->
  forall r g b, byte r -> byte g -> byte b ->
    1063 * r + 3576 * g + 361 * b = K -> ok r g b = true.
Proof.
  unfold byte. intros Hall r g b Hr Hg Hb Hk.
  rewrite forallb_forall in Hall.
  assert (Hgin : In g (seqZ 0 256))
    by (apply list_elem_of_In, elem_of_seqZ; lia).
  specialize (Hall g Hgin). rewrite forallb_forall in Hall.
  assert (Hrin : In r (seqZ 0 256))
    by (apply list_elem_of_In, elem_of_seqZ; lia).
  specialize (Hall r Hrin). cbv zeta in Hall.
  replace (K - 1063 * r - 3576 * g) with (b * 361) in Hall by lia.
  rewrite Z.mod_mul, Z.div_mul in Hall by lia.
  replace (0 <=? b * 361) with true in Hall by (symmetry; apply Z.leb_le; lia).
  replace (b <=? 255) with true in Hall by (symmetry; apply Z.leb_le; lia).
  exact Hall.
Qed.

Lemma inLuma_on_10 r g b :
  byte r -> byte g -> byte b -> 1063 * r + 3576 * g + 361 * b = 50000 ->
  inLuma 10 245 (r, g, b) = negb ((r =? 10) && (g =? 10) && (b =? 10)).
Proof.
  intros Hr Hg Hb Hk. apply Bool.eqb_prop.
  apply (byte_solutions 50000
           (fun r g b => Bool.eqb (inLuma 10 245 (r, g, b))
                           (negb ((r =? 10) && (g =? 10) && (b =? 10)))));
    [vm_compute; reflexivity | assumption..].
Qed.

Lemma inLuma_on_245 r g b :
  byte r -> byte g -> byte b -> 1063 * r + 3576 * g + 361 * b = 1225000 ->
  inLuma 10 245 (r, g, b) = true.
Proof.
  intros Hr Hg Hb Hk.
  apply (byte_solutions 1225000 (fun r g b => inLuma 10 245 (r, g, b)));
    [vm_compute; reflexivity | assumption..].
Qed.

(** On bytes the pixels the full scan keeps are those whose exact luma is
    in [10,245], the grey (10,10,10) excepted. *)
Lemma inLuma_exact r g b :
  byte r -> byte g -> byte b ->
  (inLuma 10 245 (r, g, b) = true <->
   (10 <= SamplerSpec.luma r g b)%Q /\ (SamplerSpec.luma r g b <= 245)%Q /\
   (r, g, b) <> (10, 10, 10)).
Proof.
  intros Hr Hg Hb.
  destruct (lumaOf_near r g b Hr Hg Hb) as [Nlo Nhi].
  pose proof (luma_times_5000 r g b) as Hs.
  pose proof (inLuma_spec 10 245 r g b) as Hin.
  set (k := 1063 * r + 3576 * g + 361 * b) in *.
  assert (Hk10 : (r, g, b) = (10, 10, 10) -> k = 50000)
    by (intros [= -> -> ->]; reflexivity).
  destruct (Z.lt_trichotomy k 50000) as [Hlt|[Heq|Hgt]].
  - assert (Hq : (inject_Z k <= 49999)%Q)
      by (change 49999%Q with (inject_Z 49999); rewrite <- Zle_Qle; lia).
    split.
    + intros H. apply Hin in H. lra.
    + intros (H & _). lra.
  - rewrite (inLuma_on_10 r g b Hr Hg Hb Heq).
    assert (Hq : (inject_Z k == 50000)%Q) by (rewrite Heq; reflexivity).
    destruct ((r =? 10) && (g =? 10) && (b =? 10)) eqn:E; cbn [negb].
    + apply andb_true_iff in E as [E Eb]. apply andb_true_iff in E as [Er Eg].
      apply Z.eqb_eq in Er, Eg, Eb. subst r g b.
      split; [discriminate|]. intros (_ & _ & Hne). contradiction.
    + split; [|reflexivity]. intros _. split; [lra|]. split; [lra|].
      intros [= -> -> ->]. discriminate.
  - destruct (Z.lt_trichotomy k 1225000) as [Hlt|[Heq|Hgt']].
    + assert (Hq : (50001 <= inject_Z k)%Q /\ (inject_Z k <= 1224999)%Q).
      { change 50001%Q with (inject_Z 50001).
        change 1224999%Q with (inject_Z 1224999).
        rewrite <- !Zle_Qle. lia. }
      split.
      * intros _. split; [lra|]. split; [lra|]. intros H. apply Hk10 in H. lia.
      * intros _. apply Hin. lra.
    + rewrite (inLuma_on_245 r g b Hr Hg Hb Heq).
      assert (Hq : (inject_Z k == 1225000)%Q) by (rewrite Heq; reflexivity).
      split; [|reflexivity]. intros _. split; [lra|]. split; [lra|].
      intros H. apply Hk10 in H. lia.
    + assert (Hq : (1225001 <= inject_Z k)%Q)
        by (change 1225001%Q with (inject_Z 1225001); rewrite <- Zle_Qle; lia).
      split.
      * intros H. apply Hin in H. lra.
      * intros (_ & H & _). lra.
Qed.

(** C7. When the scan of the region of interest finds fewer than 50
    pixels inside the configured luma bounds, its sums are dropped and the
    whole buffer is scanned with the bounds [10,245].  The pixels this scan
    keeps are those whose luma, as the source computes it in doubles, is in
    [10,245]: the pixels whose exact luma is in [10,245] except the grey
    (10,10,10).  If the frame has at least 50 of them, the sample is the
    rounded average of those pixels channel by channel, its count is
    positive and it is not (0,0,0).  The buffer is the 300x300 canvas, four
    bytes per pixel. *)
Theorem sampler_fallback (data : list Z) (options : AnalyzeOptions) :
  Z.of_nat (length data) = W * H * 4 -> Forall byte data ->
  n (roiScan data options) < 50 ->
  let valid := fullFrameValid data in
  let count := Z.of_nat (length valid) in
  let avg (c : Z * Z * Z -> Z) :=
    Math_round (inject_Z (sumZ (c <$> valid)) / inject_Z count) in
  scan data options = fullScan data acc0 /\
  scan data options =
    mkAcc (Some (sumZ (redOf <$> valid))) (Some (sumZ (greenOf <$> valid)))
          (Some (sumZ (blueOf <$> valid))) count /\
  (forall r g b,
     (r, g, b) ∈ valid <->
     (r, g, b) ∈ pixels data /\
     (10 <= lumaOf r g b)%Q /\ (lumaOf r g b <= 245)%Q) /\
  (forall r g b,
     (r, g, b) ∈ valid <->
     (r, g, b) ∈ pixels data /\
     (10 <= SamplerSpec.luma r g b)%Q /\ (SamplerSpec.luma r g b <= 245)%Q /\
     (r, g, b) <> (10, 10, 10)) /\
  (50 <= count ->
   0 < n (scan data options) /\
   sampleRGB data options
     = (Some (avg redOf), Some (avg greenOf), Some (avg blueOf)) /\
   sampleRGB data options <> (Some 0%Q, Some 0%Q, Some 0%Q) /\
   analyzeImageForHSV data options
     = Some (Color.rgbToHsvDeg (avg redOf) (avg greenOf) (avg blueOf),
             avg blueOf)).
Proof.
  intros Hlen Hbytes Hroi. cbv zeta.
  assert (Hscan : scan data options = fullScan data acc0).
  { unfold scan. destruct (Z.ltb_spec (n (roiScan data options)) 50); [reflexivity|lia]. }
  assert (Hfull : fullScan data acc0 =
            mkAcc (Some (sumZ (redOf <$> fullFrameValid data)))
                  (Some (sumZ (greenOf <$> fullFrameValid data)))
                  (Some (sumZ (blueOf <$> fullFrameValid data)))
                  (Z.of_nat (length (fullFrameValid data)))).
  { rewrite (fullScan_pixels (Z.to_nat (W * H)) data acc0 0 0 0);
      [reflexivity | | reflexivity..].
    unfold W, H in *. lia. }
  split; [exact Hscan|]. split; [rewrite Hscan; exact Hfull|].
  assert (Hpix : Forall bytePixel (pixels data)).
  { apply (pixels_bytes (Z.to_nat (W * H))); [|exact Hbytes].
    unfold W, H in *. lia. }
  split.
  { intros r g b. unfold fullFrameValid.
    rewrite !list_elem_of_In, filter_In, inLuma_spec. reflexivity. }
  split.
  { intros r g b. unfold fullFrameValid.
    rewrite !list_elem_of_In, filter_In. split.
    - intros [Hin Hl]. split; [exact Hin|].
      rewrite Forall_forall in Hpix. apply list_elem_of_In in Hin.
      destruct (Hpix _ Hin) as (Hr & Hg & Hb).
      apply inLuma_exact; assumption.
    - intros [Hin Hl]. split; [exact Hin|].
      rewrite Forall_forall in Hpix. apply list_elem_of_In in Hin.
      destruct (Hpix _ Hin) as (Hr & Hg & Hb).
      apply inLuma_exact; assumption. }
  intros Hcount.
  set (m := Z.of_nat (length (fullFrameValid data))) in *.
  assert (Hm : 0 < m) by lia.
  assert (Hsample : sampleRGB data options =
            (Some (Math_round (inject_Z (sumZ (redOf <$> fullFrameValid data)) / inject_Z m)),
             Some (Math_round (inject_Z (sumZ (greenOf <$> fullFrameValid data)) / inject_Z m)),
             Some (Math_round (inject_Z (sumZ (blueOf <$> fullFrameValid data)) / inject_Z m)))).
  { unfold sampleRGB. rewrite Hscan, Hfull. cbn [rSum gSum bSum n].
    unfold average. destruct (Z.eqb_spec m 0) as [E|_]; [lia|]. reflexivity. }
  split; [rewrite Hscan, Hfull; exact Hm|].
  split; [exact Hsample|].
  split.
  - rewrite Hsample, !Math_round_div by exact Hm. intros Hzero.
    injection Hzero as Hr Hg Hb.
    assert (Hw := valid_weight (pixels data) Hpix).
    fold (fullFrameValid data) in Hw. fold m in Hw.
    apply Z.div_small_iff in Hr; [|lia].
    apply Z.div_small_iff in Hg; [|lia].
    apply Z.div_small_iff in Hb; [|lia].
    lia.
  - unfold analyzeImageForHSV. rewrite Hsample. reflexivity.
Qed.

(** *** A uniform canvas *)

Lemma foldl_fixed {A B} (f : A -> B -> A) (l : list B) (a : A) :
  (forall x, x ∈ l -> f a x = a) -> foldl f a l = a.
Proof.
  induction l as [|x l IH]; intros Hf; [reflexivity|].
  cbn [foldl]. rewrite (Hf x) by (apply elem_of_cons; left; reflexivity).
  apply IH. intros y Hy. apply Hf, elem_of_cons. right. exact Hy.
Qed.

(** The region scan keeps nothing when every pixel of the region is
    outside the bounds. *)
Lemma roiScan_all_outside (data : list Z) (options : AnalyzeOptions) :
  (forall y x,
     y ∈ seqZ ((H - Qfloor (inject_Z H * roiRatio options)) / 2)
              (Qfloor (inject_Z H * roiRatio options)) ->
     x ∈ seqZ ((W - Qfloor (inject_Z W * roiRatio options)) / 2)
              (Qfloor (inject_Z W * roiRatio options)) ->
     outside (luma (at_ data ((y * W + x) * 4))
                   (at_ data ((y * W + x) * 4 + 1))
                   (at_ data ((y * W + x) * 4 + 2)))
             (minLuma options) (maxLuma options) = true) ->
  roiScan data options = acc0.
Proof.
  intros Hout. unfold roiScan. apply foldl_fixed. intros y Hy.
  apply foldl_fixed. intros x Hx. unfold accumulate.
  rewrite (Hout y x Hy Hx). reflexivity.
Qed.

Lemma uniform_lookup (p : list Z) (m k j : nat) :
  (k < m)%nat -> (j < length p)%nat ->
  concat (repeat p m) !! (k * length p + j)%nat = p !! j.
Proof.
  revert k. induction m as [|m IH]; intros k Hk Hj; [lia|].
  cbn [repeat concat]. destruct k as [|k].
  - rewrite lookup_app_l by (simpl; lia). reflexivity.
  - rewrite lookup_app_r by (simpl; lia).
    replace (S k * length p + j - length p)%nat
      with (k * length p + j)%nat by lia.
    apply IH; lia.
Qed.

Lemma at_uniform (r g b : Z) (i j : Z) :
  0 <= i < W * H -> 0 <= j < 4 ->
  at_ (uniformImage r g b) (i * 4 + j) = [r; g; b; 255] !! Z.to_nat j.
Proof.
  intros Hi Hj. unfold at_, uniformImage.
  destruct (Z.ltb_spec (i * 4 + j) 0); [lia|].
  replace (Z.to_nat (i * 4 + j))
    with (Z.to_nat i * length [r; g; b; 255%Z] + Z.to_nat j)%nat
    by (simpl; lia).
  apply uniform_lookup; simpl; lia.
Qed.

Lemma pixels_uniform (r g b d : Z) (m : nat) :
  pixels (concat (repeat [r; g; b; d] m)) = repeat (r, g, b) m.
Proof.
  induction m as [|m IH]; [reflexivity|].
  cbn [repeat concat app pixels]. rewrite IH. reflexivity.
Qed.

Lemma fullFrameValid_uniform (r g b : Z) :
  inLuma 10 245 (r, g, b) = true ->
  fullFrameValid (uniformImage r g b) = repeat (r, g, b) (Z.to_nat (W * H)).
Proof.
  intros Hin. unfold fullFrameValid, uniformImage. rewrite pixels_uniform.
  induction (Z.to_nat (W * H)) as [|m IH]; [reflexivity|].
  cbn [repeat List.filter]. rewrite Hin, IH. reflexivity.
Qed.

Lemma uniformImage_length (r g b : Z) :
  Z.of_nat (length (uniformImage r g b)) = W * H * 4.
Proof.
  unfold uniformImage.
  assert (Hlen : forall m, length (concat (repeat [r; g; b; 255] m)) = (4 * m)%nat).
  { induction m as [|m IH]; [reflexivity|].
    cbn [repeat concat]. rewrite length_app, IH. simpl. lia. }
  rewrite Hlen. unfold W, H. lia.
Qed.

Lemma roiScan_uniform_dark (r g b : Z) :
  (lumaOf r g b < 15)%Q -> roiScan (uniformImage r g b) ANALYZE_OPTIONS = acc0.
Proof.
  intros Hdark. apply roiScan_all_outside.
  change (Qfloor (inject_Z H * roiRatio ANALYZE_OPTIONS)) with 150.
  change (Qfloor (inject_Z W * roiRatio ANALYZE_OPTIONS)) with 150.
  change ((H - 150) / 2) with 75. change ((W - 150) / 2) with 75.
  intros y x Hy Hx. apply elem_of_seqZ in Hy, Hx.
  assert (Hi : 0 <= y * W + x < W * H) by (unfold W, H; lia).
  pose proof (at_uniform r g b (y * W + x) 0 Hi ltac:(lia)) as H0.
  rewrite Z.add_0_r in H0. rewrite H0.
  rewrite (at_uniform r g b (y * W + x) 1 Hi) by lia.
  rewrite (at_uniform r g b (y * W + x) 2 Hi) by lia.
  cbn [lookup list_lookup Z.to_nat Pos.to_nat Pos.iter_op Nat.add luma outside
       minLuma maxLuma ANALYZE_OPTIONS].
  apply orb_true_iff. left. apply ltb_lt. exact Hdark.
Qed.

Lemma fullFrameValid_uniform_out (r g b : Z) :
  inLuma 10 245 (r, g, b) = false -> fullFrameValid (uniformImage r g b) = [].
Proof.
  intros Hout. unfold fullFrameValid, uniformImage. rewrite pixels_uniform.
  induction (Z.to_nat (W * H)) as [|m IH]; [reflexivity|].
  cbn [repeat List.filter]. rewrite Hout. exact IH.
Qed.

Lemma uniformImage_bytes (r g b : Z) :
  byte r -> byte g -> byte b -> Forall byte (uniformImage r g b).
Proof.
  intros Hr Hg Hb. unfold uniformImage.
  induction (Z.to_nat (W * H)) as [|m IH]; [constructor|].
  cbn [repeat concat app]. repeat (constructor; [assumption|]).
  constructor; [unfold byte; lia | exact IH].
Qed.

End SamplerFacts.

(** A uniformly dark frame, luma 12: outside the bounds [15,245] of the
    region scan, inside the bounds [10,245] of the full scan. *)
Lemma sampler_fallback_witness :
  Z.of_nat (length (uniformImage 12 12 12)) = (Sampler.W * Sampler.H * 4)%Z /\
  (Sampler.n (Sampler.roiScan (uniformImage 12 12 12) Sampler.ANALYZE_OPTIONS)
   < 50)%Z /\
  (50 <= Z.of_nat (length (Sampler.fullFrameValid (uniformImage 12 12 12))))%Z /\
  Sampler.scan (uniformImage 12 12 12) Sampler.ANALYZE_OPTIONS
    = Sampler.fullScan (uniformImage 12 12 12) Sampler.acc0 /\
  Sampler.sampleRGB (uniformImage 12 12 12) Sampler.ANALYZE_OPTIONS
    <> (Some 0, Some 0, Some 0).
Proof.
  assert (Hlen := uniformImage_length 12 12 12).
  assert (Hroi : (Sampler.n (Sampler.roiScan (uniformImage 12 12 12)
                               Sampler.ANALYZE_OPTIONS) < 50)%Z).
  { rewrite roiScan_uniform_dark by (vm_compute; reflexivity). reflexivity. }
  assert (Hcount : (50 <= Z.of_nat (length (Sampler.fullFrameValid
                                              (uniformImage 12 12 12))))%Z).
  { rewrite fullFrameValid_uniform by (vm_compute; reflexivity).
    rewrite repeat_length. unfold Sampler.W, Sampler.H. lia. }
  split; [exact Hlen|]. split; [exact Hroi|]. split; [exact Hcount|].
  assert (Hbytes : Forall Sampler.byte (uniformImage 12 12 12))
    by (apply uniformImage_bytes; unfold Sampler.byte; lia).
  destruct (sampler_fallback (uniformImage 12 12 12) Sampler.ANALYZE_OPTIONS
              Hlen Hbytes Hroi) as (Hscan & _ & _ & _ & Hsample).
  split; [exact Hscan|].
  destruct (Hsample Hcount) as (_ & _ & Hne & _). exact Hne.
Defined.

(** A frame of the grey (10,10,10): every pixel has the exact luma 10,
    inside [10,245], and the sampler keeps none of them, because it
    computes the luma 9.999999999999998; the sample is the degenerate
    (0,0,0) with count 0. *)
Lemma sampler_skips_grey_10 :
  Forall (fun p =>
            10 <= SamplerSpec.luma (Sampler.redOf p) (Sampler.greenOf p)
                    (Sampler.blueOf p) /\
            SamplerSpec.luma (Sampler.redOf p) (Sampler.greenOf p)
              (Sampler.blueOf p) <= 245)
         (Sampler.pixels (uniformImage 10 10 10)) /\
  (50 <= Z.of_nat (length (Sampler.pixels (uniformImage 10 10 10))))%Z /\
  (Sampler.n (Sampler.roiScan (uniformImage 10 10 10) Sampler.ANALYZE_OPTIONS)
   < 50)%Z /\
  Sampler.n (Sampler.scan (uniformImage 10 10 10) Sampler.ANALYZE_OPTIONS)
  = 0%Z /\
  Sampler.sampleRGB (uniformImage 10 10 10) Sampler.ANALYZE_OPTIONS
  = (Some 0, Some 0, Some 0).
Proof.
  assert (Hpix : Sampler.pixels (uniformImage 10 10 10)
                 = repeat (10, 10, 10)%Z
                     (Z.to_nat (Sampler.W * Sampler.H)))
    by apply pixels_uniform.
  assert (Hroi : Sampler.roiScan (uniformImage 10 10 10)
                   Sampler.ANALYZE_OPTIONS = Sampler.acc0)
    by (apply roiScan_uniform_dark; vm_compute; reflexivity).
  assert (Hscan : Sampler.scan (uniformImage 10 10 10)
                    Sampler.ANALYZE_OPTIONS
                  = Sampler.mkAcc (Some 0%Z) (Some 0%Z) (Some 0%Z) 0).
  { unfold Sampler.scan. rewrite Hroi.
    cbn [Sampler.n Sampler.acc0 Z.ltb Z.compare].
    rewrite (fullScan_pixels (Z.to_nat (Sampler.W * Sampler.H))
               _ Sampler.acc0 0 0 0);
      [| pose proof (uniformImage_length 10 10 10);
         unfold Sampler.W, Sampler.H in *; lia
       | reflexivity..].
    rewrite fullFrameValid_uniform_out by (vm_compute; reflexivity).
    reflexivity. }
  split; [|split; [|split; [|split]]].
  - rewrite Hpix. apply Forall_forall. intros p Hp.
    apply list_elem_of_In, repeat_spec in Hp. subst p.
    split; vm_compute; discriminate.
  - rewrite Hpix, repeat_length. unfold Sampler.W, Sampler.H. lia.
  - rewrite Hroi. reflexivity.
  - rewrite Hscan. reflexivity.
  - unfold Sampler.sampleRGB. rewrite Hscan. reflexivity.
Qed.

(** ** More on the colour conversion *)

Section ColorRange.
Local Open Scope Q_scope.

Lemma Qtruncate_small (y : Q) : -1 < y -> y < 1 -> Qtruncate y = 0%Z.
Proof.
  destruct y as [p q]. unfold Qlt, Qtruncate. cbn [Qnum Qden]. intros Hlo Hhi.
  destruct (Z_lt_le_dec p 0) as [Hneg|Hpos].
  - replace p with (- - p)%Z by lia. rewrite Z.quot_opp_l by lia.
    rewrite Z.quot_small by lia. reflexivity.
  - apply Z.quot_small. lia.
Qed.

Lemma rem_small (x : Q) : -1 <= x -> x <= 1 -> rem x 6 == x.
Proof.
  intros Hlo Hhi. unfold rem. rewrite Qtruncate_small.
  - change (inject_Z 0) with 0. ring.
  - apply Qlt_shift_div_l; lra.
  - apply Qlt_shift_div_r; lra.
Qed.

Lemma ratio_bounds (a d : Q) : 0 < d -> - d <= a -> a <= d ->
  -1 <= a / d /\ a / d <= 1.
Proof.
  intros Hd Hlo Hhi. split.
  - apply Qle_shift_div_l; lra.
  - apply Qle_shift_div_r; lra.
Qed.

Lemma max3_bounds (r g b : Q) :
  r <= Math_max3 r g b /\ g <= Math_max3 r g b /\ b <= Math_max3 r g b /\
  Math_min3 r g b <= r /\ Math_min3 r g b <= g /\ Math_min3 r g b <= b.
Proof.
  unfold Math_max3, Math_min3, Math_max, Math_min.
  pose proof (Q.le_max_l r g). pose proof (Q.le_max_r r g).
  pose proof (Q.le_max_l (Qmax r g) b). pose proof (Q.le_max_r (Qmax r g) b).
  pose proof (Q.le_min_l r g). pose proof (Q.le_min_r r g).
  pose proof (Q.le_min_l (Qmin r g) b). pose proof (Q.le_min_r (Qmin r g) b).
  repeat split; lra.
Qed.

Lemma max3_upper (r g b c : Q) :
  r <= c -> g <= c -> b <= c -> Math_max3 r g b <= c.
Proof.
  intros. unfold Math_max3, Math_max. repeat apply Q.max_lub; assumption.
Qed.

Lemma min3_lower (r g b c : Q) :
  c <= r -> c <= g -> c <= b -> c <= Math_min3 r g b.
Proof.
  intros. unfold Math_min3, Math_min. repeat apply Q.min_glb; assumption.
Qed.

Lemma rgbToHsvDeg_in_range (R G B : Q) :
  0 <= R -> R <= 255 -> 0 <= G -> G <= 255 -> 0 <= B -> B <= 255 ->
  0 <= hsv_h (rgbToHsvDeg R G B) /\ hsv_h (rgbToHsvDeg R G B) < 360 /\
  0 <= hsv_s (rgbToHsvDeg R G B) /\ hsv_s (rgbToHsvDeg R G B) <= 100 /\
  0 <= hsv_v (rgbToHsvDeg R G B) /\ hsv_v (rgbToHsvDeg R G B) <= 100.
Proof.
  intros HR0 HR1 HG0 HG1 HB0 HB1.
  unfold rgbToHsvDeg. cbn [hsv_h hsv_s hsv_v].
  set (r := R / 255). set (g := G / 255). set (b := B / 255).
  assert (Hr : 0 <= r /\ r <= 1)
    by (split; [apply Qle_shift_div_l | apply Qle_shift_div_r]; lra).
  assert (Hg : 0 <= g /\ g <= 1)
    by (split; [apply Qle_shift_div_l | apply Qle_shift_div_r]; lra).
  assert (Hb : 0 <= b /\ b <= 1)
    by (split; [apply Qle_shift_div_l | apply Qle_shift_div_r]; lra).
  destruct (max3_bounds r g b) as (M1 & M2 & M3 & m1 & m2 & m3).
  pose proof (max3_upper r g b 1 (proj2 Hr) (proj2 Hg) (proj2 Hb)) as Mu.
  pose proof (min3_lower r g b 0 (proj1 Hr) (proj1 Hg) (proj1 Hb)) as ml.
  set (mx := Math_max3 r g b) in *. set (mn := Math_min3 r g b) in *.
  assert (Hhue :
    0 <= (if negb (eqb (mx - mn) 0)
          then if ltb ((if eqb mx r then rem ((g - b) / (mx - mn)) 6
                        else if eqb mx g then (b - r) / (mx - mn) + 2
                        else (r - g) / (mx - mn) + 4) * 60) 0
               then (if eqb mx r then rem ((g - b) / (mx - mn)) 6
                     else if eqb mx g then (b - r) / (mx - mn) + 2
                     else (r - g) / (mx - mn) + 4) * 60 + 360
               else (if eqb mx r then rem ((g - b) / (mx - mn)) 6
                     else if eqb mx g then (b - r) / (mx - mn) + 2
                     else (r - g) / (mx - mn) + 4) * 60
          else 0) /\
    (if negb (eqb (mx - mn) 0)
          then if ltb ((if eqb mx r then rem ((g - b) / (mx - mn)) 6
                        else if eqb mx g then (b - r) / (mx - mn) + 2
                        else (r - g) / (mx - mn) + 4) * 60) 0
               then (if eqb mx r then rem ((g - b) / (mx - mn)) 6
                     else if eqb mx g then (b - r) / (mx - mn) + 2
                     else (r - g) / (mx - mn) + 4) * 60 + 360
               else (if eqb mx r then rem ((g - b) / (mx - mn)) 6
                     else if eqb mx g then (b - r) / (mx - mn) + 2
                     else (r - g) / (mx - mn) + 4) * 60
          else 0) < 360).
  { destruct (eqb (mx - mn) 0) eqn:Ed; cbn [negb]; [lra|].
    apply Qeq_bool_neq in Ed.
    assert (Hd : 0 < mx - mn).
    { destruct (Qlt_le_dec 0 (mx - mn)) as [H|H]; [exact H|].
      exfalso. apply Ed. lra. }
    destruct (ratio_bounds (g - b) (mx - mn) Hd) as [A1 A2]; [lra..|].
    destruct (ratio_bounds (b - r) (mx - mn) Hd) as [B1 B2]; [lra..|].
    destruct (ratio_bounds (r - g) (mx - mn) Hd) as [C1 C2]; [lra..|].
    pose proof (rem_small _ A1 A2) as Hrem.
    set (x := (g - b) / (mx - mn)) in *.
    set (y := (b - r) / (mx - mn)) in *.
    set (z := (r - g) / (mx - mn)) in *.
    destruct (eqb mx r); [|destruct (eqb mx g)].
    - destruct (ltb (rem x 6 * 60) 0) eqn:El; js_bool_hyps; lra.
    - destruct (ltb ((y + 2) * 60) 0) eqn:El; js_bool_hyps; lra.
    - destruct (ltb ((z + 4) * 60) 0) eqn:El; js_bool_hyps; lra. }
  split; [exact (proj1 Hhue)|]. split; [exact (proj2 Hhue)|].
  assert (Hsat : 0 <= (if eqb mx 0 then 0 else (mx - mn) / mx)
                 /\ (if eqb mx 0 then 0 else (mx - mn) / mx) <= 1).
  { destruct (eqb mx 0) eqn:E0; [lra|].
    apply Qeq_bool_neq in E0.
    assert (Hmx : 0 < mx).
    { destruct (Qlt_le_dec 0 mx) as [H|H]; [exact H|]. exfalso. apply E0. lra. }
    split; [apply Qle_shift_div_l | apply Qle_shift_div_r]; lra. }
  repeat split; lra.
Qed.



End ColorRange.

(** ** More on the classifiers and the context adjuster *)

Section ClassifierFacts.
Local Open Scope Q_scope.

Lemma achromatic_hue_saturation (R : Q) :
  hsv_h (rgbToHsvDeg R R R) = 0 /\ hsv_s (rgbToHsvDeg R R R) == 0.
Proof.
  assert (Hmax : Math_max3 (R / 255) (R / 255) (R / 255) == R / 255).
  { unfold Math_max3, Math_max. rewrite !Q.max_id. reflexivity. }
  assert (Hmin : Math_min3 (R / 255) (R / 255) (R / 255) == R / 255).
  { unfold Math_min3, Math_min. rewrite !Q.min_id. reflexivity. }
  assert (Hd : Math_max3 (R / 255) (R / 255) (R / 255)
               - Math_min3 (R / 255) (R / 255) (R / 255) == 0)
    by (rewrite Hmax, Hmin; ring).
  unfold rgbToHsvDeg. cbn [hsv_h hsv_s]. split.
  - assert (Hdb : eqb (Math_max3 (R / 255) (R / 255) (R / 255)
                       - Math_min3 (R / 255) (R / 255) (R / 255)) 0 = true)
      by (apply Qeq_bool_iff, Hd).
    rewrite Hdb. reflexivity.
  - destruct (eqb (Math_max3 (R / 255) (R / 255) (R / 255)) 0) eqn:E0;
      [ring|].
    rewrite Hd. field. apply Qeq_bool_neq, E0.
Qed.

(** A grey sample, the black one of an unusable frame included, is put in
    the highest glucose level and gets no pH. *)
Theorem achromatic_is_danger_without_ph (R : Q) :
  classifyByHSV (hsv_h (rgbToHsvDeg R R R)) (hsv_v (rgbToHsvDeg R R R)) = 3%Z /\
  diagnosisText
    (classifyByHSV (hsv_h (rgbToHsvDeg R R R)) (hsv_v (rgbToHsvDeg R R R)))
  = "🟥 포도당이 너무 많아요, 위험해요!" /\
  ph (classifyPHByHSV (hsv_h (rgbToHsvDeg R R R)) (hsv_s (rgbToHsvDeg R R R))
        (hsv_v (rgbToHsvDeg R R R))) = None.
Proof.
  destruct (achromatic_hue_saturation R) as [Hh Hs].
  assert (Hlevel : classifyByHSV (hsv_h (rgbToHsvDeg R R R))
                     (hsv_v (rgbToHsvDeg R R R)) = 3%Z).
  { rewrite Hh. unfold classifyByHSV. js_walk. }
  split; [exact Hlevel|]. split; [rewrite Hlevel; reflexivity|].
  unfold classifyPHByHSV.
  destruct (ltb (hsv_v (rgbToHsvDeg R R R)) 25); [reflexivity|].
  assert (Hsat : ltb (hsv_s (rgbToHsvDeg R R R)) 8 = true)
    by (apply ltb_lt; rewrite Hs; reflexivity).
  rewrite Hsat. reflexivity.
Qed.

(** [clamp] puts a number into [min, max]; a number inside is unchanged,
    and with the bounds the wrong way round the result is [min]. *)
Theorem clamp_spec (v lo hi : Q) :
  (lo <= hi ->
   lo <= clamp v lo hi /\ clamp v lo hi <= hi /\
   (lo <= v -> v <= hi -> clamp v lo hi == v) /\
   (v <= lo -> clamp v lo hi == lo) /\
   (hi <= v -> clamp v lo hi == hi) /\
   clamp (clamp v lo hi) lo hi == clamp v lo hi) /\
  (hi < lo -> clamp v lo hi == lo).
Proof.
  split.
  - intros Hle. destruct (clamp_range v lo hi Hle) as [H1 H2].
    split; [exact H1|]. split; [exact H2|].
    split; [apply clamp_inside|]. split; [apply clamp_below, Hle|].
    split; [apply clamp_above, Hle|]. apply clamp_inside; assumption.
  - intros Hlt. unfold clamp, Math_max, Math_min. apply Q.max_l.
    eapply Qle_trans; [apply Q.le_min_l|]. apply Qlt_le_weak, Hlt.
Qed.




End ClassifierFacts.

(** ** More on the history log *)

Section UpsertFacts.
Import History.
Local Open Scope Z_scope.

Variable getTime : value -> option Z.

Lemma keeps_before_byTimestamp_total (a b : obj) :
  keeps_before (byTimestamp getTime) a b = true \/
  keeps_before (byTimestamp getTime) b a = true.
Proof.
  unfold keeps_before, byTimestamp.
  destruct (timeOf getTime a) as [ta|], (timeOf getTime b) as [tb|]; auto.
  destruct (Z.leb_spec (ta - tb) 0); [left; reflexivity|].
  right. apply Z.leb_le. lia.
Qed.

Lemma sort_insert_Sorted {A} (cmp : A -> A -> option Z) x (l : list A) :
  (forall a b, keeps_before cmp a b = true \/ keeps_before cmp b a = true) ->
  Sorted (fun a b => keeps_before cmp a b = true) l ->
  Sorted (fun a b => keeps_before cmp a b = true) (sort_insert cmp x l).
Proof.
  intros Htotal Hs. induction Hs as [|y l Hs IH Hy]; cbn [sort_insert].
  - repeat constructor.
  - destruct (keeps_before cmp x y) eqn:Exy.
    + repeat constructor; assumption.
    + constructor; [exact IH|].
      destruct l as [|z l]; cbn [sort_insert].
      * constructor. destruct (Htotal x y); congruence.
      * destruct (keeps_before cmp x z).
        -- constructor. destruct (Htotal x y); congruence.
        -- constructor. apply HdRel_inv in Hy. exact Hy.
Qed.

Lemma Array_sort_Sorted {A} (cmp : A -> A -> option Z) (l : list A) :
  (forall a b, keeps_before cmp a b = true \/ keeps_before cmp b a = true) ->
  Sorted (fun a b => keeps_before cmp a b = true) (Array_sort cmp l).
Proof.
  intros Htotal. induction l as [|x l IH]; [constructor|].
  unfold Array_sort in *. cbn [foldr]. apply sort_insert_Sorted; assumption.
Qed.

Lemma Array_sort_fixed {A} (cmp : A -> A -> option Z) (l : list A) :
  Sorted (fun a b => keeps_before cmp a b = true) l -> Array_sort cmp l = l.
Proof.
  induction 1 as [|x l Hs IH Hx]; [reflexivity|].
  unfold Array_sort in *. cbn [foldr]. rewrite IH.
  destruct Hx as [|y l Hxy]; cbn [sort_insert]; [reflexivity|].
  rewrite Hxy. reflexivity.
Qed.

Lemma Array_sort_idempotent (l : list obj) :
  Array_sort (byTimestamp getTime) (Array_sort (byTimestamp getTime) l)
  = Array_sort (byTimestamp getTime) l.
Proof.
  apply Array_sort_fixed, Array_sort_Sorted, keeps_before_byTimestamp_total.
Qed.




(** On a log with one record per date an upsert maps [mergeSameDate] over
    the log, or appends the payload, and sorts. *)
Lemma insert_mergeSameDate (l : list obj) (payload old : obj) i :
  NoDup (dateOf <$> l) -> l !! i = Some old ->
  dateOf old = dateOf payload ->
  <[i := spread old payload]> l = mergeSameDate payload <$> l.
Proof.
  intros Hnd Hi Hd. apply list_eq. intros j.
  rewrite list_lookup_fmap. destruct (decide (i = j)) as [<-|Hij].
  - rewrite list_lookup_insert_eq by (eapply lookup_lt_Some; exact Hi).
    rewrite Hi. cbn. unfold mergeSameDate.
    rewrite decide_True by exact Hd. reflexivity.
  - rewrite list_lookup_insert_ne by exact Hij.
    destruct (l !! j) as [e|] eqn:Hj; [|reflexivity]. cbn. f_equal.
    unfold mergeSameDate. rewrite decide_False; [reflexivity|].
    intros He. apply Hij.
    apply (NoDup_lookup _ i j (dateOf old) Hnd);
      rewrite list_lookup_fmap; [rewrite Hi | rewrite Hj]; cbn; congruence.
Qed.

Lemma upsert_as_map (l : list obj) (payload : obj) :
  NoDup (dateOf <$> l) ->
  upsertHistoryEntry getTime l payload =
  if decide (dateOf payload ∈ dateOf <$> l)
  then Array_sort (byTimestamp getTime) (mergeSameDate payload <$> l)
  else Array_sort (byTimestamp getTime) (l ++ [payload]).
Proof.
  intros Hnd.
  destruct (upsert_cases getTime l payload)
    as [(i & old & Hi & Hd & _ & ->)|[Hall ->]].
  - rewrite decide_True.
    + rewrite (insert_mergeSameDate l payload old i Hnd Hi Hd). reflexivity.
    + rewrite <- Hd. apply list_elem_of_fmap_2.
      eapply list_elem_of_lookup_2, Hi.
  - rewrite decide_False; [reflexivity|].
    intros Hin. apply list_elem_of_fmap in Hin as (e & He & Hin).
    rewrite Forall_forall in Hall. apply (Hall e Hin). symmetry. exact He.
Qed.


Lemma spread_twice (e payload : obj) :
  spread (spread e payload) payload = spread e payload.
Proof.
  unfold spread. rewrite (assoc_L (∪)), (idemp_L (∪)). reflexivity.
Qed.

Lemma spread_self (e : obj) : spread e e = e.
Proof. unfold spread. apply (idemp_L (∪)). Qed.

Lemma mergeSameDate_idem (payload e : obj) :
  mergeSameDate payload (mergeSameDate payload e) = mergeSameDate payload e.
Proof.
  unfold mergeSameDate. destruct (decide (dateOf e = dateOf payload)) as [He|He].
  - rewrite decide_True by (apply dateOf_spread, He). apply spread_twice.
  - rewrite decide_False by exact He. reflexivity.
Qed.

Lemma fmap_fixed {A} (f : A -> A) (l : list A) :
  Forall (fun a => f a = a) l -> f <$> l = l.
Proof.
  induction 1 as [|a l Ha _ IH]; [reflexivity|].
  cbn [fmap list_fmap]. rewrite Ha. f_equal. exact IH.
Qed.

(** Upserting the same payload a second time changes nothing, on a log with
    one record per date. *)
Theorem upsert_idempotent (l : list obj) (payload : obj) :
  NoDup (dateOf <$> l) ->
  upsertHistoryEntry getTime (upsertHistoryEntry getTime l payload) payload
  = upsertHistoryEntry getTime l payload.
Proof.
  intros Hnd.
  assert (Hnd1 : NoDup (dateOf <$> upsertHistoryEntry getTime l payload))
    by (apply upsert_dates_NoDup, Hnd).
  assert (Hin1 : dateOf payload
                 ∈ dateOf <$> upsertHistoryEntry getTime l payload).
  { destruct (upsert_length getTime l payload) as [[_ Hin]|[_ Hnin]].
    - destruct (upsert_cases getTime l payload)
        as [(i & old & Hi & Hd & _ & ->)|[Hall _]].
      + rewrite Array_sort_perm, list_fmap_insert, dateOf_spread by exact Hd.
        apply list_elem_of_lookup. exists i.
        apply list_lookup_insert_eq. rewrite length_fmap.
        eapply lookup_lt_Some, Hi.
      + exfalso. apply list_elem_of_fmap in Hin as (e & He & Hin).
        rewrite Forall_forall in Hall. apply (Hall e Hin). congruence.
    - rewrite (upsert_absent getTime l payload).
      + rewrite Array_sort_perm, fmap_app. apply elem_of_app. right.
        apply list_elem_of_singleton. reflexivity.
      + apply Forall_forall. intros e He Heq. apply Hnin. rewrite <- Heq.
        apply list_elem_of_fmap_2, He. }
  rewrite (upsert_as_map _ payload Hnd1), decide_True by exact Hin1.
  rewrite fmap_fixed; [rewrite (upsert_as_map l payload Hnd)|].
  - destruct (decide (dateOf payload ∈ dateOf <$> l));
      apply Array_sort_idempotent.
  - rewrite (upsert_as_map l payload Hnd).
    destruct (decide (dateOf payload ∈ dateOf <$> l)) as [Hin|Hnin];
      rewrite Array_sort_perm.
    + apply Forall_fmap, Forall_forall. intros e _. apply mergeSameDate_idem.
    + apply Forall_app. split.
      * apply Forall_forall. intros e He. unfold mergeSameDate.
        rewrite decide_False; [reflexivity|]. intros Heq. apply Hnin.
        rewrite <- Heq. apply list_elem_of_fmap_2, He.
      * constructor; [|constructor]. unfold mergeSameDate.
        rewrite decide_True by reflexivity. apply spread_self.
Qed.

(** An upsert leaves the records of other dates as they are: a record of
    another date is in the log afterwards exactly when it was before. *)
Theorem upsert_keeps_other_dates (l : list obj) (payload e : obj) :
  dateOf e <> dateOf payload ->
  (e ∈ upsertHistoryEntry getTime l payload <-> e ∈ l).
Proof.
  intros Hne.
  destruct (upsert_cases getTime l payload)
    as [(i & old & Hi & Hd & _ & ->)|[Hall ->]];
    rewrite Array_sort_perm.
  - split.
    + intros Hin. apply list_elem_of_lookup in Hin as [j Hj].
      destruct (decide (i = j)) as [<-|Hij].
      * rewrite list_lookup_insert_eq in Hj by (eapply lookup_lt_Some; exact Hi).
        injection Hj as <-. exfalso. apply Hne, dateOf_spread, Hd.
      * rewrite list_lookup_insert_ne in Hj by exact Hij.
        eapply list_elem_of_lookup_2, Hj.
    + intros Hin. apply list_elem_of_lookup in Hin as [j Hj].
      apply list_elem_of_lookup. exists j.
      rewrite list_lookup_insert_ne; [exact Hj|].
      intros <-. rewrite Hi in Hj. injection Hj as <-. exact (Hne Hd).
  - rewrite elem_of_app, list_elem_of_singleton. split; [|auto].
    intros [H | ->]; [exact H | contradiction].
Qed.

End UpsertFacts.

Lemma upsert_idempotent_witness :
  History.upsertHistoryEntry Browser.getTime
    (History.upsertHistoryEntry Browser.getTime [sameInstant1] sameInstant2)
    sameInstant2
  = History.upsertHistoryEntry Browser.getTime [sameInstant1] sameInstant2.
Proof.
  apply (upsert_idempotent Browser.getTime [sameInstant1] sameInstant2).
  apply NoDup_singleton.
Defined.


Lemma upsert_keeps_other_dates_witness :
  History.dateOf sameInstant1 <> History.dateOf sameInstant2 /\
  sameInstant1
    ∈ History.upsertHistoryEntry Browser.getTime [sameInstant1] sameInstant2.
Proof.
  assert (Hne : History.dateOf sameInstant1 <> History.dateOf sameInstant2)
    by (vm_compute; discriminate).
  split; [exact Hne|].
  apply (upsert_keeps_other_dates Browser.getTime [sameInstant1] sameInstant2
           sameInstant1 Hne).
  apply list_elem_of_singleton. reflexivity.
Defined.

(** ** What the log and the calendar hold *)

Section LogContent.
Import History.
Local Open Scope Z_scope.

Variable getTime : value -> option Z.

Lemma mergeDate_snoc (d : value) (acc : obj) (ps : list obj) (p : obj) :
  mergeDate d acc (ps ++ [p]) =
  if decide (dateOf p = d) then spread (mergeDate d acc ps) p
  else mergeDate d acc ps.
Proof.
  unfold mergeDate. rewrite filter_app.
  destruct (decide (dateOf p = d)) as [Hd|Hd].
  - rewrite (filter_cons_True _ p []) by exact Hd.
    rewrite foldl_app. reflexivity.
  - rewrite (filter_cons_False _ p []) by exact Hd.
    rewrite filter_nil, app_nil_r. reflexivity.
Qed.

Lemma mergeDate_absent (d : value) (ps : list obj) :
  d ∉ dateOf <$> ps -> mergeDate d ∅ ps = ∅.
Proof.
  intros Hnin. unfold mergeDate. rewrite filter_date_nil by exact Hnin.
  reflexivity.
Qed.

Lemma dateOf_mergeSameDate (payload e : obj) :
  dateOf (mergeSameDate payload e) = dateOf e.
Proof.
  unfold mergeSameDate. destruct (decide (dateOf e = dateOf payload)) as [He|];
    [|reflexivity].
  rewrite dateOf_spread by exact He. congruence.
Qed.

Lemma upserts_hold_merges (payloads : list obj) :
  (forall e, e ∈ upserts getTime payloads ->
     dateOf e ∈ dateOf <$> payloads /\
     e = mergeDate (dateOf e) ∅ payloads) /\
  (forall d, d ∈ dateOf <$> payloads ->
     mergeDate d ∅ payloads ∈ upserts getTime payloads) /\
  dateOf <$> upserts getTime payloads ≡ₚ remove_dups (dateOf <$> payloads).
Proof.
  assert (Hinv :
    Forall (fun e => dateOf e ∈ dateOf <$> payloads /\
                     e = mergeDate (dateOf e) ∅ payloads)
           (upserts getTime payloads) /\
    (forall d, d ∈ dateOf <$> payloads ->
               d ∈ dateOf <$> upserts getTime payloads)).
  { induction payloads as [|p ps [IHe IHd]] using rev_ind.
    - split; [constructor|]. intros d Hd. inversion Hd.
    - rewrite upserts_snoc.
      pose proof (upserts_dates_NoDup getTime ps) as Hnd.
      rewrite (upsert_as_map getTime _ p Hnd).
      destruct (decide (dateOf p ∈ dateOf <$> upserts getTime ps)) as [Hin|Hnin].
      + split.
        * rewrite Array_sort_perm. apply Forall_fmap.
          eapply Forall_impl; [exact IHe|]. intros e [Hed He]. cbn.
          rewrite dateOf_mergeSameDate. split.
          -- rewrite fmap_app. apply elem_of_app. left. exact Hed.
          -- rewrite mergeDate_snoc. unfold mergeSameDate.
             destruct (decide (dateOf e = dateOf p)) as [Hd|Hd].
             ++ rewrite decide_True by congruence. rewrite <- He. reflexivity.
             ++ rewrite decide_False by congruence. exact He.
        * intros d Hd. rewrite Array_sort_perm, <- list_fmap_compose.
          rewrite fmap_app in Hd. apply elem_of_app in Hd as [Hd|Hd].
          -- apply IHd in Hd. apply list_elem_of_fmap in Hd as (e & -> & He).
             apply list_elem_of_fmap. exists e. split; [|exact He].
             cbn. rewrite dateOf_mergeSameDate. reflexivity.
          -- apply list_elem_of_singleton in Hd as ->.
             apply list_elem_of_fmap in Hin as (e & Hde & He).
             apply list_elem_of_fmap. exists e. split; [|exact He].
             cbn. rewrite dateOf_mergeSameDate. exact Hde.
      + assert (Hfresh : dateOf p ∉ dateOf <$> ps)
          by (intros H; apply Hnin, IHd, H).
        split.
        * rewrite Array_sort_perm. apply Forall_app. split.
          -- eapply Forall_impl; [exact IHe|]. intros e [Hed He]. split.
             ++ rewrite fmap_app. apply elem_of_app. left. exact Hed.
             ++ rewrite mergeDate_snoc, decide_False; [exact He|].
                intros Hd. apply Hfresh. rewrite Hd. exact Hed.
          -- constructor; [|constructor]. split.
             ++ rewrite fmap_app. apply elem_of_app. right.
                apply list_elem_of_singleton. reflexivity.
             ++ rewrite mergeDate_snoc, decide_True by reflexivity.
                rewrite mergeDate_absent by exact Hfresh.
                rewrite spread_empty. reflexivity.
        * intros d Hd. rewrite Array_sort_perm, !fmap_app in *.
          apply elem_of_app in Hd as [Hd|Hd]; apply elem_of_app;
            [left; apply IHd, Hd | right; exact Hd]. }
  destruct Hinv as [He Hd]. rewrite Forall_forall in He.
  split; [exact He|]. split.
  - intros d Hin. specialize (Hd d Hin).
    apply list_elem_of_fmap in Hd as (e & -> & Hein).
    destruct (He e Hein) as [_ <-]. exact Hein.
  - apply NoDup_Permutation;
      [apply upserts_dates_NoDup | apply NoDup_remove_dups |].
    intros d. rewrite elem_of_remove_dups. split; [|apply Hd].
    intros Hin. apply list_elem_of_fmap in Hin as (e & -> & Hein).
    apply (He e Hein).
Qed.

(** The log after a sequence of upserts has, for every date among the
    payloads, exactly the merge of the payloads of that date in the order
    of the calls, and nothing else. *)
Theorem upserts_content (payloads : list obj) :
  (forall e, e ∈ upserts getTime payloads ->
     dateOf e ∈ dateOf <$> payloads /\
     e = mergeDate (dateOf e) ∅ payloads) /\
  (forall d, d ∈ dateOf <$> payloads ->
     mergeDate d ∅ payloads ∈ upserts getTime payloads) /\
  dateOf <$> upserts getTime payloads ≡ₚ remove_dups (dateOf <$> payloads).
Proof. apply upserts_hold_merges. Qed.

Lemma filter_unique_date (l : list obj) (e : obj) :
  NoDup (dateOf <$> l) -> e ∈ l ->
  filter (fun x => dateOf x = dateOf e) l = [e].
Proof.
  induction l as [|x l IH]; intros Hnd Hin; [inversion Hin|].
  rewrite fmap_cons in Hnd. apply NoDup_cons in Hnd as [Hx Hnd].
  apply elem_of_cons in Hin as [->|Hin].
  - rewrite filter_cons_True by reflexivity. f_equal.
    apply filter_date_nil, Hx.
  - rewrite filter_cons_False.
    + apply IH; assumption.
    + intros Heq. apply Hx. rewrite Heq. apply list_elem_of_fmap_2, Hin.
Qed.

Lemma calendar_unique_record (l : list obj) (d : string) (e : obj) :
  NoDup (dateOf <$> l) ->
  (calendarEntry getTime l d = Some e <-> e ∈ l /\ dateOf e = VStr d).
Proof.
  intros Hnd. unfold calendarEntry. rewrite byDate_get.
  assert (Hnds : NoDup (dateOf <$> Array_sort (byTimestamp getTime) l))
    by (rewrite Array_sort_perm; exact Hnd).
  destruct (decide (VStr d ∈ dateOf <$> l)) as [Hin|Hnin].
  - apply list_elem_of_fmap in Hin as (x & Hdx & Hx).
    assert (Hm : mergeDate (VStr d) ∅ (Array_sort (byTimestamp getTime) l) = x).
    { unfold mergeDate. rewrite Hdx.
      rewrite (filter_unique_date _ x Hnds)
        by (rewrite Array_sort_perm; exact Hx).
      cbn [foldl]. apply spread_empty. }
    rewrite Hm. split.
    + intros [= <-]. auto.
    + intros [He Hde]. f_equal.
      apply list_elem_of_lookup in Hx as [i Hi].
      apply list_elem_of_lookup in He as [j Hj].
      assert (i = j).
      { apply (NoDup_lookup _ i j (VStr d) Hnd);
          rewrite list_lookup_fmap; [rewrite Hi | rewrite Hj]; cbn; congruence. }
      subst j. congruence.
  - split; [discriminate|]. intros [He Hde]. exfalso. apply Hnin.
    rewrite <- Hde. apply list_elem_of_fmap_2, He.
Qed.

(** On a log with one record per date the calendar shows, for a day, the
    record of that day as it is stored, whatever the timestamps are. *)
Theorem calendar_shows_stored_record (l : list obj) (d : string) (e : obj) :
  NoDup (dateOf <$> l) ->
  (calendarEntry getTime l d = Some e <-> e ∈ l /\ dateOf e = VStr d).
Proof. apply calendar_unique_record. Qed.

(** After any sequence of upserts the calendar shows, for a day, the merge
    of the payloads of that day in the order of the calls. *)
Theorem calendar_of_upserts (payloads : list obj) (d : string) :
  calendarEntry getTime (upserts getTime payloads) d =
  if decide (VStr d ∈ dateOf <$> payloads)
  then Some (mergeDate (VStr d) ∅ payloads) else None.
Proof.
  destruct (upserts_hold_merges payloads) as (He & Hd & Hperm).
  pose proof (upserts_dates_NoDup getTime payloads) as Hnd.
  destruct (decide (VStr d ∈ dateOf <$> payloads)) as [Hin|Hnin].
  - apply (calendar_unique_record _ d _ Hnd). split; [apply Hd, Hin|].
    apply dateOf_mergeDate, Hin.
  - destruct (calendarEntry getTime (upserts getTime payloads) d) as [e|] eqn:E;
      [|reflexivity].
    apply (calendar_unique_record _ d _ Hnd) in E as [Hein Hde].
    exfalso. apply Hnin. rewrite <- Hde. apply (He e Hein).
Qed.

End LogContent.

Lemma calendar_shows_stored_record_witness :
  NoDup (History.dateOf <$> [sameInstant1; sameInstant2]) /\
  History.calendarEntry Browser.getTime [sameInstant1; sameInstant2]
    "2025-01-02" = Some sameInstant2.
Proof.
  assert (Hnd : NoDup (History.dateOf <$> [sameInstant1; sameInstant2])).
  { apply (bool_decide_unpack _). vm_compute. exact I. }
  split; [exact Hnd|].
  apply (calendar_shows_stored_record Browser.getTime
           [sameInstant1; sameInstant2] "2025-01-02" sameInstant2 Hnd).
  split; [|reflexivity].
  apply elem_of_cons. right. apply elem_of_cons. left. reflexivity.
Defined.

(** ** Confirming results *)

Section ConfirmFacts.
Import History.
Local Open Scope Z_scope.

Variable getTime : value -> option Z.









Lemma calendar_overlay (l : list obj) (payload : obj) (d : string) :
  NoDup (dateOf <$> l) -> dateOf payload = VStr d ->
  calendarEntry getTime (upsertHistoryEntry getTime l payload) d =
  Some (spread (default ∅ (calendarEntry getTime l d)) payload).
Proof.
  intros Hnd Hd.
  apply (calendar_unique_record getTime _ d _
           (upsert_dates_NoDup getTime l payload Hnd)).
  destruct (upsert_cases getTime l payload)
    as [(i & old & Hi & Hdo & _ & ->)|[Hall ->]];
    rewrite Array_sort_perm.
  - assert (Hold : calendarEntry getTime l d = Some old).
    { apply (calendar_unique_record getTime l d old Hnd).
      split; [eapply list_elem_of_lookup_2, Hi | congruence]. }
    rewrite Hold. cbn [default from_option id]. split.
    + apply list_elem_of_lookup. exists i.
      apply list_lookup_insert_eq. eapply lookup_lt_Some, Hi.
    + rewrite dateOf_spread; congruence.
  - assert (Hnone : calendarEntry getTime l d = None).
    { destruct (calendarEntry getTime l d) as [e|] eqn:E; [|reflexivity].
      apply (calendar_unique_record getTime l d e Hnd) in E as [He Hde].
      exfalso. rewrite Forall_forall in Hall. apply (Hall e He). congruence. }
    rewrite Hnone. cbn [default from_option]. rewrite spread_empty.
    split; [|exact Hd].
    apply elem_of_app. right. apply list_elem_of_singleton. reflexivity.
Qed.

(** After an upsert the calendar shows, for the payload's day, the record
    it showed before overlaid with the payload. *)
Theorem calendar_after_upsert (l : list obj) (payload : obj) (d : string) :
  NoDup (dateOf <$> l) -> dateOf payload = VStr d ->
  calendarEntry getTime (upsertHistoryEntry getTime l payload) d =
  Some (spread (default ∅ (calendarEntry getTime l d)) payload).
Proof. apply calendar_overlay. Qed.



End ConfirmFacts.




Lemma calendar_after_upsert_witness :
  History.calendarEntry Browser.getTime
    (History.upsertHistoryEntry Browser.getTime [sameInstant1] sameInstant2)
    "2025-01-02"
  = Some (History.spread
            (default ∅ (History.calendarEntry Browser.getTime [sameInstant1]
                          "2025-01-02")) sameInstant2).
Proof.
  apply (calendar_after_upsert Browser.getTime [sameInstant1] sameInstant2
           "2025-01-02"); [apply NoDup_singleton | reflexivity].
Defined.

(** ** The statistics page *)

Section StatsFacts.
Import History.
Local Open Scope Z_scope.

Lemma summary_fold (history : list obj) (acc : gmap string Z) (key : string) :
  count_or_zero
    (foldl (fun acc it =>
              <[ ToString (get it "level") :=
                   count_or_zero (acc !! ToString (get it "level")) + 1 ]> acc)
           acc history !! key)
  = count_or_zero (acc !! key)
    + Z.of_nat (length (filter (fun e => levelKey e = key) history)).
Proof.
  revert acc. induction history as [|e history IH]; intros acc.
  - cbn. lia.
  - cbn [foldl]. rewrite IH. fold (levelKey e).
    destruct (decide (levelKey e = key)) as [He|He].
    + rewrite filter_cons_True by exact He. rewrite He.
      rewrite lookup_insert_eq. cbn [count_or_zero length]. lia.
    + rewrite filter_cons_False by exact He.
      rewrite lookup_insert_ne by exact He. reflexivity.
Qed.

Lemma levelKey_number (e : obj) (k : Z) :
  levelKey e = pretty k <->
  get e "level" = VNum k \/ get e "level" = VStr (pretty k) \/
  (get e "level" = VUndefined /\ pretty k = "undefined") \/
  (get e "level" = VNull /\ pretty k = "null").
Proof.
  unfold levelKey. destruct (get e "level") as [| |n|s]; cbn [ToString].
  - split; [intros H; right; right; left; auto|].
    intros [H|[H|[[_ H]|[H _]]]]; congruence.
  - split; [intros H; right; right; right; auto|].
    intros [H|[H|[[H _]|[_ H]]]]; congruence.
  - split.
    + intros H. left. f_equal. apply (inj pretty), H.
    + intros [[= ->]|[H|[[H _]|[H _]]]]; [reflexivity|discriminate..].
  - split.
    + intros ->. right. left. reflexivity.
    + intros [H|[[= ->]|[[H _]|[H _]]]]; [discriminate|reflexivity|discriminate..].
Qed.

(** The count shown for a level is the number of entries whose level is
    that number (or the string that spells it).  An entry without a level,
    such as a day with a pH only, is counted under none of the four
    levels, so the four counts add up to the number of entries that carry
    one of them, which can be less than the number of entries. *)
Theorem levelCount_counts (history : list obj) :
  (forall k, levelCount history k =
     Z.of_nat (length (filter (fun e => levelKey e = pretty k) history))) /\
  (forall k e, 0 <= k <= 3 ->
     (levelKey e = pretty k <->
      get e "level" = VNum k \/ get e "level" = VStr (pretty k))) /\
  (forall e, get e "level" = VUndefined \/ get e "level" = VNull ->
     levelKey e ∉ ["0"; "1"; "2"; "3"]) /\
  levelCount history 0 + levelCount history 1 + levelCount history 2
    + levelCount history 3
  = Z.of_nat (length (filter (fun e => levelKey e ∈ ["0"; "1"; "2"; "3"])
                        history)) /\
  levelCount history 0 + levelCount history 1 + levelCount history 2
    + levelCount history 3 <= Z.of_nat (length history).
Proof.
  assert (Hcount : forall k, levelCount history k =
     Z.of_nat (length (filter (fun e => levelKey e = pretty k) history))).
  { intros k. unfold levelCount, summary. rewrite summary_fold.
    rewrite lookup_empty. reflexivity. }
  assert (Hsum :
    levelCount history 0 + levelCount history 1 + levelCount history 2
      + levelCount history 3
    = Z.of_nat (length (filter (fun e => levelKey e ∈ ["0"; "1"; "2"; "3"])
                          history))).
  { rewrite !Hcount. clear Hcount.
    change (pretty 0) with "0". change (pretty 1) with "1".
    change (pretty 2) with "2". change (pretty 3) with "3".
    induction history as [|e history IH]; [reflexivity|].
    rewrite !filter_cons.
    destruct (decide (levelKey e = "0")) as [E0|E0];
      [|destruct (decide (levelKey e = "1")) as [E1|E1];
        [|destruct (decide (levelKey e = "2")) as [E2|E2];
          [|destruct (decide (levelKey e = "3")) as [E3|E3]]]].
    - rewrite E0. rewrite !(decide_False (P := "0" = _)) by discriminate.
      rewrite decide_True by (apply elem_of_cons; left; reflexivity).
      cbn [length]. lia.
    - rewrite E1.
      rewrite !(decide_False (P := "1" = _)) by discriminate.
      rewrite decide_True
        by (apply elem_of_cons; right; apply elem_of_cons; left; reflexivity).
      cbn [length]. lia.
    - rewrite E2.
      rewrite !(decide_False (P := "2" = _)) by discriminate.
      rewrite decide_True
        by (do 2 (apply elem_of_cons; right); apply elem_of_cons; left;
            reflexivity).
      cbn [length]. lia.
    - rewrite E3.
      rewrite decide_True
        by (do 3 (apply elem_of_cons; right); apply elem_of_cons; left;
            reflexivity).
      cbn [length]. lia.
    - rewrite decide_False; [exact IH|].
      intros H.
      apply elem_of_cons in H as [H|H]; [contradiction|].
      apply elem_of_cons in H as [H|H]; [contradiction|].
      apply elem_of_cons in H as [H|H]; [contradiction|].
      apply elem_of_cons in H as [H|H]; [contradiction|].
      inversion H. }
  split; [exact Hcount|]. split; [|split; [|split; [exact Hsum|]]].
  - intros k e Hk. rewrite levelKey_number.
    assert (Hk' : k = 0 \/ k = 1 \/ k = 2 \/ k = 3) by lia.
    split; [|tauto].
    intros [H|[H|[[_ H]|[_ H]]]]; [tauto | tauto | |];
      destruct Hk' as [-> | [-> | [-> | ->]]]; discriminate.
  - intros e He Hin. unfold levelKey in Hin.
    destruct He as [He | He]; rewrite He in Hin; cbn [ToString] in Hin;
      repeat (apply elem_of_cons in Hin as [Hin|Hin]; [discriminate|]);
      inversion Hin.
  - rewrite Hsum. apply inj_le, length_filter.
Qed.

Variable getTime : value -> option Z.
Variable localeCompare : string -> string -> Z.
Variable toKoMD : value -> string.

Lemma sort_insert_throwing_length {A} (cmp : A -> A -> option Z) x
    (l r : list A) :
  sort_insert_throwing cmp x l = Some r -> length r = S (length l).
Proof.
  revert r. induction l as [|y l IH]; intros r; cbn [sort_insert_throwing].
  - intros [= <-]. reflexivity.
  - destruct (cmp x y) as [n|]; [|discriminate].
    destruct (n <=? 0); [intros [= <-]; reflexivity|].
    destruct (sort_insert_throwing cmp x l) as [r'|]; [|discriminate].
    intros [= <-]. cbn [length]. rewrite (IH r' eq_refl). reflexivity.
Qed.

Lemma Array_sort_throwing_length {A} (cmp : A -> A -> option Z)
    (l r : list A) :
  Array_sort_throwing cmp l = Some r -> length r = length l.
Proof.
  revert r. induction l as [|x l IH]; intros r; cbn [Array_sort_throwing].
  - intros [= <-]. reflexivity.
  - destruct (Array_sort_throwing cmp l) as [r'|]; [|discriminate].
    intros H. apply sort_insert_throwing_length in H.
    rewrite H, (IH r' eq_refl). reflexivity.
Qed.

Lemma Array_sort_throwing_all_throw {A} (cmp : A -> A -> option Z)
    (l : list A) :
  (forall a b, a ∈ l -> cmp a b = None) -> (2 <= length l)%nat ->
  Array_sort_throwing cmp l = None.
Proof.
  intros Hthrow Hlen. destruct l as [|x l]; [simpl in Hlen; lia|].
  cbn [Array_sort_throwing].
  destruct (Array_sort_throwing cmp l) as [r|] eqn:E; [|reflexivity].
  apply Array_sort_throwing_length in E.
  destruct r as [|z r]; [simpl in *; lia|].
  cbn [sort_insert_throwing].
  rewrite (Hthrow x z) by (apply elem_of_cons; left; reflexivity).
  reflexivity.
Qed.

(** The statistics series cannot be built, the sort by date throws, when
    the history has two different dates and no date is a string. *)
Theorem lineData_throws (history : list obj) (a b : obj) :
  Forall (fun e => ~ hasDateString e) history ->
  a ∈ history -> b ∈ history -> dateOf a <> dateOf b ->
  lineData getTime localeCompare toKoMD history = None.
Proof.
  intros Hnostr Ha Hb Hab. unfold lineData.
  set (values := Map_values (byDate getTime history)).
  assert (Hdates : dateOf <$> values ≡ₚ remove_dups (dateOf <$> history)).
  { unfold values. rewrite byDate_values_dates. apply byDate_keys. }
  rewrite Array_sort_throwing_all_throw; [reflexivity| |].
  - intros v w Hv. unfold byDateString.
    assert (Hvd : dateOf v ∈ dateOf <$> history).
    { apply elem_of_remove_dups. rewrite <- Hdates.
      apply list_elem_of_fmap_2, Hv. }
    apply list_elem_of_fmap in Hvd as (e & Hde & He).
    rewrite Forall_forall in Hnostr. specialize (Hnostr e He).
    fold (dateOf v). rewrite Hde.
    destruct (dateOf e) as [| | |x] eqn:Ed; try reflexivity.
    exfalso. apply Hnostr. exists x. exact Ed.
  - rewrite <- (length_fmap dateOf), Hdates.
    assert (Hina : dateOf a ∈ remove_dups (dateOf <$> history))
      by (apply elem_of_remove_dups, list_elem_of_fmap_2, Ha).
    assert (Hinb : dateOf b ∈ remove_dups (dateOf <$> history))
      by (apply elem_of_remove_dups, list_elem_of_fmap_2, Hb).
    destruct (remove_dups (dateOf <$> history)) as [|x [|y D]].
    + inversion Hina.
    + apply list_elem_of_singleton in Hina, Hinb. congruence.
    + simpl. lia.
Qed.

Lemma mergeDate_unique (cmp : obj -> obj -> option Z) (l : list obj)
    (x : obj) :
  NoDup (dateOf <$> l) -> x ∈ l ->
  mergeDate (dateOf x) ∅ (Array_sort cmp l) = x.
Proof.
  intros Hnd Hx. unfold mergeDate.
  rewrite (filter_unique_date _ x).
  - cbn [foldl]. apply spread_empty.
  - rewrite Array_sort_perm. exact Hnd.
  - rewrite Array_sort_perm. exact Hx.
Qed.

Lemma byDate_values_of_log (history : list obj) :
  NoDup (dateOf <$> history) ->
  Map_values (byDate getTime history) ≡ₚ history.
Proof.
  intros Hnd. apply NoDup_Permutation.
  - apply (NoDup_fmap_1 dateOf). rewrite byDate_values_dates.
    apply byDate_NoDup.
  - apply (NoDup_fmap_1 dateOf), Hnd.
  - intros e. unfold Map_values. split.
    + intros He. apply list_elem_of_fmap in He as ([k v] & -> & Hkv).
      pose proof (byDate_entries getTime history) as Hall.
      rewrite Forall_forall in Hall.
      destruct (Hall _ Hkv) as (Hk & Hv & _). cbn [fst snd] in *.
      apply list_elem_of_fmap in Hk as (x & -> & Hx).
      rewrite Hv, (mergeDate_unique _ _ _ Hnd Hx). exact Hx.
    + intros He.
      assert (Hget : Map_get (byDate getTime history) (dateOf e) = Some e).
      { rewrite byDate_get.
        rewrite decide_True by (apply list_elem_of_fmap_2, He).
        rewrite (mergeDate_unique _ _ _ Hnd He). reflexivity. }
      apply (Map_get_elem _ _ _ (byDate_NoDup getTime history)) in Hget.
      apply list_elem_of_fmap. exists (dateOf e, e). split; [reflexivity|].
      exact Hget.
Qed.

Lemma hasPH_spec (pts : list point) :
  hasPH pts = true <->
  exists p, p ∈ pts /\ pt_ph p <> VNull /\ pt_ph p <> VUndefined.
Proof.
  unfold hasPH. rewrite existsb_exists. split.
  - intros (p & Hin & Hp). exists p. split; [apply list_elem_of_In, Hin|].
    destruct (pt_ph p); try discriminate; split; discriminate.
  - intros (p & Hin & Hn & Hu). exists p.
    split; [apply list_elem_of_In, Hin|].
    destruct (pt_ph p); congruence.
Qed.

(** On a log with one record per date, all dates strings, the statistics
    series is built and holds exactly the points of the records, one per
    record, whatever the platform's date parsing and string order are; the
    pH axis is shown exactly when some record carries a pH that is not
    null. *)
Theorem lineData_of_log (history : list obj) :
  NoDup (dateOf <$> history) -> Forall hasDateString history ->
  exists pts,
    lineData getTime localeCompare toKoMD history = Some pts /\
    pts ≡ₚ toPoint toKoMD <$> history /\
    length pts = length history /\
    (hasPH pts = true <->
     exists e, e ∈ history /\ get e "ph" <> VNull /\
               get e "ph" <> VUndefined).
Proof.
  intros Hnd Hstr. unfold lineData.
  pose proof (byDate_values_of_log history Hnd) as Hperm.
  assert (Hvals : Forall hasDateString (Map_values (byDate getTime history)))
    by (rewrite Hperm; exact Hstr).
  rewrite (Array_sort_throwing_ok _ hasDateString _) by
    (try exact Hvals; intros a b [x Hx] _; unfold byDateString;
     fold (dateOf a); rewrite Hx; eauto).
  eexists. split; [reflexivity|].
  assert (Hpts : map (toPoint toKoMD)
                   (Array_sort (byDateString localeCompare)
                      (Map_values (byDate getTime history)))
                 ≡ₚ toPoint toKoMD <$> history).
  { change (map (toPoint toKoMD)) with (fmap (M := list) (toPoint toKoMD)).
    rewrite Array_sort_perm, Hperm. reflexivity. }
  split; [exact Hpts|]. split.
  - rewrite Hpts. apply length_fmap.
  - rewrite hasPH_spec. split.
    + intros (p & Hin & Hn & Hu). rewrite Hpts in Hin.
      apply list_elem_of_fmap in Hin as (e & -> & He).
      exists e. split; [exact He|]. cbn [toPoint pt_ph] in Hn, Hu.
      destruct (get e "ph"); split; congruence.
    + intros (e & He & Hn & Hu). exists (toPoint toKoMD e).
      split; [rewrite Hpts; apply list_elem_of_fmap_2, He|].
      cbn [toPoint pt_ph]. destruct (get e "ph"); split; congruence.
Qed.

End StatsFacts.

Lemma lineData_throws_witness :
  History.lineData Browser.getTime Browser.localeCompare Browser.toKoMD
    [ {[ "date" := History.VNum 20250101; "level" := History.VNum 1 ]};
      {[ "level" := History.VNum 2 ]} ] = None.
Proof.
  apply (lineData_throws Browser.getTime Browser.localeCompare Browser.toKoMD
           _ {[ "date" := History.VNum 20250101; "level" := History.VNum 1 ]}
           {[ "level" := History.VNum 2 ]}).
  - repeat constructor; intros [x Hx]; vm_compute in Hx; discriminate.
  - apply elem_of_cons. left. reflexivity.
  - apply elem_of_cons. right. apply elem_of_cons. left. reflexivity.
  - vm_compute. discriminate.
Defined.

Lemma lineData_of_log_witness :
  exists pts,
    History.lineData Browser.getTime Browser.localeCompare Browser.toKoMD
      [sameInstant2; sameInstant1] = Some pts /\
    length pts = 2%nat /\ History.hasPH pts = false.
Proof.
  destruct (lineData_of_log Browser.getTime Browser.localeCompare
              Browser.toKoMD [sameInstant2; sameInstant1])
    as (pts & Hpts & _ & Hlen & Hph).
  - vm_compute. apply NoDup_cons. split.
    + intros Hin. apply list_elem_of_singleton in Hin. discriminate.
    + apply NoDup_singleton.
  - repeat constructor; eexists; vm_compute; reflexivity.
  - exists pts. split; [exact Hpts|]. split; [exact Hlen|].
    destruct (History.hasPH pts); [|reflexivity].
    destruct (proj1 Hph eq_refl) as (e & He & Hn & Hu).
    exfalso. apply Hu.
    apply elem_of_cons in He as [-> | He]; [vm_compute; reflexivity|].
    apply list_elem_of_singleton in He as ->. vm_compute. reflexivity.
Defined.

(** ** The sample is always a colour *)

Section SamplerRange.
Import Sampler.
Local Open Scope Z_scope.

Lemma accumulate_bytes (lo hi : Q) (a : Acc) (r g b : Z) :
  sumsOfBytes a -> byte r -> byte g -> byte b ->
  sumsOfBytes (accumulate lo hi a (Some r) (Some g) (Some b)).
Proof.
  intros (sr & sg & sb & Hr & Hg & Hb & Hn & Br & Bg & Bb) Hbr Hbg Hbb.
  unfold accumulate. destruct (outside _ lo hi).
  - exists sr, sg, sb. auto 10.
  - exists (sr + r), (sg + g), (sb + b). cbn [rSum gSum bSum n].
    rewrite Hr, Hg, Hb. unfold byte in *. cbn [add].
    repeat split; lia.
Qed.

Lemma at_byte (data : list Z) (i : Z) :
  Forall byte data -> 0 <= i < Z.of_nat (length data) ->
  exists v, at_ data i = Some v /\ byte v.
Proof.
  intros Hall Hi. unfold at_. destruct (Z.ltb_spec i 0); [lia|].
  destruct (lookup_lt_is_Some_2 data (Z.to_nat i)) as [v Hv]; [lia|].
  exists v. split; [exact Hv|].
  rewrite Forall_forall in Hall. apply Hall.
  eapply list_elem_of_lookup_2, Hv.
Qed.

Lemma foldl_invariant {A B} (P : A -> Prop) (f : A -> B -> A) (l : list B)
    (a : A) :
  P a -> (forall a x, x ∈ l -> P a -> P (f a x)) -> P (foldl f a l).
Proof.
  revert a. induction l as [|x l IH]; intros a Ha Hstep; [exact Ha|].
  cbn [foldl]. apply IH.
  - apply Hstep; [apply elem_of_cons; left; reflexivity | exact Ha].
  - intros a' y Hy. apply Hstep. apply elem_of_cons. right. exact Hy.
Qed.

Lemma roi_window (ratio : Q) :
  (0 <= ratio)%Q -> (ratio <= 1)%Q ->
  0 <= Qfloor (inject_Z 300 * ratio) <= 300.
Proof.
  intros H0 H1. split.
  - change 0 with (Qfloor (inject_Z 0)). apply Qfloor_resp_le.
    change (inject_Z 0) with 0%Q. change (inject_Z 300) with 300%Q. lra.
  - rewrite <- (Qfloor_Z 300) at 2. apply Qfloor_resp_le.
    change (inject_Z 300) with 300%Q. lra.
Qed.

Lemma acc0_bytes : sumsOfBytes acc0.
Proof. exists 0, 0, 0. cbn. repeat split; lia. Qed.

Lemma roiScan_bytes (data : list Z) (options : AnalyzeOptions) :
  Z.of_nat (length data) = W * H * 4 -> Forall byte data ->
  (0 <= roiRatio options)%Q -> (roiRatio options <= 1)%Q ->
  sumsOfBytes (roiScan data options).
Proof.
  intros Hlen Hall H0 H1. unfold roiScan.
  pose proof (roi_window (roiRatio options) H0 H1) as Hwin.
  change (inject_Z W) with (inject_Z 300). change (inject_Z H) with (inject_Z 300).
  set (roi := Qfloor (inject_Z 300 * roiRatio options)) in *.
  unfold W, H in *.
  assert (Hoff : 0 <= (300 - roi) / 2 /\ (300 - roi) / 2 + roi <= 300).
  { split; [apply Z.div_pos; lia|].
    assert ((300 - roi) / 2 <= 300 - roi)
      by (apply Z.div_le_upper_bound; lia).
    lia. }
  apply foldl_invariant; [exact acc0_bytes|].
  intros a y Hy Ha. apply foldl_invariant; [exact Ha|].
  intros a' x Hx Ha'. apply elem_of_seqZ in Hy, Hx.
  destruct (at_byte data ((y * 300 + x) * 4) Hall) as (r & -> & Hr); [nia|].
  destruct (at_byte data ((y * 300 + x) * 4 + 1) Hall) as (g & -> & Hg); [nia|].
  destruct (at_byte data ((y * 300 + x) * 4 + 2) Hall) as (b & -> & Hb); [nia|].
  apply accumulate_bytes; assumption.
Qed.

Lemma fullScan_bytes (k : nat) : forall (data : list Z) (a : Acc),
  length data = (4 * k)%nat -> Forall byte data -> sumsOfBytes a ->
  sumsOfBytes (fullScan data a).
Proof.
  induction k as [|k IH]; intros data a Hlen Hall Ha.
  - destruct data; [exact Ha | discriminate].
  - destruct data as [|r [|g [|b [|x rest]]]]; try (simpl in Hlen; lia).
    rewrite fullScan_step.
    apply Forall_cons in Hall as [Hr Hall].
    apply Forall_cons in Hall as [Hg Hall].
    apply Forall_cons in Hall as [Hb Hall].
    apply Forall_cons in Hall as [_ Hall].
    apply IH; [simpl in Hlen; lia | exact Hall |].
    apply accumulate_bytes; assumption.
Qed.

Lemma average_byte (s m : Z) :
  0 <= m -> 0 <= s <= 255 * m ->
  exists z, average (Some s) m = Some (inject_Z z) /\ byte z.
Proof.
  intros Hm Hs. destruct (Z.eq_dec m 0) as [->|Hne].
  - exists 0. split; [reflexivity | unfold byte; lia].
  - rewrite average_positive by lia.
    exists ((2 * s + m) / (2 * m)). split; [reflexivity|]. split.
    + apply Z.div_pos; lia.
    + assert ((2 * s + m) / (2 * m) < 256)
        by (apply Z.div_lt_upper_bound; lia).
      lia.
Qed.

Lemma sample_of_bytes (a : Acc) :
  sumsOfBytes a ->
  exists R G B,
    (average (rSum a) (n a), average (gSum a) (n a), average (bSum a) (n a))
    = (Some (inject_Z R), Some (inject_Z G), Some (inject_Z B)) /\
    byte R /\ byte G /\ byte B.
Proof.
  intros (sr & sg & sb & -> & -> & -> & Hn & Br & Bg & Bb).
  destruct (average_byte sr (n a) Hn Br) as (R & -> & HR).
  destruct (average_byte sg (n a) Hn Bg) as (G & -> & HG).
  destruct (average_byte sb (n a) Hn Bb) as (B & -> & HB).
  exists R, G, B. auto.
Qed.

(** On a full 300x300 buffer of bytes, with a region ratio between 0 and 1,
    the sampler never produces NaN: the sample is three whole numbers in
    [0,255], and the analysis returns their HSV conversion and the blue
    channel, with the hue in [0,360) and saturation and value in
    [0,100]. *)
Theorem sampler_yields_colour (data : list Z) (options : AnalyzeOptions) :
  Z.of_nat (length data) = W * H * 4 -> Forall byte data ->
  (0 <= roiRatio options)%Q -> (roiRatio options <= 1)%Q ->
  exists R G B : Z,
    sampleRGB data options
    = (Some (inject_Z R), Some (inject_Z G), Some (inject_Z B)) /\
    byte R /\ byte G /\ byte B /\
    analyzeImageForHSV data options
    = Some (Color.rgbToHsvDeg (inject_Z R) (inject_Z G) (inject_Z B),
            inject_Z B) /\
    (let c := Color.rgbToHsvDeg (inject_Z R) (inject_Z G) (inject_Z B) in
     0 <= hsv_h c /\ hsv_h c < 360 /\ 0 <= hsv_s c /\ hsv_s c <= 100 /\
     0 <= hsv_v c /\ hsv_v c <= 100)%Q.
Proof.
  intros Hlen Hall H0 H1.
  assert (Hscan : sumsOfBytes (scan data options)).
  { unfold scan. destruct (n (roiScan data options) <? 50).
    - apply (fullScan_bytes (Z.to_nat (W * H)));
        [unfold W, H in *; lia | exact Hall | exact acc0_bytes].
    - apply roiScan_bytes; assumption. }
  destruct (sample_of_bytes _ Hscan) as (R & G & B & Hs & HR & HG & HB).
  assert (Hs' : sampleRGB data options
                = (Some (inject_Z R), Some (inject_Z G), Some (inject_Z B)))
    by exact Hs.
  exists R, G, B. split; [exact Hs'|]. split; [exact HR|].
  split; [exact HG|]. split; [exact HB|].
  split; [unfold analyzeImageForHSV; rewrite Hs'; reflexivity|].
  cbv zeta. unfold byte in HR, HG, HB.
  assert (Hq : forall k : Z, (0 <= k <= 255)%Z ->
                 (0 <= inject_Z k)%Q /\ (inject_Z k <= 255)%Q).
  { intros k Hk. split.
    - change 0%Q with (inject_Z 0). rewrite <- Zle_Qle. lia.
    - change 255%Q with (inject_Z 255). rewrite <- Zle_Qle. lia. }
  apply rgbToHsvDeg_in_range;
    first [ apply (Hq R HR) | apply (Hq G HG) | apply (Hq B HB) ].
Qed.

Lemma pixels_at (k : nat) : forall data : list Z,
  (4 * k + 3 < length data)%nat ->
  exists r g b,
    data !! (4 * k)%nat = Some r /\ data !! (4 * k + 1)%nat = Some g /\
    data !! (4 * k + 2)%nat = Some b /\ (r, g, b) ∈ pixels data.
Proof.
  induction k as [|k IH]; intros data Hlen;
    destruct data as [|r [|g [|b [|x rest]]]]; try (simpl in Hlen; lia).
  - exists r, g, b. repeat split. cbn [pixels].
    apply elem_of_cons. left. reflexivity.
  - destruct (IH rest) as (r' & g' & b' & Hr & Hg & Hb & Hin);
      [simpl in Hlen; lia|].
    exists r', g', b'.
    replace (4 * S k)%nat with (S (S (S (S (4 * k))))) by lia.
    cbn [lookup list_lookup Nat.add]. repeat split; try assumption.
    cbn [pixels]. apply elem_of_cons. right. exact Hin.
Qed.

Lemma outside_default (r g b : Z) :
  inLuma 10 245 (r, g, b) = false ->
  outside (luma (Some r) (Some g) (Some b)) (minLuma ANALYZE_OPTIONS)
    (maxLuma ANALYZE_OPTIONS) = true.
Proof.
  cbn [inLuma luma outside minLuma maxLuma ANALYZE_OPTIONS].
  intros Hin. apply andb_false_iff in Hin. apply orb_true_iff.
  destruct Hin as [Hlo|Hhi].
  - left. apply ltb_lt. apply leb_gt in Hlo. lra.
  - right. apply gtb_gt. apply leb_gt in Hhi. exact Hhi.
Qed.

(** A frame with no pixel of luma in [10,245], all black or all blown out,
    gives the sample (0,0,0): hue, saturation and value 0, which the
    classifiers read as the highest glucose level and as too dark for a
    pH. *)
Theorem sampler_unusable_frame (data : list Z) :
  Z.of_nat (length data) = W * H * 4 ->
  Forall (fun p => inLuma 10 245 p = false) (pixels data) ->
  n (scan data ANALYZE_OPTIONS) = 0 /\
  sampleRGB data ANALYZE_OPTIONS = (Some 0%Q, Some 0%Q, Some 0%Q) /\
  analyzeImageForHSV data ANALYZE_OPTIONS
    = Some (Color.rgbToHsvDeg 0 0 0, 0%Q) /\
  (hsv_h (Color.rgbToHsvDeg 0 0 0) == 0)%Q /\
  (hsv_s (Color.rgbToHsvDeg 0 0 0) == 0)%Q /\
  (hsv_v (Color.rgbToHsvDeg 0 0 0) == 0)%Q /\
  classifyByHSV (hsv_h (Color.rgbToHsvDeg 0 0 0))
    (hsv_v (Color.rgbToHsvDeg 0 0 0)) = 3 /\
  classifyPHByHSV (hsv_h (Color.rgbToHsvDeg 0 0 0))
    (hsv_s (Color.rgbToHsvDeg 0 0 0)) (hsv_v (Color.rgbToHsvDeg 0 0 0))
  = mkPH None "조도가 너무 낮아 측정 불가".
Proof.
  intros Hlen Hdark.
  assert (Hroi : roiScan data ANALYZE_OPTIONS = acc0).
  { apply roiScan_all_outside.
    change (Qfloor (inject_Z H * roiRatio ANALYZE_OPTIONS)) with 150.
    change (Qfloor (inject_Z W * roiRatio ANALYZE_OPTIONS)) with 150.
    change ((H - 150) / 2) with 75. change ((W - 150) / 2) with 75.
    intros y x Hy Hx. apply elem_of_seqZ in Hy, Hx. unfold W, H in *.
    destruct (pixels_at (Z.to_nat (y * 300 + x)) data)
      as (r & g & b & Hr & Hg & Hb & Hin); [lia|].
    unfold at_.
    destruct (Z.ltb_spec ((y * 300 + x) * 4) 0); [lia|].
    destruct (Z.ltb_spec ((y * 300 + x) * 4 + 1) 0); [lia|].
    destruct (Z.ltb_spec ((y * 300 + x) * 4 + 2) 0); [lia|].
    replace (Z.to_nat ((y * 300 + x) * 4))
      with (4 * Z.to_nat (y * 300 + x))%nat by lia.
    replace (Z.to_nat ((y * 300 + x) * 4 + 1))
      with (4 * Z.to_nat (y * 300 + x) + 1)%nat by lia.
    replace (Z.to_nat ((y * 300 + x) * 4 + 2))
      with (4 * Z.to_nat (y * 300 + x) + 2)%nat by lia.
    rewrite Hr, Hg, Hb. apply outside_default.
    rewrite Forall_forall in Hdark. apply Hdark, Hin. }
  assert (Hvalid : fullFrameValid data = []).
  { unfold fullFrameValid. induction Hdark as [|p ps Hp _ IH]; [reflexivity|].
    cbn [List.filter]. rewrite Hp. exact IH. }
  assert (Hscan : scan data ANALYZE_OPTIONS = acc0).
  { unfold scan. rewrite Hroi. cbn [n acc0 Z.ltb Z.compare].
    rewrite (fullScan_pixels (Z.to_nat (W * H)) data acc0 0 0 0);
      [| unfold W, H in *; lia | reflexivity..].
    rewrite Hvalid. reflexivity. }
  assert (Hsample : sampleRGB data ANALYZE_OPTIONS
                    = (Some 0%Q, Some 0%Q, Some 0%Q)).
  { unfold sampleRGB. rewrite Hscan. reflexivity. }
  split; [rewrite Hscan; reflexivity|]. split; [exact Hsample|].
  split; [unfold analyzeImageForHSV; rewrite Hsample; reflexivity|].
  repeat split; vm_compute; reflexivity.
Qed.

End SamplerRange.

Lemma sampler_yields_colour_witness :
  exists R G B : Z,
    Sampler.sampleRGB (uniformImage 12 12 12) Sampler.ANALYZE_OPTIONS
    = (Some (inject_Z R), Some (inject_Z G), Some (inject_Z B)) /\
    Sampler.byte R /\ Sampler.byte G /\ Sampler.byte B.
Proof.
  destruct (sampler_yields_colour (uniformImage 12 12 12)
              Sampler.ANALYZE_OPTIONS)
    as (R & G & B & Hs & HR & HG & HB & _).
  - apply uniformImage_length.
  - apply uniformImage_bytes; unfold Sampler.byte; lia.
  - discriminate.
  - discriminate.
  - exists R, G, B. auto.
Defined.

Lemma sampler_unusable_frame_witness :
  Sampler.sampleRGB (uniformImage 0 0 0) Sampler.ANALYZE_OPTIONS
  = (Some 0, Some 0, Some 0).
Proof.
  apply (sampler_unusable_frame (uniformImage 0 0 0)).
  - apply uniformImage_length.
  - unfold uniformImage. rewrite pixels_uniform.
    apply Forall_forall. intros p Hp. apply list_elem_of_In in Hp.
    apply repeat_spec in Hp. subst p. reflexivity.
Defined.

